(** * UNO match engine (src/index.js): a shallow embedding and its properties

    The match handler of the Nakama module keeps one mutable [state] object
    per match and mutates it from the callbacks [matchJoin], [matchLeave]
    and [matchLoop].  The embedding below threads that object explicitly,
    together with the list of messages handed to the dispatcher, through a
    small state-and-exception monad: a JavaScript [TypeError] aborts the
    running handler but keeps every mutation done so far, exactly as an
    in-place update followed by a throw does.

    Conventions of the embedding
    - a JavaScript array is a [list], index 0 first; [pop] takes the last
      element, [push] appends;
    - an array entry that may be [undefined] is an [option Card] ([None] is
      [undefined]); [null] and [undefined] fields are both [None];
    - [state.players] is an object keyed by user id; user ids are UUID
      strings, so [Object.keys] lists them in insertion order and the object
      is an association list;
    - [Math.random] is an oracle [rnd], [Date.now] a parameter [now]
      (milliseconds);
    - calls to the logger have no effect and are left out. *)

From Stdlib Require Import String ZArith Bool Arith Lia List Permutation.
From Stdlib Require Import Morphisms.
From AAC_tactics Require Import AAC.
From AAC_tactics Require Instances.
Import Instances.Lists.
Import ListNotations.

Set Implicit Arguments.

(* ------------------------------------------------------------------ *)
(** ** Cards *)

Inductive Color := Red | Yellow | Green | Blue | WildColor.

Inductive CardType := Number | Skip | Reverse | DrawTwo | Wild | WildDrawFour.

(** [{ color, type, value }]; [value] is [null] on every card that is not a
    number card. *)
Record Card := mkCard { color : Color; type : CardType; value : option Z }.

(** An array entry or a variable holding a card, possibly [undefined]. *)
Abbreviation slot := (option Card) (only parsing).

Definition Color_eqb (a b : Color) : bool :=
  match a, b with
  | Red, Red | Yellow, Yellow | Green, Green | Blue, Blue
  | WildColor, WildColor => true
  | _, _ => false
  end.

Definition CardType_eqb (a b : CardType) : bool :=
  match a, b with
  | Number, Number | Skip, Skip | Reverse, Reverse | DrawTwo, DrawTwo
  | Wild, Wild | WildDrawFour, WildDrawFour => true
  | _, _ => false
  end.

(** [===] on the [value] field: [null === null], numbers by value. *)
Definition value_eqb (a b : option Z) : bool :=
  match a, b with
  | None, None => true
  | Some x, Some y => Z.eqb x y
  | _, _ => false
  end.

Definition isWildType (t : CardType) : bool :=
  match t with Wild | WildDrawFour => true | _ => false end.

Definition colors : list Color := [Red; Yellow; Green; Blue].

Definition actionTypes : list CardType := [Skip; Reverse; DrawTwo].

(** [createDeck]: per colour one 0, two of each 1..9, two of each action
    card; then four times a wild and a wild draw four. *)
Definition createDeck : list Card :=
  flat_map
    (fun c =>
       mkCard c Number (Some 0%Z)
       :: flat_map
            (fun num => [mkCard c Number (Some (Z.of_nat num));
                         mkCard c Number (Some (Z.of_nat num))])
            (seq 1 9)
       ++ flat_map (fun a => [mkCard c a None; mkCard c a None]) actionTypes)
    colors
  ++ flat_map
       (fun _ => [mkCard WildColor Wild None;
                  mkCard WildColor WildDrawFour None])
       (seq 0 4).

(* ------------------------------------------------------------------ *)
(** ** Results of an evaluation that may raise a [TypeError] *)

Inductive Res (A : Type) := Ok (a : A) | Throw.
Arguments Throw {A}.

(** [isValidPlay(card, topCard)].  Reading a property of [undefined] or
    [null] raises; [topCard] is not looked at for a wild card. *)
Definition isValidPlay (card topCard : slot) : Res bool :=
  match card with
  | None => Throw
  | Some c =>
      if isWildType (type c) then Ok true
      else
        match topCard with
        | None => Throw
        | Some t =>
            let colorMatch := Color_eqb (color c) (color t) in
            let valueMatch := value_eqb (value c) (value t) in
            let actionMatch :=
              CardType_eqb (type c) (type t)
              && negb (CardType_eqb (type c) Number) in
            Ok (colorMatch || valueMatch || actionMatch)
        end
  end.

(* ------------------------------------------------------------------ *)
(** ** Arrays *)

Section Arrays.
Variable A : Type.

(** [a.pop()]: the last entry ([undefined] on an empty array) and the
    array without it. *)
Definition pop (l : list (option A)) : option A * list (option A) :=
  (last l None, removelast l).

Definition push (l : list (option A)) (x : option A) : list (option A) :=
  l ++ [x].

(** [a.splice(i, 1)[0]] and the array left behind. *)
Definition splice1 (i : nat) (l : list (option A))
  : option A * list (option A) :=
  (nth i l None, firstn i l ++ skipn (S i) l).

(** [a[i] = x] for an index inside the array. *)
Fixpoint store (i : nat) (x : option A) (l : list (option A))
  : list (option A) :=
  match l, i with
  | [], _ => []
  | _ :: r, O => x :: r
  | y :: r, S k => y :: store k x r
  end.

(** The body of the shuffle loop: exchange entries [i] and [j]. *)
Definition swap (i j : nat) (l : list (option A)) : list (option A) :=
  let temp := nth i l None in
  store j temp (store i (nth j l None) l).

(** [for (i = from; i > 0; i--)] of [shuffleDeck];
    [Math.floor(Math.random() * (i + 1))] is an integer between 0 and
    [i], here the oracle's answer reduced into that range. *)
Fixpoint shuffleFrom (rnd : nat -> nat) (i : nat) (l : list (option A))
  : list (option A) :=
  match i with
  | O => l
  | S k => shuffleFrom rnd k (swap i (rnd i mod (i + 1)) l)
  end.

Definition shuffleDeck (rnd : nat -> nat) (l : list (option A))
  : list (option A) :=
  shuffleFrom rnd (length l - 1) l.

(** The entries that are not [undefined]. *)
Fixpoint defined (l : list (option A)) : list A :=
  match l with
  | [] => []
  | Some x :: r => x :: defined r
  | None :: r => defined r
  end.
End Arrays.

(* ------------------------------------------------------------------ *)
(** ** Players and the match state *)

Abbreviation PlayerId := string (only parsing).

Record Player := mkPlayer {
  userId : PlayerId;
  username : string;
  hand : list slot;
  ready : bool;
  calledUno : bool;
  score : Z
}.

Definition set_hand (h : list slot) (p : Player) : Player :=
  mkPlayer (userId p) (username p) h (ready p) (calledUno p) (score p).

Definition set_calledUno (b : bool) (p : Player) : Player :=
  mkPlayer (userId p) (username p) (hand p) (ready p) b (score p).

(** An object used as a map: keys in insertion order, each key once. *)
Section Objects.
Variable V : Type.

Fixpoint lookup (k : string) (o : list (string * V)) : option V :=
  match o with
  | [] => None
  | (k', v) :: r => if String.eqb k' k then Some v else lookup k r
  end.

(** [o[k] = v]: an existing key keeps its place, a new one goes last. *)
Fixpoint assign (k : string) (v : V) (o : list (string * V))
  : list (string * V) :=
  match o with
  | [] => [(k, v)]
  | (k', v') :: r =>
      if String.eqb k' k then (k, v) :: r else (k', v') :: assign k v r
  end.

(** In-place change of the value under a key that is present. *)
Fixpoint update (k : string) (f : V -> V) (o : list (string * V))
  : list (string * V) :=
  match o with
  | [] => []
  | (k', v) :: r =>
      if String.eqb k' k then (k', f v) :: r else (k', v) :: update k f r
  end.

(** [delete o[k]]. *)
Fixpoint delete (k : string) (o : list (string * V)) : list (string * V) :=
  match o with
  | [] => []
  | (k', v) :: r =>
      if String.eqb k' k then delete k r else (k', v) :: delete k r
  end.

(** [Object.keys(o)]. *)
Definition keys (o : list (string * V)) : list string := map fst o.
End Objects.

Inductive Phase := Waiting | Playing | Finished | Ended.

Inductive Result := Winner | Loser.

Inductive Reason := GameCompleted | OpponentLeft | PlayerLeft.

Record ScoreRecord := mkScore {
  sr_userId : PlayerId;
  sr_username : string;
  sr_score : Z;
  sr_result : Result;
  sr_reason : Reason
}.

Record State := mkState {
  players : list (PlayerId * Player);
  gameStarted : bool;
  currentTurn : option PlayerId;
  deck : list slot;
  discardPile : list slot;
  topCard : slot;
  direction : Z;
  drawCount : Z;
  lastAction : option string;
  gamePhase : Phase;
  turnStartTime : option Z;
  turnTimeLimit : Z;
  finalScores : option (list (PlayerId * ScoreRecord))
}.

Definition set_players v (s : State) : State :=
  mkState v (gameStarted s) (currentTurn s) (deck s) (discardPile s)
    (topCard s) (direction s) (drawCount s) (lastAction s) (gamePhase s)
    (turnStartTime s) (turnTimeLimit s) (finalScores s).

Definition set_gameStarted v (s : State) : State :=
  mkState (players s) v (currentTurn s) (deck s) (discardPile s)
    (topCard s) (direction s) (drawCount s) (lastAction s) (gamePhase s)
    (turnStartTime s) (turnTimeLimit s) (finalScores s).

Definition set_currentTurn v (s : State) : State :=
  mkState (players s) (gameStarted s) v (deck s) (discardPile s)
    (topCard s) (direction s) (drawCount s) (lastAction s) (gamePhase s)
    (turnStartTime s) (turnTimeLimit s) (finalScores s).

Definition set_deck v (s : State) : State :=
  mkState (players s) (gameStarted s) (currentTurn s) v (discardPile s)
    (topCard s) (direction s) (drawCount s) (lastAction s) (gamePhase s)
    (turnStartTime s) (turnTimeLimit s) (finalScores s).

Definition set_discardPile v (s : State) : State :=
  mkState (players s) (gameStarted s) (currentTurn s) (deck s) v
    (topCard s) (direction s) (drawCount s) (lastAction s) (gamePhase s)
    (turnStartTime s) (turnTimeLimit s) (finalScores s).

Definition set_topCard v (s : State) : State :=
  mkState (players s) (gameStarted s) (currentTurn s) (deck s)
    (discardPile s) v (direction s) (drawCount s) (lastAction s)
    (gamePhase s) (turnStartTime s) (turnTimeLimit s) (finalScores s).

Definition set_direction v (s : State) : State :=
  mkState (players s) (gameStarted s) (currentTurn s) (deck s)
    (discardPile s) (topCard s) v (drawCount s) (lastAction s)
    (gamePhase s) (turnStartTime s) (turnTimeLimit s) (finalScores s).

Definition set_gamePhase v (s : State) : State :=
  mkState (players s) (gameStarted s) (currentTurn s) (deck s)
    (discardPile s) (topCard s) (direction s) (drawCount s) (lastAction s)
    v (turnStartTime s) (turnTimeLimit s) (finalScores s).

Definition set_turnStartTime v (s : State) : State :=
  mkState (players s) (gameStarted s) (currentTurn s) (deck s)
    (discardPile s) (topCard s) (direction s) (drawCount s) (lastAction s)
    (gamePhase s) v (turnTimeLimit s) (finalScores s).

Definition set_finalScores v (s : State) : State :=
  mkState (players s) (gameStarted s) (currentTurn s) (deck s)
    (discardPile s) (topCard s) (direction s) (drawCount s) (lastAction s)
    (gamePhase s) (turnStartTime s) (turnTimeLimit s) v.

(** [matchInit]: the state a match starts from. *)
Definition matchInit : State :=
  mkState [] false None [] [] None 1%Z 0%Z None Waiting None 15%Z None.

(* ------------------------------------------------------------------ *)
(** ** Messages handed to the dispatcher *)

Inductive PlayError := card_not_owned | invalid_play.

Record PlayerSummary := mkSummary {
  hand_count : nat;
  summary_username : string;
  called_uno : bool
}.

Record Snapshot := mkSnapshot {
  snap_players : list (PlayerId * PlayerSummary);
  current_turn : option PlayerId;
  top_card : slot;
  snap_direction : Z;
  deck_count : nat;
  game_phase : Phase;
  player_hands : list (PlayerId * list slot)
}.

Inductive Msg :=
| player_joined (player_id : PlayerId) (player_name : string)
    (player_count : nat)
| player_left (player_id : PlayerId)
| game_started
| game_state (snap : Snapshot)
| player_hand (player_id : PlayerId) (cards : list slot)
    (playable_cards : list nat)
| card_played (player_id : PlayerId) (card : slot) (remaining_cards : nat)
| card_drawn (player_id : PlayerId) (cards_in_hand : nat)
| player_called_uno (player_id : PlayerId) (player_name : string)
| auto_play (player_id : PlayerId) (card : slot) (remaining_cards : nat)
| auto_draw (player_id : PlayerId) (cards_in_hand : nat)
| timer_update (current_player : PlayerId) (time_remaining : Z)
| game_ended (reason : Reason) (winner_id : option PlayerId)
    (winner_name : option string)
    (final_scores : list (PlayerId * ScoreRecord))
    (winner : option PlayerId)
| play_card_error (error : PlayError) (top attempted : slot).

(** What a handler asks of its collaborators: a message to every
    participant ([broadcastMessage]), a message to the listed recipients
    only ([broadcastMessageDeferred] with a presence list), a leaderboard
    record. *)
Inductive Out :=
| Broadcast (m : Msg)
| BroadcastTo (recipients : list PlayerId) (m : Msg)
| LeaderboardWrite (owner : PlayerId) (points : Z) (name : string)
    (win : bool) (opponent_count : Z).

(* ------------------------------------------------------------------ *)
(** ** The handler monad *)

Definition World : Type := State * list Out.

Definition M (A : Type) : Type := World -> Res A * World.

Definition ret {A} (a : A) : M A := fun w => (Ok a, w).

Definition bind {A B} (m : M A) (f : A -> M B) : M B :=
  fun w =>
    match m w with
    | (Ok a, w') => f a w'
    | (Throw, w') => (Throw, w')
    end.

Definition throw {A} : M A := fun w => (Throw, w).

Definition getState : M State := fun w => (Ok (fst w), w).

Definition modify (f : State -> State) : M unit :=
  fun w => (Ok tt, (f (fst w), snd w)).

Definition emit (o : Out) : M unit :=
  fun w => (Ok tt, (fst w, snd w ++ [o])).

Definition liftRes {A} (r : Res A) : M A := fun w => (r, w).

(** [try { m } catch (error) { logger.error(..) }]. *)
Definition tryCatch (m : M unit) : M unit :=
  fun w => (Ok tt, snd (m w)).

Declare Scope handler_scope.
Delimit Scope handler_scope with handler.
Notation "x <- m ;; k" := (bind m (fun x => k))
  (at level 61, m at next level, right associativity) : handler_scope.
Notation "m ;; k" := (bind m (fun _ => k))
  (at level 61, right associativity) : handler_scope.
Local Open Scope handler_scope.

(** The state and the messages a handler leaves behind. *)
Definition stateAfter {A} (r : Res A * World) : State := fst (snd r).
Definition outAfter {A} (r : Res A * World) : list Out := snd (snd r).
Definition resultOf {A} (r : Res A * World) : Res A := fst r.

(** [state.players[playerId]] followed by a property access. *)
Definition getPlayer (playerId : option PlayerId) : M Player :=
  s <- getState ;;
  match playerId with
  | None => throw
  | Some pid =>
      match lookup pid (players s) with
      | None => throw
      | Some p => ret p
      end
  end.

(** [state.players[playerId].hand = h], or an in-place change of that
    array. *)
Definition setHand (playerId : option PlayerId) (h : list slot) : M unit :=
  _ <- getPlayer playerId ;;
  match playerId with
  | None => throw
  | Some pid => modify (fun s => set_players (update pid (set_hand h) (players s)) s)
  end.

(* ------------------------------------------------------------------ *)
(** ** Turn order *)

(** [playerIds.indexOf(state.currentTurn)], -1 when absent. *)
Fixpoint indexOfFrom (i : Z) (x : option PlayerId) (l : list PlayerId) : Z :=
  match l with
  | [] => (-1)%Z
  | y :: r =>
      match x with
      | Some x' => if String.eqb y x' then i else indexOfFrom (i + 1)%Z x r
      | None => indexOfFrom (i + 1)%Z x r
      end
  end.

Definition indexOf (x : option PlayerId) (l : list PlayerId) : Z :=
  indexOfFrom 0%Z x l.

(** [a % n]: the remainder takes the sign of [a]; [NaN] when [n] is 0. *)
Definition jsRem (a n : Z) : option Z :=
  if Z.eqb n 0 then None else Some (Z.rem a n).

(** [playerIds[i]], [undefined] outside the array or at [NaN]. *)
Definition idAt (i : option Z) (l : list PlayerId) : option PlayerId :=
  match i with
  | None => None
  | Some z => if Z.ltb z 0 then None else nth_error l (Z.to_nat z)
  end.

Definition advanceTurn (now : Z) (s : State) : State :=
  let playerIds := keys (players s) in
  let currentIndex := indexOf (currentTurn s) playerIds in
  let n := Z.of_nat (length playerIds) in
  let currentIndex' :=
    if Z.eqb (direction s) 1 then jsRem (currentIndex + 1) n
    else jsRem (currentIndex - 1 + n) n in
  set_turnStartTime (Some now)
    (set_currentTurn (idAt currentIndex' playerIds) s).

(* ------------------------------------------------------------------ *)
(** ** Deck handling *)

(** [reshuffleDeck]: the last discarded card stays, the rest of the
    discard pile becomes the deck, which is shuffled. *)
Definition reshuffleDeck (rnd : nat -> nat) (s : State) : State :=
  let '(topCard, discardPile') := pop (discardPile s) in
  set_deck (shuffleDeck rnd discardPile')
    (set_discardPile [topCard] (set_deck discardPile' s)).

(** [state.players[id].hand.push(state.deck.pop())]: the hand is looked up
    before the deck is popped. *)
Definition drawInto (playerId : option PlayerId) : M unit :=
  p <- getPlayer playerId ;;
  s <- getState ;;
  let '(c, deck') := pop (deck s) in
  modify (set_deck deck') ;;
  setHand playerId (push (hand p) c).

(** [for (i = 0; i < n; i++) if (state.deck.length > 0) ..push(..pop())]. *)
Fixpoint drawUpTo (n : nat) (playerId : option PlayerId) : M unit :=
  match n with
  | O => ret tt
  | S k =>
      s <- getState ;;
      (if Nat.ltb 0 (length (deck s)) then drawInto playerId else ret tt) ;;
      drawUpTo k playerId
  end.

Definition applyCardEffects (now : Z) (card : slot) : M unit :=
  match card with
  | None => throw
  | Some c =>
      match type c with
      | Skip => modify (advanceTurn now)
      | Reverse => modify (fun s => set_direction (direction s * -1)%Z s)
      | DrawTwo =>
          modify (advanceTurn now) ;;
          s <- getState ;;
          drawUpTo 2 (currentTurn s)
      | WildDrawFour =>
          modify (advanceTurn now) ;;
          s <- getState ;;
          drawUpTo 4 (currentTurn s)
      | Number | Wild => ret tt
      end
  end.

(* ------------------------------------------------------------------ *)
(** ** Broadcasting the game state *)

(** The loop of [getPlayableCards] and of the scan in [handleAutoPlay]. *)
Fixpoint playableFrom (i : nat) (cards : list slot) (top : slot)
  : Res (list nat) :=
  match cards with
  | [] => Ok []
  | c :: r =>
      match isValidPlay c top with
      | Throw => Throw
      | Ok b =>
          match playableFrom (S i) r top with
          | Throw => Throw
          | Ok l => Ok (if b then i :: l else l)
          end
      end
  end.

Definition getPlayableCards (s : State) (playerId : PlayerId)
  : Res (list nat) :=
  match lookup playerId (players s) with
  | None => Throw
  | Some p =>
      match topCard s with
      | None => Ok []
      | Some _ => playableFrom 0 (hand p) (topCard s)
      end
  end.

Definition snapshot (s : State) : Snapshot :=
  mkSnapshot
    (map (fun kv => (fst kv,
                     mkSummary (length (hand (snd kv))) (username (snd kv))
                       (calledUno (snd kv))))
       (players s))
    (currentTurn s) (topCard s) (direction s) (length (deck s))
    (gamePhase s)
    (map (fun kv => (fst kv, hand (snd kv))) (players s)).

(** The second loop of [broadcastGameState]: one [player_hand] message per
    player, each with that player's playable indices. *)
Fixpoint sendHands (playerIds : list PlayerId) : M unit :=
  match playerIds with
  | [] => ret tt
  | pid :: rest =>
      p <- getPlayer (Some pid) ;;
      s <- getState ;;
      playable <- liftRes (getPlayableCards s pid) ;;
      emit (Broadcast (player_hand pid (hand p) playable)) ;;
      sendHands rest
  end.

Definition broadcastGameState : M unit :=
  s <- getState ;;
  emit (Broadcast (game_state (snapshot s))) ;;
  sendHands (keys (players s)).

(* ------------------------------------------------------------------ *)
(** ** End of the game and scores *)

(** The inner loop of [endGame]: [cardValue] over one hand. *)
Fixpoint handValue (cardValue : Z) (cards : list slot) : Res Z :=
  match cards with
  | [] => Ok cardValue
  | None :: _ => Throw
  | Some c :: r =>
      match type c with
      | Number =>
          handValue
            (cardValue + match value c with Some v => v | None => 0 end)%Z r
      | Skip | Reverse | DrawTwo => handValue (cardValue + 20)%Z r
      | Wild | WildDrawFour => handValue (cardValue + 50)%Z r
      end
  end.

(** The outer loop: [scores] and [totalOtherCards]. *)
Fixpoint scoreLoop (winnerId : PlayerId) (ps : list (PlayerId * Player))
  (scores : list (PlayerId * Z)) (totalOtherCards : Z)
  : Res (list (PlayerId * Z) * Z) :=
  match ps with
  | [] => Ok (scores, totalOtherCards)
  | (playerId, player) :: rest =>
      match handValue 0 (hand player) with
      | Throw => Throw
      | Ok cardValue =>
          if String.eqb playerId winnerId
          then scoreLoop winnerId rest (assign playerId 100%Z scores)
                 totalOtherCards
          else scoreLoop winnerId rest (assign playerId (- cardValue)%Z scores)
                 (totalOtherCards + cardValue)%Z
      end
  end.

(** [scores[playerId]] for a player the loop has been through. *)
Definition scoreOf (playerId : PlayerId) (scores : list (PlayerId * Z)) : Z :=
  match lookup playerId scores with Some z => z | None => 0%Z end.

Definition resultTag (playerId winnerId : PlayerId) : Result :=
  if String.eqb playerId winnerId then Winner else Loser.

Fixpoint emitAll (l : list Out) : M unit :=
  match l with
  | [] => ret tt
  | o :: r => emit o ;; emitAll r
  end.

(** The loop that builds [finalScores], one record per player. *)
Definition finalScoresOf (winnerId : PlayerId) (ps : list (PlayerId * Player))
  (scores : list (PlayerId * Z)) : list (PlayerId * ScoreRecord) :=
  map (fun kv =>
         (fst kv,
          mkScore (fst kv) (username (snd kv)) (scoreOf (fst kv) scores)
            (resultTag (fst kv) winnerId) GameCompleted))
    ps.

(** The loop that writes the leaderboard records. *)
Definition leaderboardWritesOf (winnerId : PlayerId)
  (ps : list (PlayerId * Player)) (scores : list (PlayerId * Z)) : list Out :=
  map (fun kv =>
         LeaderboardWrite (fst kv) (scoreOf (fst kv) scores)
           (username (snd kv)) (String.eqb (fst kv) winnerId)
           (Z.of_nat (length ps) - 1)%Z)
    ps.

(** [endGame].  [scores[winnerId] += totalOtherCards] changes an entry that
    exists whenever the winner is a player; the later loops read the
    entries of the players only.  The leaderboard writes are recorded as
    requests: a failure of the leaderboard is caught and logged by the
    source and touches nothing else. *)
Definition endGame (winnerId : PlayerId) : M unit :=
  modify (set_gamePhase Ended) ;;
  s <- getState ;;
  st <- liftRes (scoreLoop winnerId (players s) [] 0%Z) ;;
  let scores :=
    update winnerId (fun z => (z + snd st)%Z) (fst st) in
  let finalScores' := finalScoresOf winnerId (players s) scores in
  emitAll (leaderboardWritesOf winnerId (players s) scores) ;;
  modify (set_finalScores (Some finalScores')) ;;
  winner <- getPlayer (Some winnerId) ;;
  emit (Broadcast (game_ended GameCompleted (Some winnerId)
                     (Some (username winner)) finalScores' (Some winnerId))).

(* ------------------------------------------------------------------ *)
(** ** Message handlers *)

(** [state.currentTurn !== playerId] is false. *)
Definition isTurn (s : State) (playerId : PlayerId) : bool :=
  match currentTurn s with
  | Some t => String.eqb t playerId
  | None => false
  end.

Definition sameCard (h c : Card) : bool :=
  Color_eqb (color h) (color c)
  && CardType_eqb (type h) (type c)
  && value_eqb (value h) (value c).

(** The search loop of [handlePlayCard]; [None] is [cardIndex === -1]. *)
Fixpoint findCardFrom (i : nat) (cards : list slot) (c : Card)
  : Res (option nat) :=
  match cards with
  | [] => Ok None
  | None :: _ => Throw
  | Some h :: r => if sameCard h c then Ok (Some i) else findCardFrom (S i) r c
  end.

(** What [handlePlayCard] and [handleAutoPlay] share once the card to play
    is known: take it out of the hand, put it on the discard pile, end the
    game on an empty hand, otherwise apply the effects and advance.  The
    two differ in the event they broadcast last, whose [remaining_cards] is
    the length of the hand array when the message is built. *)
Definition playAt (now : Z) (playerId : PlayerId) (playerHand : list slot)
  (cardIndex : nat) (event : PlayerId -> slot -> nat -> Msg) : M unit :=
  let '(playedCard, playerHand') := splice1 cardIndex playerHand in
  setHand (Some playerId) playerHand' ;;
  modify (fun s =>
            set_discardPile (push (discardPile s) playedCard)
              (set_topCard playedCard s)) ;;
  if Nat.eqb (length playerHand') 0 then endGame playerId
  else
    applyCardEffects now playedCard ;;
    modify (advanceTurn now) ;;
    broadcastGameState ;;
    p <- getPlayer (Some playerId) ;;
    emit (Broadcast (event playerId playedCard (length (hand p)))).

Definition handlePlayCard (now : Z) (playerId : PlayerId) (card : Card)
  : M unit :=
  s <- getState ;;
  if negb (isTurn s playerId) then ret tt
  else
    p <- getPlayer (Some playerId) ;;
    let playerHand := hand p in
    cardIndex <- liftRes (findCardFrom 0 playerHand card) ;;
    match cardIndex with
    | None =>
        emit (BroadcastTo [playerId] (play_card_error card_not_owned None None))
    | Some i =>
        isValid <- liftRes (isValidPlay (Some card) (topCard s)) ;;
        if negb isValid
        then emit (BroadcastTo [playerId]
                     (play_card_error invalid_play (topCard s) (Some card)))
        else playAt now playerId playerHand i card_played
    end.

(** [var drawnCard = state.deck.pop();
    state.players[playerId].hand.push(drawnCard)]. *)
Definition takeCard (playerId : PlayerId) : M unit :=
  s <- getState ;;
  let '(drawnCard, deck') := pop (deck s) in
  modify (set_deck deck') ;;
  p <- getPlayer (Some playerId) ;;
  setHand (Some playerId) (push (hand p) drawnCard).

(** The draw shared by [handleDrawCard] and the second branch of
    [handleAutoPlay]: reshuffle on an empty deck, pop, push. *)
Definition drawOne (rnd : nat -> nat) (playerId : PlayerId) : M unit :=
  s <- getState ;;
  (if Nat.eqb (length (deck s)) 0 then modify (reshuffleDeck rnd)
   else ret tt) ;;
  takeCard playerId.

Definition afterDraw (now : Z) (playerId : PlayerId)
  (event : PlayerId -> nat -> Msg) : M unit :=
  modify (advanceTurn now) ;;
  broadcastGameState ;;
  p <- getPlayer (Some playerId) ;;
  emit (Broadcast (event playerId (length (hand p)))).

Definition handleDrawCard (now : Z) (rnd : nat -> nat) (playerId : PlayerId)
  : M unit :=
  s <- getState ;;
  if negb (isTurn s playerId) then ret tt
  else drawOne rnd playerId ;; afterDraw now playerId card_drawn.

Definition handleCallUno (playerId : PlayerId) : M unit :=
  p <- getPlayer (Some playerId) ;;
  modify (fun s =>
            set_players (update playerId (set_calledUno true) (players s)) s) ;;
  emit (Broadcast (player_called_uno playerId (username p))).

Definition handlePassTurn (now : Z) (playerId : PlayerId) : M unit :=
  s <- getState ;;
  if negb (isTurn s playerId) then ret tt
  else modify (advanceTurn now) ;; broadcastGameState.

(** [handleAutoPlay]: the first playable card of the current player's hand,
    or a draw when there is none. *)
Definition handleAutoPlay (now : Z) (rnd : nat -> nat) : M unit :=
  s <- getState ;;
  p <- getPlayer (currentTurn s) ;;
  match currentTurn s with
  | None => throw
  | Some currentPlayerId =>
      let playerHand := hand p in
      playableCards <- liftRes (playableFrom 0 playerHand (topCard s)) ;;
      match playableCards with
      | index :: _ => playAt now currentPlayerId playerHand index auto_play
      | [] => drawOne rnd currentPlayerId ;;
              afterDraw now currentPlayerId auto_draw
      end
  end.

(* ------------------------------------------------------------------ *)
(** ** The match loop *)

(** The parsed [data] of an inbound message; [unparseable] is a payload on
    which [JSON.parse] raises.  A [play_card] message carries a card object
    with its three fields. *)
Inductive Payload :=
| unparseable
| play_card (card : Card)
| draw_card
| call_uno
| pass_turn
| unknown_type.

Record Message := mkMessage { sender : PlayerId; data : Payload }.

(** One turn of the message loop, inside its [try]/[catch]. *)
Definition processMessage (now : Z) (rnd : nat -> nat) (m : Message)
  : M unit :=
  tryCatch
    match data m with
    | unparseable => throw
    | play_card c => handlePlayCard now (sender m) c
    | draw_card => handleDrawCard now rnd (sender m)
    | call_uno => handleCallUno (sender m)
    | pass_turn => handlePassTurn now (sender m)
    | unknown_type => ret tt
    end.

Fixpoint processMessages (now : Z) (rnd : nat -> nat) (l : list Message)
  : M unit :=
  match l with
  | [] => ret tt
  | m :: r => processMessage now rnd m ;; processMessages now rnd r
  end.

(** Truthiness of a string-or-null and of a number-or-null. *)
Definition truthyId (o : option PlayerId) : bool :=
  match o with Some i => negb (String.eqb i "") | None => false end.

Definition truthyNum (o : option Z) : bool :=
  match o with Some z => negb (Z.eqb z 0) | None => false end.

(** The timer part of [matchLoop], in whole milliseconds:
    [timeElapsed = (now - turnStartTime) / 1000] reaches the limit exactly
    when the difference reaches a thousand times the limit, and the
    remaining time shown is the limit minus the whole seconds elapsed.  The
    test guarding the [timer_update] compares the floor of a number with the
    floor of that number minus one, which differ. *)
Definition timerCheck (now : Z) (rnd : nat -> nat) : M unit :=
  s <- getState ;;
  match gamePhase s, currentTurn s, turnStartTime s with
  | Playing, Some cur, Some start =>
      if truthyId (Some cur) && truthyNum (Some start) then
        let elapsedMs := (now - start)%Z in
        emit (Broadcast
                (timer_update cur
                   (Z.max 0 (turnTimeLimit s - elapsedMs / 1000)))) ;;
        if Z.leb (turnTimeLimit s * 1000) elapsedMs
        then handleAutoPlay now rnd
        else ret tt
      else ret tt
  | _, _, _ => ret tt
  end.

Definition matchLoop (now : Z) (rnd : nat -> nat) (messages : list Message)
  : M unit :=
  processMessages now rnd messages ;; timerCheck now rnd.

(* ------------------------------------------------------------------ *)
(** ** Starting the game, joining and leaving *)

(** [n] times [state.deck.pop()], in the order popped. *)
Fixpoint popN (n : nat) (d : list slot) : list slot * list slot :=
  match n with
  | O => ([], d)
  | S k =>
      let '(card, d') := pop d in
      let '(cards, d'') := popN k d' in
      (card :: cards, d'')
  end.

(** First loop of [startGame]: every hand becomes empty.  The ids come from
    [Object.keys] of the same object, so the guard on a missing player
    object does not fire. *)
Fixpoint resetHands (playerIds : list PlayerId) : M unit :=
  match playerIds with
  | [] => ret tt
  | pid :: rest => setHand (Some pid) [] ;; resetHands rest
  end.

(** Second loop: seven cards popped into a new array for each player. *)
Fixpoint dealHands (playerIds : list PlayerId) : M unit :=
  match playerIds with
  | [] => ret tt
  | pid :: rest =>
      s <- getState ;;
      let '(newHand, deck') := popN 7 (deck s) in
      modify (set_deck deck') ;;
      setHand (Some pid) newHand ;;
      dealHands rest
  end.

(** [do { state.topCard = state.deck.pop(); } while (wild)].  Each round
    pops one card and an empty deck pops [undefined], whose [type] cannot
    be read: the loop ends within one round more than the deck has cards,
    which is the fuel [startGame] gives it. *)
Fixpoint flipLoop (fuel : nat) : M unit :=
  match fuel with
  | O => throw
  | S k =>
      s <- getState ;;
      let '(c, deck') := pop (deck s) in
      modify (fun s => set_topCard c (set_deck deck' s)) ;;
      match c with
      | None => throw
      | Some card => if isWildType (type card) then flipLoop k else ret tt
      end
  end.

Definition startGame (now : Z) (rnd : nat -> nat) : M unit :=
  modify (set_deck (shuffleDeck rnd (map Some createDeck))) ;;
  s <- getState ;;
  let playerIds := keys (players s) in
  resetHands playerIds ;;
  dealHands playerIds ;;
  s1 <- getState ;;
  flipLoop (S (length (deck s1))) ;;
  modify (fun s =>
            set_turnStartTime (Some now)
              (set_gamePhase Playing
                 (set_gameStarted true
                    (set_direction 1%Z
                       (set_currentTurn (nth_error playerIds 0)
                          (set_discardPile [topCard s] s)))))) ;;
  broadcastGameState ;;
  emit (Broadcast game_started).

Record Presence := mkPresence { p_userId : PlayerId; p_username : string }.

(** [matchJoinAttempt]: the [accept] flag. *)
Definition matchJoinAttempt (s : State) : bool :=
  negb (Nat.leb 2 (length (keys (players s)))).

Fixpoint joinLoop (presences : list Presence) : M unit :=
  match presences with
  | [] => ret tt
  | presence :: rest =>
      modify (fun s =>
                set_players
                  (assign (p_userId presence)
                     (mkPlayer (p_userId presence) (p_username presence) []
                        false false 0%Z)
                     (players s)) s) ;;
      s <- getState ;;
      emit (Broadcast (player_joined (p_userId presence) (p_username presence)
                         (length (keys (players s))))) ;;
      joinLoop rest
  end.

Definition matchJoin (now : Z) (rnd : nat -> nat) (presences : list Presence)
  : M unit :=
  joinLoop presences ;;
  s <- getState ;;
  if Nat.eqb (length (keys (players s))) 2 && negb (gameStarted s)
  then startGame now rnd
  else ret tt.

Fixpoint leaveLoop (presences : list Presence) : M unit :=
  match presences with
  | [] => ret tt
  | presence :: rest =>
      modify (fun s =>
                set_players (delete (p_userId presence) (players s)) s) ;;
      emit (Broadcast (player_left (p_userId presence))) ;;
      leaveLoop rest
  end.

Definition matchLeave (presences : list Presence) : M unit :=
  leaveLoop presences ;;
  s <- getState ;;
  if Nat.ltb (length (keys (players s))) 2 && gameStarted s then
    let remainingPlayers := keys (players s) in
    let finalScores' :=
      match players s with
      | [(winnerId, winner)] =>
          [(winnerId,
            mkScore winnerId (username winner) 100%Z Winner OpponentLeft)]
      | _ => []
      end in
    modify (fun s => set_finalScores (Some finalScores')
                       (set_gamePhase Finished s)) ;;
    emit (Broadcast
            (game_ended PlayerLeft None None finalScores'
               (match remainingPlayers with
                | [only] => Some only
                | _ => None
                end)))
  else ret tt.

(* ------------------------------------------------------------------ *)
(** ** Vocabulary of the properties *)

(** Every entry of every hand, in turn order. *)
Definition allHands (ps : list (PlayerId * Player)) : list slot :=
  flat_map (fun kv => hand (snd kv)) ps.

(** The entries of the deck, of the discard pile and of the hands. *)
Definition cardsOf (s : State) : list slot :=
  deck s ++ discardPile s ++ allHands (players s).

(** Weakest precondition of a handler for a property of its result and of
    the state it leaves, whatever was sent before. *)
Definition wp {A} (m : M A) (Q : Res A -> State -> Prop) (s : State) : Prop :=
  forall out, Q (resultOf (m (s, out))) (stateAfter (m (s, out))).

(** What the handlers keep between the start of the game and the first
    leave: the players, a current turn among them, and the cards. *)
Definition tableInv (ids : list PlayerId) (L : list Card) (s : State) : Prop :=
  keys (players s) = ids
  /\ (exists p, currentTurn s = Some p /\ In p ids)
  /\ Permutation (defined (cardsOf s)) L.

(** The states seen between two runs of [matchLoop], from a state on. *)
Inductive reachable (s0 : State) : State -> Prop :=
| reach_here : reachable s0 s0
| reach_tick : forall s now rnd messages out,
    reachable s0 s ->
    reachable s0 (stateAfter (matchLoop now rnd messages (s, out))).

Definition isWildCard (c : Card) : Prop := isWildType (type c) = true.

(** The legality rule in the words of the specification: a wild card, or
    the same colour, or the same numeric value, or the same kind when that
    kind is not number. *)
Definition sameNumericValue (c t : Card) : bool :=
  match value c, value t with
  | Some x, Some y => Z.eqb x y
  | _, _ => false
  end.

Definition legalBySpec (c t : Card) : bool :=
  isWildType (type c)
  || Color_eqb (color c) (color t)
  || sameNumericValue c t
  || (CardType_eqb (type c) (type t) && negb (CardType_eqb (type c) Number)).

(** The value of a card and of a hand in the words of the specification. *)
Definition cardPoints (c : Card) : Z :=
  match type c with
  | Number => match value c with Some v => v | None => 0%Z end
  | Skip | Reverse | DrawTwo => 20%Z
  | Wild | WildDrawFour => 50%Z
  end.

Definition handPoints (cards : list Card) : Z :=
  fold_right (fun c acc => (cardPoints c + acc)%Z) 0%Z cards.

(** A hand without [undefined] entries. *)
Definition cleanHand (cards : list slot) : Prop :=
  Forall (fun c => c <> None) cards.

(** The points of the players other than the winner, and the score the
    specification gives a player. *)
Definition othersPoints (winnerId : PlayerId) (ps : list (PlayerId * Player))
  : Z :=
  fold_right
    (fun kv acc =>
       if String.eqb (fst kv) winnerId then acc
       else (handPoints (defined (hand (snd kv))) + acc)%Z)
    0%Z ps.

Definition scoreBySpec (winnerId : PlayerId) (ps : list (PlayerId * Player))
  (q : PlayerId) (pl : Player) : Z :=
  if String.eqb q winnerId then (100 + othersPoints winnerId ps)%Z
  else (- handPoints (defined (hand pl)))%Z.

(** The scores after the bonus. *)
Definition scoresOf (winnerId : PlayerId) (ps : list (PlayerId * Player))
  : list (PlayerId * Z) :=
  update winnerId (fun z => (z + othersPoints winnerId ps)%Z)
    (map (fun kv =>
            (fst kv,
             if String.eqb (fst kv) winnerId then 100%Z
             else (- handPoints (defined (hand (snd kv))))%Z)) ps).

(** Kinds of outbound messages. *)
Definition isPlayerHand (o : Out) : Prop :=
  match o with Broadcast (player_hand _ _ _) => True | _ => False end.

Definition isDrawEvent (o : Out) : bool :=
  match o with
  | Broadcast (card_drawn _ _) | Broadcast (auto_draw _ _) => true
  | _ => false
  end.

Definition allClean (ps : list (PlayerId * Player)) : Prop :=
  Forall (fun kv => cleanHand (hand (snd kv))) ps.

(** The state right after a player has put the card [c] on the discard
    pile, before the effects. *)
Definition played (pid : PlayerId) (h : list slot) (c : slot) (s : State)
  : State :=
  set_discardPile (push (discardPile s) c)
    (set_topCard c (set_players (update pid (set_hand h) (players s)) s)).

(** A run of a handler has ended the game for the winner [pid]: it
    returned, the phase is neither [waiting] nor [playing] any more, the
    scores are in [finalScores], the turn is still the winner's, and the
    last message sent is the [game_ended] notification that names the
    winner and carries the scores. *)
Definition endedFor (pid : PlayerId) (name : string) (s2 : State)
  (out : list Out) (r : Res unit * World) : Prop :=
  let fs := finalScoresOf pid (players s2) (scoresOf pid (players s2)) in
  resultOf r = Ok tt
  /\ gamePhase (stateAfter r) <> Waiting
  /\ gamePhase (stateAfter r) <> Playing
  /\ finalScores (stateAfter r) = Some fs
  /\ currentTurn (stateAfter r) = currentTurn s2
  /\ players (stateAfter r) = players s2
  /\ outAfter r
     = out
       ++ leaderboardWritesOf pid (players s2) (scoresOf pid (players s2))
       ++ [Broadcast
             (game_ended GameCompleted (Some pid) (Some name) fs (Some pid))].

(** The sum of the scores of a final record. *)
Definition sumScores (fs : list (PlayerId * ScoreRecord)) : Z :=
  fold_right (fun kv acc => (sr_score (snd kv) + acc)%Z) 0%Z fs.

(** [isValidPlay(c, top)] returned true. *)
Definition validOn (top : slot) (c : slot) : bool :=
  match isValidPlay c top with Ok true => true | _ => false end.

(** The indices of a hand that are playable on a top card, in hand order;
    none without a top card. *)
Definition playableIndices (cards : list slot) (top : slot) : list nat :=
  match top with
  | None => []
  | Some _ =>
      filter (fun i => validOn top (nth i cards None)) (seq 0 (length cards))
  end.

(** The [player_hand] message of one player. *)
Definition handMessage (top : slot) (kv : PlayerId * Player) : Out :=
  Broadcast
    (player_hand (fst kv) (hand (snd kv))
       (playableIndices (hand (snd kv)) top)).

(** What holds of a game in progress between two runs of [matchLoop]: the
    players, a turn among them, a direction that is 1 or -1, and a top card
    that is the last entry of a discard pile. *)
Definition gameInv (ids : list PlayerId) (s : State) : Prop :=
  keys (players s) = ids
  /\ (exists p, currentTurn s = Some p /\ In p ids)
  /\ (direction s = 1%Z \/ direction s = (-1)%Z)
  /\ gameStarted s = true
  /\ (exists c, topCard s = Some c)
  /\ discardPile s <> []
  /\ last (discardPile s) None = topCard s.

(** A handler keeps a property of the state, whether it returns or
    raises. *)
Definition holds (I : State -> Prop) {A} (m : M A) : Prop :=
  forall s, I s -> wp m (fun _ => I) s.

(** The cards a play of the given kind forces on the next player. *)
Definition forcedDraw (t : CardType) : nat :=
  match t with DrawTwo => 2 | WildDrawFour => 4 | _ => 0 end.

(** The kinds after which, between two players, the turn comes back to the
    player. *)
Definition keepsTurn (t : CardType) : bool :=
  match t with Skip | DrawTwo | WildDrawFour => true | _ => false end.

(** How far one [advanceTurn] moves the index in [Object.keys]: one place
    on, or one place back, which is the number of players less one place
    on. *)
Definition turnStep (s : State) : nat :=
  if Z.eqb (direction s) 1 then 1 else length (keys (players s)) - 1.

(** [advanceTurn] once per entry of a list of clock readings. *)
Definition advanceTurns (nows : list Z) (s : State) : State :=
  fold_left (fun s' now => advanceTurn now s') nows s.

(** The record [matchJoin] writes for a presence. *)
Definition joined (presence : Presence) : Player :=
  mkPlayer (p_userId presence) (p_username presence) [] false false 0%Z.

(** [state.players] after the loop of [matchJoin]. *)
Definition joinAll (presences : list Presence)
  (ps : list (PlayerId * Player)) : list (PlayerId * Player) :=
  fold_left (fun ps' pr => assign (p_userId pr) (joined pr) ps') presences ps.

Definition isJoinEvent (o : Out) : Prop :=
  exists id name n, o = Broadcast (player_joined id name n).

(** How many times a card is in the deck of [createDeck]. *)
Definition copies (c : Card) : nat :=
  length (filter (sameCard c) createDeck).

(** The [calledUno] flag of a player of the match is set. *)
Definition hasCalledUno (q : PlayerId) (s : State) : Prop :=
  exists p, lookup q (players s) = Some p /\ calledUno p = true.

(** The turn is [undefined] or with a player of the match. *)
Definition turnRegistered (s : State) : Prop :=
  forall pid, currentTurn s = Some pid -> In pid (keys (players s)).

(** The wild cards at the head of a list of entries: read from the top of
    a deck, what the flip of [startGame] pops and overwrites before it pops
    a card that is not wild. *)
Fixpoint wildsOnTop (fromTop : list slot) : list Card :=
  match fromTop with
  | Some c :: r => if isWildType (type c) then c :: wildsOnTop r else []
  | _ => []
  end.

(** The same for a deck, whose top is its last entry: the cards in the
    order the flip pops them. *)
Definition flippedWilds (d : list slot) : list Card := wildsOnTop (rev d).

(** The deck of a match of two players when the flip begins: shuffled, and
    seven cards popped for each player. *)
Definition dealtDeck (rnd : nat -> nat) : list slot :=
  snd (popN 7 (snd (popN 7 (shuffleDeck rnd (map Some createDeck))))).

(* ------------------------------------------------------------------ *)
(** ** Concrete matches *)

Definition alice : Presence := mkPresence "alice" "Alice".
Definition bob : Presence := mkPresence "bob" "Bob".

(** Two players have joined, the game has not started. *)
Definition twoJoined : State := stateAfter (joinLoop [alice; bob] (matchInit, [])).

Definition red3 : Card := mkCard Red Number (Some 3%Z).
Definition red5 : Card := mkCard Red Number (Some 5%Z).
Definition blue7 : Card := mkCard Blue Number (Some 7%Z).
Definition green1 : Card := mkCard Green Number (Some 1%Z).
Definition redSkip : Card := mkCard Red Skip None.
Definition redDrawTwo : Card := mkCard Red DrawTwo None.
Definition blueReverse : Card := mkCard Blue Reverse None.
Definition wildCard : Card := mkCard WildColor Wild None.

(** A game in progress: it is the turn of "alice", who holds [aliceHand];
    "bob" holds a seven, a skip and a wild card; a red three is on top. *)
Definition table (aliceHand theDeck : list slot) : State :=
  mkState
    [("alice"%string, mkPlayer "alice" "Alice" aliceHand false false 0%Z);
     ("bob"%string,
      mkPlayer "bob" "Bob" [Some blue7; Some redSkip; Some wildCard]
        false false 0%Z)]
    true (Some "alice"%string) theDeck [Some red3] (Some red3) 1%Z 0%Z None Playing
    (Some 1000%Z) 15%Z None.

(** One player has joined and waits for an opponent. *)
Definition oneJoined : State :=
  stateAfter (joinLoop [alice] (matchInit, [])).

(** The deck is used up and three cards have been discarded. *)
Definition drawTable : State :=
  set_discardPile [Some green1; Some red5; Some red3]
    (table [Some blue7] []).

(** A shuffle that changes nothing, and one that moves the last card of the
    deck, a wild draw four, to index 93: under the fourteen cards dealt. *)
Definition noShuffle : nat -> nat := fun i => i.
Definition wildOnTop : nat -> nat := fun i => if Nat.eqb i 107 then 93 else i.

(** The game of "alice" and "bob" right after its start, the deck not
    shuffled: 93 cards in the deck, a blue nine on top of the table. *)
Definition startedGame : State :=
  stateAfter (startGame 1000%Z noShuffle (twoJoined, [])).

(** [n] [draw_card] messages that two players send in turn. *)
Fixpoint drawsInTurn (n : nat) (a b : PlayerId) : list Message :=
  match n with
  | O => []
  | S k => mkMessage a draw_card :: drawsInTurn k b a
  end.

(** That game one run of [matchLoop] later: "alice" has played a wild card
    and the two players have drawn the 93 cards of the deck. *)
Definition emptiedDeck : State :=
  stateAfter
    (matchLoop 2000%Z noShuffle
       (mkMessage "alice" (play_card wildCard)
        :: drawsInTurn 93 "bob" "alice")
       (startedGame, [])).

(** A handler keeps [tableInv], whether it returns or raises. *)
Definition keeps {A} (m : M A) : Prop :=
  forall ids L s, tableInv ids L s -> wp m (fun _ => tableInv ids L) s.

(* ------------------------------------------------------------------ *)
(** ** Arrays: conservation of the entries *)

Section ArrayFacts.
Variable A : Type.
Implicit Types l : list (option A).

Lemma defined_app l1 l2 : defined (l1 ++ l2) = defined l1 ++ defined l2.
Proof.
  induction l1 as [|[x|] l1 IH]; simpl; [reflexivity | | assumption].
  now rewrite IH.
Qed.

Lemma defined_map_Some (l : list A) : defined (map Some l) = l.
Proof. induction l; simpl; congruence. Qed.

Lemma defined_pop l :
  defined (snd (pop l)) ++ defined [fst (pop l)] = defined l.
Proof.
  unfold pop; simpl fst; simpl snd.
  destruct l as [|x l']; [reflexivity|].
  rewrite <- defined_app, <- app_removelast_last by discriminate.
  reflexivity.
Qed.

Lemma Permutation_defined l l' :
  Permutation l l' -> Permutation (defined l) (defined l').
Proof.
  induction 1 as [| [x|] l l' _ IH | [x|] [y|] l | l l' l'' _ IH1 _ IH2];
    simpl.
  - constructor.
  - now constructor.
  - assumption.
  - apply perm_swap.
  - reflexivity.
  - reflexivity.
  - reflexivity.
  - eapply perm_trans; eassumption.
Qed.

Lemma defined_splice1 i l :
  Permutation (defined [fst (splice1 i l)] ++ defined (snd (splice1 i l)))
    (defined l).
Proof.
  unfold splice1; simpl fst; simpl snd.
  revert i; induction l as [|x l IH]; intros [|i]; simpl; try reflexivity.
  - destruct x; reflexivity.
  - specialize (IH i).
    destruct x as [x|]; simpl; [|exact IH].
    eapply perm_trans; [apply Permutation_sym, Permutation_middle|].
    constructor. exact IH.
Qed.

Lemma store_length i x l : length (store i x l) = length l.
Proof.
  revert i; induction l as [|y l IH]; intros [|i]; simpl; auto.
Qed.

Lemma nth_store i j x l :
  i < length l ->
  nth j (store i x l) None = if Nat.eqb i j then x else nth j l None.
Proof.
  revert i j; induction l as [|y l IH]; intros [|i] [|j] H; simpl in *;
    try lia; try reflexivity.
  apply IH; lia.
Qed.

Lemma store_perm i x l :
  i < length l -> Permutation (nth i l None :: store i x l) (x :: l).
Proof.
  revert i; induction l as [|y l IH]; intros [|i] H; simpl in *; try lia.
  - apply perm_swap.
  - eapply perm_trans; [apply perm_swap|].
    eapply perm_trans; [|apply perm_swap].
    constructor. apply IH. lia.
Qed.

Lemma swap_length i j l : length (swap i j l) = length l.
Proof. unfold swap. now rewrite !store_length. Qed.

Lemma swap_perm i j l :
  i < length l -> j < length l -> Permutation (swap i j l) l.
Proof.
  intros Hi Hj. unfold swap.
  set (l1 := store i (nth j l None) l).
  assert (Hl1 : length l1 = length l) by apply store_length.
  assert (H1 : Permutation (nth i l None :: l1) (nth j l None :: l))
    by (apply store_perm; assumption).
  assert (H2 : Permutation (nth j l1 None :: store j (nth i l None) l1)
                 (nth i l None :: l1))
    by (apply store_perm; lia).
  assert (E : nth j l1 None = nth j l None).
  { unfold l1. rewrite nth_store by assumption.
    destruct (Nat.eqb i j); reflexivity. }
  rewrite E in H2.
  eapply Permutation_cons_inv. eapply perm_trans; eassumption.
Qed.

Lemma shuffleFrom_perm rnd i l :
  i < length l -> Permutation (shuffleFrom rnd i l) l.
Proof.
  revert l; induction i as [|i IH]; intros l H; simpl; [reflexivity|].
  assert (Hj : rnd (S i) mod (S i + 1) < length l).
  { pose proof (Nat.mod_upper_bound (rnd (S i)) (S i + 1)). lia. }
  eapply perm_trans.
  - apply IH. rewrite swap_length. lia.
  - apply swap_perm; assumption.
Qed.

Lemma shuffleDeck_perm rnd l : Permutation (shuffleDeck rnd l) l.
Proof.
  unfold shuffleDeck. destruct l as [|x l]; [reflexivity|].
  apply shuffleFrom_perm. simpl. lia.
Qed.
End ArrayFacts.

(* ------------------------------------------------------------------ *)
(** ** Objects used as maps *)

Section ObjectFacts.
Variable V : Type.
Implicit Types o : list (string * V).

Lemma keys_update k f o : keys (update k f o) = keys o.
Proof.
  unfold keys. induction o as [|[k' v] o IH]; simpl; [reflexivity|].
  destruct (String.eqb k' k); simpl; congruence.
Qed.

Lemma lookup_In k o : In k (keys o) -> exists v, lookup k o = Some v.
Proof.
  unfold keys. induction o as [|[k' v] o IH]; simpl; [tauto|].
  intros [E | H].
  - subst. rewrite String.eqb_refl. eauto.
  - destruct (String.eqb k' k); eauto.
Qed.

Lemma lookup_Some_In k o v : lookup k o = Some v -> In k (keys o).
Proof.
  unfold keys. induction o as [|[k' v'] o IH]; simpl; [discriminate|].
  destruct (String.eqb k' k) eqn:E; auto.
  apply String.eqb_eq in E. auto.
Qed.

Lemma lookup_update_same k f o v :
  lookup k o = Some v -> lookup k (update k f o) = Some (f v).
Proof.
  induction o as [|[k' v'] o IH]; simpl; [discriminate|].
  destruct (String.eqb k' k) eqn:E; simpl; rewrite E; [congruence | auto].
Qed.

Lemma lookup_update_other k k' f o :
  k <> k' -> lookup k' (update k f o) = lookup k' o.
Proof.
  intros N. induction o as [|[k0 v0] o IH]; simpl; [reflexivity|].
  destruct (String.eqb k0 k) eqn:E; simpl.
  - apply String.eqb_eq in E. subst.
    apply String.eqb_neq in N. now rewrite N.
  - now rewrite IH.
Qed.
End ObjectFacts.

(** Replacing one hand: the other hands stay. *)
Lemma allHands_update k h ps p :
  lookup k ps = Some p ->
  exists others,
    Permutation (allHands ps) (hand p ++ others)
    /\ Permutation (allHands (update k (set_hand h) ps)) (h ++ others).
Proof.
  induction ps as [|[k' v] ps IH]; simpl; [discriminate|].
  destruct (String.eqb k' k) eqn:E; intros H.
  - injection H as ->. exists (allHands ps). split; reflexivity.
  - destruct (IH H) as (others & H1 & H2).
    exists (hand v ++ others). unfold allHands in *. simpl. split.
    + rewrite H1. rewrite !app_assoc. apply Permutation_app_tail.
      apply Permutation_app_comm.
    + rewrite H2. rewrite !app_assoc. apply Permutation_app_tail.
      apply Permutation_app_comm.
Qed.

Lemma allHands_calledUno k b ps :
  allHands (update k (set_calledUno b) ps) = allHands ps.
Proof.
  unfold allHands. induction ps as [|[k' v] ps IH]; simpl; [reflexivity|].
  destruct (String.eqb k' k); simpl; [reflexivity | now rewrite IH].
Qed.

(* ------------------------------------------------------------------ *)
(** ** Rules of the weakest precondition *)

Section WpRules.
Context {A B : Type}.

Lemma wp_ret (a : A) Q s : Q (Ok a) s -> wp (ret a) Q s.
Proof. intros H out. exact H. Qed.

Lemma wp_throw (Q : Res A -> State -> Prop) s : Q Throw s -> wp throw Q s.
Proof. intros H out. exact H. Qed.

Lemma wp_liftRes (r : Res A) Q s : Q r s -> wp (liftRes r) Q s.
Proof. intros H out. exact H. Qed.

Lemma wp_bind (m : M A) (f : A -> M B) Q s :
  wp m (fun r s' => match r with
                    | Ok a => wp (f a) Q s'
                    | Throw => Q Throw s'
                    end) s ->
  wp (bind m f) Q s.
Proof.
  intros H out. specialize (H out).
  unfold bind, resultOf, stateAfter in *.
  destruct (m (s, out)) as [[a|] [s' out']]; simpl in *.
  - apply H.
  - exact H.
Qed.

Lemma wp_conseq (m : M A) (Q Q' : Res A -> State -> Prop) s :
  wp m Q s -> (forall r s', Q r s' -> Q' r s') -> wp m Q' s.
Proof. intros H HQ out. apply HQ, H. Qed.
End WpRules.

Lemma wp_getState Q s : Q (Ok s) s -> wp getState Q s.
Proof. intros H out. exact H. Qed.

Lemma wp_modify f Q s : Q (Ok tt) (f s) -> wp (modify f) Q s.
Proof. intros H out. exact H. Qed.

Lemma wp_emit o Q s : Q (Ok tt) s -> wp (emit o) Q s.
Proof. intros H out. exact H. Qed.

Lemma wp_tryCatch m (Q : Res unit -> State -> Prop) s :
  wp m (fun _ s' => Q (Ok tt) s') s -> wp (tryCatch m) Q s.
Proof. intros H out. apply H. Qed.

Lemma wp_getPlayer playerId Q s :
  match playerId with
  | Some pid =>
      match lookup pid (players s) with
      | Some p => Q (Ok p) s
      | None => Q Throw s
      end
  | None => Q Throw s
  end ->
  wp (getPlayer playerId) Q s.
Proof.
  intros H. unfold getPlayer. apply wp_bind, wp_getState.
  destruct playerId as [pid|]; [|now apply wp_throw].
  destruct (lookup pid (players s)); [now apply wp_ret | now apply wp_throw].
Qed.

Lemma wp_setHand pid h p Q s :
  lookup pid (players s) = Some p ->
  Q (Ok tt) (set_players (update pid (set_hand h) (players s)) s) ->
  wp (setHand (Some pid) h) Q s.
Proof.
  intros L H. unfold setHand. apply wp_bind, wp_getPlayer. rewrite L.
  now apply wp_modify.
Qed.

Lemma wp_setHand_absent playerId h Q s :
  match playerId with
  | Some pid => lookup pid (players s) = None
  | None => True
  end ->
  Q Throw s -> wp (setHand playerId h) Q s.
Proof.
  intros L H. unfold setHand. apply wp_bind, wp_getPlayer.
  destruct playerId as [pid|]; [rewrite L|]; exact H.
Qed.

(* ------------------------------------------------------------------ *)
(** ** The handlers keep the players, the turn and the cards *)

Lemma tableInv_ext ids L s s' :
  players s' = players s -> currentTurn s' = currentTurn s ->
  deck s' = deck s -> discardPile s' = discardPile s ->
  tableInv ids L s -> tableInv ids L s'.
Proof.
  unfold tableInv, cardsOf. intros -> -> -> ->. tauto.
Qed.

Lemma indexOfFrom_range p l i :
  In p l ->
  (i <= indexOfFrom i (Some p) l < i + Z.of_nat (length l))%Z.
Proof.
  revert i; induction l as [|y l IH]; intros i H; [destruct H|].
  cbn [indexOfFrom length]. destruct (String.eqb y p) eqn:E; [lia|].
  destruct H as [H|H]; [subst; rewrite String.eqb_refl in E; discriminate|].
  specialize (IH (i + 1)%Z H). lia.
Qed.

Lemma idAt_in z l :
  (0 <= z < Z.of_nat (length l))%Z ->
  exists p, idAt (Some z) l = Some p /\ In p l.
Proof.
  intros H. unfold idAt.
  destruct (Z.ltb_spec z 0); [lia|].
  destruct (nth_error l (Z.to_nat z)) as [p|] eqn:E.
  - exists p. split; [reflexivity|]. eapply nth_error_In; eassumption.
  - apply nth_error_None in E. lia.
Qed.

Lemma tableInv_advanceTurn now ids L s :
  tableInv ids L s -> tableInv ids L (advanceTurn now s).
Proof.
  intros (Hk & (p & Hp & Hin) & Hc).
  split; [exact Hk|]. split; [|exact Hc].
  unfold advanceTurn. cbn [currentTurn set_turnStartTime set_currentTurn].
  rewrite Hk, Hp.
  pose proof (@indexOfFrom_range p ids 0%Z Hin) as R. fold (indexOf (Some p) ids) in R.
  unfold jsRem.
  match goal with
  | |- context [Z.eqb ?n 0] =>
      assert (R' : (0 <= indexOf (Some p) ids < n)%Z) by exact R;
      destruct (Z.eqb_spec n 0) as [E|_]; [lia|]
  end.
  destruct (Z.eqb (direction s) 1); apply idAt_in.
  - apply Z.rem_bound_pos; lia.
  - apply Z.rem_bound_pos; lia.
Qed.

Section KeepsRules.
Context {A B : Type}.

Lemma keeps_ret (a : A) : keeps (ret a).
Proof. intros ids L s H. now apply wp_ret. Qed.

Lemma keeps_throw : keeps (@throw A).
Proof. intros ids L s H. now apply wp_throw. Qed.

Lemma keeps_liftRes (r : Res A) : keeps (liftRes r).
Proof. intros ids L s H. now apply wp_liftRes. Qed.

Lemma keeps_bind (m : M A) (f : A -> M B) :
  keeps m -> (forall a, keeps (f a)) -> keeps (bind m f).
Proof.
  intros Hm Hf ids L s H. apply wp_bind.
  eapply wp_conseq; [apply Hm, H|].
  intros [a|] s' H'; [apply Hf, H' | exact H'].
Qed.
End KeepsRules.

Lemma keeps_getState : keeps getState.
Proof. intros ids L s H. now apply wp_getState. Qed.

Lemma keeps_emit o : keeps (emit o).
Proof. intros ids L s H. now apply wp_emit. Qed.

Lemma keeps_modify f :
  (forall ids L s, tableInv ids L s -> tableInv ids L (f s)) ->
  keeps (modify f).
Proof. intros Hf ids L s H. apply wp_modify. now apply Hf. Qed.

Lemma keeps_tryCatch m : keeps m -> keeps (tryCatch m).
Proof. intros Hm ids L s H. apply wp_tryCatch. now apply Hm. Qed.

Lemma keeps_getPlayer playerId : keeps (getPlayer playerId).
Proof.
  intros ids L s H. apply wp_getPlayer.
  destruct playerId as [pid|]; [destruct (lookup pid (players s))|]; exact H.
Qed.

Lemma keeps_emitAll l : keeps (emitAll l).
Proof.
  induction l as [|o l IH]; simpl; [apply keeps_ret|].
  apply keeps_bind; [apply keeps_emit | intros _; exact IH].
Qed.

Lemma keeps_advanceTurn now : keeps (modify (advanceTurn now)).
Proof. apply keeps_modify. intros. now apply tableInv_advanceTurn. Qed.

Create HintDb keeps discriminated.
#[local] Hint Resolve keeps_ret keeps_throw keeps_liftRes keeps_getState
  keeps_emit keeps_getPlayer keeps_emitAll keeps_advanceTurn : keeps.

(** Steps through a handler made of pieces that keep the invariant. *)
Ltac keeps_steps :=
  repeat first
    [ apply keeps_bind; [|intros ?]
    | solve [auto with keeps]
    | match goal with
      | |- keeps (if ?b then _ else _) => destruct b
      | |- keeps (match ?x with _ => _ end) => destruct x
      end ].

Lemma keeps_sendHands l : keeps (sendHands l).
Proof.
  induction l as [|pid l IH]; simpl; keeps_steps.
Qed.

Lemma keeps_broadcastGameState : keeps broadcastGameState.
Proof.
  unfold broadcastGameState. keeps_steps. apply keeps_sendHands.
Qed.

Lemma keeps_endGame winnerId : keeps (endGame winnerId).
Proof.
  unfold endGame.
  apply keeps_bind;
    [apply keeps_modify; intros ids L s; now apply tableInv_ext | intros _].
  apply keeps_bind; [apply keeps_getState | intros s].
  apply keeps_bind; [apply keeps_liftRes | intros st].
  apply keeps_bind; [apply keeps_emitAll | intros _].
  apply keeps_bind;
    [apply keeps_modify; intros ids L s'; now apply tableInv_ext | intros _].
  apply keeps_bind; [apply keeps_getPlayer | intros w]. apply keeps_emit.
Qed.

(* ------------------------------------------------------------------ *)
(** ** Cards that move between the deck, the discard pile and a hand *)

#[local] Instance defined_Proper (A : Type) :
  Proper (@Permutation (option A) ==> @Permutation A) (@defined A).
Proof. intros l l' H. now apply Permutation_defined. Qed.

Lemma cards_setHand pid h p ps :
  lookup pid ps = Some p ->
  exists others,
    Permutation (defined (allHands ps)) (defined (hand p) ++ others)
    /\ Permutation (defined (allHands (update pid (set_hand h) ps)))
         (defined h ++ others).
Proof.
  intros H. destruct (allHands_update pid h ps H) as (others & H1 & H2).
  exists (defined others). rewrite H1, H2, !defined_app. split; reflexivity.
Qed.

Lemma tableInv_move ids L s s' :
  tableInv ids L s ->
  keys (players s') = keys (players s) ->
  currentTurn s' = currentTurn s ->
  Permutation (defined (cardsOf s')) (defined (cardsOf s)) ->
  tableInv ids L s'.
Proof.
  intros (Hk & Ht & Hc) Ek Et Ec. unfold tableInv.
  rewrite Ek, Et, Ec. auto.
Qed.

(** Unfolds the cards of a state built with the setters. *)
Ltac cards_simpl :=
  unfold cardsOf;
  cbn [players deck discardPile currentTurn topCard set_players set_deck
       set_discardPile set_topCard set_currentTurn set_turnStartTime
       set_direction set_gamePhase set_finalScores set_gameStarted];
  unfold push; rewrite ?defined_app.

Lemma keeps_drawInto playerId : keeps (drawInto playerId).
Proof.
  intros ids L s H. unfold drawInto. apply wp_bind, wp_getPlayer.
  destruct playerId as [pid|]; [|exact H].
  destruct (lookup pid (players s)) as [p|] eqn:E; [|exact H].
  apply wp_bind, wp_getState. unfold pop.
  apply wp_bind, wp_modify. eapply wp_setHand; [exact E|].
  eapply tableInv_move; [exact H | apply keys_update | reflexivity |].
  destruct (cards_setHand pid (push (hand p) (last (deck s) None)) (players s) E)
    as (others & H1 & H2).
  cards_simpl. rewrite H2, H1. unfold push. rewrite defined_app.
  rewrite <- (defined_pop (deck s)). unfold pop. cbn [fst snd].
  aac_reflexivity.
Qed.

Lemma keeps_wp {A} (m : M A) ids L s :
  keeps m -> tableInv ids L s -> wp m (fun _ => tableInv ids L) s.
Proof. intros K H. now apply K. Qed.

Lemma keeps_drawUpTo n playerId : keeps (drawUpTo n playerId).
Proof.
  induction n as [|n IH]; simpl; [apply keeps_ret|].
  apply keeps_bind; [apply keeps_getState | intros s].
  apply keeps_bind; [|intros _; exact IH].
  destruct (Nat.ltb 0 (length (deck s)));
    [apply keeps_drawInto | apply keeps_ret].
Qed.

Lemma keeps_applyCardEffects now card : keeps (applyCardEffects now card).
Proof.
  unfold applyCardEffects. destruct card as [c|]; [|apply keeps_throw].
  destruct (type c).
  - apply keeps_ret.
  - apply keeps_advanceTurn.
  - apply keeps_modify. intros ids L s. now apply tableInv_ext.
  - apply keeps_bind; [apply keeps_advanceTurn | intros _].
    apply keeps_bind; [apply keeps_getState | intros s].
    apply keeps_drawUpTo.
  - apply keeps_ret.
  - apply keeps_bind; [apply keeps_advanceTurn | intros _].
    apply keeps_bind; [apply keeps_getState | intros s].
    apply keeps_drawUpTo.
Qed.

Lemma playAt_inv now pid p i event ids L s :
  tableInv ids L s ->
  lookup pid (players s) = Some p ->
  wp (playAt now pid (hand p) i event) (fun _ => tableInv ids L) s.
Proof.
  intros H E. unfold playAt, splice1.
  apply wp_bind. eapply wp_setHand; [exact E|].
  apply wp_bind, wp_modify.
  match goal with |- context [wp _ _ ?s2] => set (s' := s2) end.
  assert (H' : tableInv ids L s').
  { eapply tableInv_move; [exact H | apply keys_update | reflexivity |].
    destruct (cards_setHand pid (firstn i (hand p) ++ skipn (S i) (hand p))
                (players s) E) as (others & H1 & H2).
    subst s'. cards_simpl. rewrite H2, H1.
    pose proof (defined_splice1 i (hand p)) as HS.
    unfold splice1 in HS. cbn [fst snd] in HS.
    rewrite <- HS. aac_reflexivity. }
  clearbody s'.
  destruct (Nat.eqb _ 0); [now apply keeps_endGame|].
  apply keeps_wp; [|exact H'].
  apply keeps_bind; [apply keeps_applyCardEffects | intros _].
  apply keeps_bind; [apply keeps_advanceTurn | intros _].
  apply keeps_bind; [apply keeps_broadcastGameState | intros _].
  apply keeps_bind; [apply keeps_getPlayer | intros p']. apply keeps_emit.
Qed.

Lemma keeps_handlePlayCard now playerId card :
  keeps (handlePlayCard now playerId card).
Proof.
  intros ids L s H. unfold handlePlayCard. apply wp_bind, wp_getState.
  destruct (negb (isTurn s playerId)); [now apply wp_ret|].
  apply wp_bind, wp_getPlayer.
  destruct (lookup playerId (players s)) as [p|] eqn:E; [|exact H].
  apply wp_bind, wp_liftRes.
  destruct (findCardFrom 0 (hand p) card) as [[i|]|];
    [|now apply wp_emit | exact H].
  apply wp_bind, wp_liftRes.
  destruct (isValidPlay (Some card) (topCard s)) as [[|]|]; cbn [negb].
  - now apply playAt_inv.
  - now apply wp_emit.
  - exact H.
Qed.

Lemma tableInv_reshuffleDeck rnd ids L s :
  deck s = [] -> tableInv ids L s -> tableInv ids L (reshuffleDeck rnd s).
Proof.
  intros D H. eapply tableInv_move; [exact H | reflexivity | reflexivity |].
  unfold reshuffleDeck, pop. cards_simpl. rewrite D.
  rewrite shuffleDeck_perm.
  rewrite <- (defined_pop (discardPile s)). unfold pop. cbn [fst snd].
  simpl app. aac_reflexivity.
Qed.

Lemma takeCard_inv playerId ids L s :
  tableInv ids L s -> In playerId ids ->
  wp (takeCard playerId) (fun _ => tableInv ids L) s.
Proof.
  intros H Hin. unfold takeCard, pop. apply wp_bind, wp_getState.
  apply wp_bind, wp_modify. apply wp_bind, wp_getPlayer.
  cbn [players set_deck].
  destruct H as (Hk & Ht & Hc).
  destruct (@lookup_In Player playerId (players s)) as [p E];
    [now rewrite Hk|].
  rewrite E. eapply wp_setHand; [exact E|].
  eapply tableInv_move;
    [exact (conj Hk (conj Ht Hc)) | apply keys_update | reflexivity |].
  destruct (cards_setHand playerId (push (hand p) (last (deck s) None))
              (players s) E) as (others & H1 & H2).
  cards_simpl. rewrite H2, H1. unfold push. rewrite defined_app.
  rewrite <- (defined_pop (deck s)). unfold pop. cbn [fst snd].
  aac_reflexivity.
Qed.

Lemma drawOne_inv rnd playerId ids L s :
  tableInv ids L s -> In playerId ids ->
  wp (drawOne rnd playerId) (fun _ => tableInv ids L) s.
Proof.
  intros H Hin. unfold drawOne. apply wp_bind, wp_getState.
  destruct (Nat.eqb (length (deck s)) 0) eqn:E.
  - apply wp_bind, wp_modify. apply takeCard_inv; [|exact Hin].
    apply tableInv_reshuffleDeck; [|exact H].
    apply Nat.eqb_eq in E. now destruct (deck s).
  - apply wp_bind, wp_ret. now apply takeCard_inv.
Qed.

Lemma keeps_afterDraw now playerId event :
  keeps (afterDraw now playerId event).
Proof.
  unfold afterDraw.
  apply keeps_bind; [apply keeps_advanceTurn | intros _].
  apply keeps_bind; [apply keeps_broadcastGameState | intros _].
  apply keeps_bind; [apply keeps_getPlayer | intros p]. apply keeps_emit.
Qed.

Lemma isTurn_In ids L s playerId :
  tableInv ids L s -> isTurn s playerId = true -> In playerId ids.
Proof.
  intros (_ & (p & Hp & Hin) & _). unfold isTurn. rewrite Hp.
  intros E. apply String.eqb_eq in E. now subst.
Qed.

Lemma keeps_handleDrawCard now rnd playerId :
  keeps (handleDrawCard now rnd playerId).
Proof.
  intros ids L s H. unfold handleDrawCard. apply wp_bind, wp_getState.
  destruct (isTurn s playerId) eqn:T; cbn [negb]; [|now apply wp_ret].
  apply wp_bind. eapply wp_conseq.
  - apply drawOne_inv; [exact H | eapply isTurn_In; eassumption].
  - intros [[]|] s' H'; [|exact H']. now apply keeps_afterDraw.
Qed.

Lemma keeps_handleCallUno playerId : keeps (handleCallUno playerId).
Proof.
  intros ids L s H. unfold handleCallUno. apply wp_bind, wp_getPlayer.
  destruct (lookup playerId (players s)) as [p|]; [|exact H].
  apply wp_bind, wp_modify. apply wp_emit.
  eapply tableInv_move; [exact H | apply keys_update | reflexivity |].
  cards_simpl. now rewrite allHands_calledUno.
Qed.

Lemma keeps_handlePassTurn now playerId : keeps (handlePassTurn now playerId).
Proof.
  unfold handlePassTurn.
  apply keeps_bind; [apply keeps_getState | intros s].
  destruct (negb (isTurn s playerId)); [apply keeps_ret|].
  apply keeps_bind; [apply keeps_advanceTurn | intros _].
  apply keeps_broadcastGameState.
Qed.

Lemma keeps_handleAutoPlay now rnd : keeps (handleAutoPlay now rnd).
Proof.
  intros ids L s H. unfold handleAutoPlay. apply wp_bind, wp_getState.
  apply wp_bind, wp_getPlayer.
  destruct (currentTurn s) as [cur|] eqn:T; [|exact H].
  destruct (lookup cur (players s)) as [p|] eqn:E; [|exact H].
  apply wp_bind, wp_liftRes.
  destruct (playableFrom 0 (hand p) (topCard s)) as [[|index l]|];
    [| now apply playAt_inv | exact H].
  apply wp_bind. eapply wp_conseq.
  - apply drawOne_inv; [exact H|]. apply lookup_Some_In in E.
    destruct H as (Hk & _). now rewrite <- Hk.
  - intros [[]|] s' H'; [|exact H']. now apply keeps_afterDraw.
Qed.

Lemma keeps_processMessage now rnd m : keeps (processMessage now rnd m).
Proof.
  unfold processMessage. apply keeps_tryCatch. destruct (data m).
  - apply keeps_throw.
  - apply keeps_handlePlayCard.
  - apply keeps_handleDrawCard.
  - apply keeps_handleCallUno.
  - apply keeps_handlePassTurn.
  - apply keeps_ret.
Qed.

Lemma keeps_processMessages now rnd l : keeps (processMessages now rnd l).
Proof.
  induction l as [|m l IH]; simpl; [apply keeps_ret|].
  apply keeps_bind; [apply keeps_processMessage | intros _; exact IH].
Qed.

Lemma keeps_timerCheck now rnd : keeps (timerCheck now rnd).
Proof.
  unfold timerCheck. apply keeps_bind; [apply keeps_getState | intros s].
  destruct (gamePhase s), (currentTurn s), (turnStartTime s);
    try apply keeps_ret.
  destruct (truthyId _ && truthyNum _); [|apply keeps_ret].
  apply keeps_bind; [apply keeps_emit | intros _].
  destruct (Z.leb _ _); [apply keeps_handleAutoPlay | apply keeps_ret].
Qed.

Lemma keeps_matchLoop now rnd messages : keeps (matchLoop now rnd messages).
Proof.
  unfold matchLoop.
  apply keeps_bind; [apply keeps_processMessages | intros _].
  apply keeps_timerCheck.
Qed.

Lemma reachable_tableInv ids L s0 s :
  tableInv ids L s0 -> reachable s0 s -> tableInv ids L s.
Proof.
  intros H0 R. induction R as [|s now rnd messages out _ IH]; [exact H0|].
  exact (keeps_matchLoop now rnd messages IH out).
Qed.

(* ------------------------------------------------------------------ *)
(** ** Starting the game *)

Lemma clean_removelast (l : list slot) : cleanHand l -> cleanHand (removelast l).
Proof.
  unfold cleanHand. rewrite !Forall_forall. intros H x Hx.
  destruct l as [|y l]; [destruct Hx|].
  apply H. rewrite (app_removelast_last None (l := y :: l)) by discriminate.
  apply in_or_app. now left.
Qed.

Lemma popN_defined n d :
  Permutation (defined (fst (popN n d)) ++ defined (snd (popN n d)))
    (defined d).
Proof.
  revert d; induction n as [|n IH]; intros d; simpl; [reflexivity|].
  unfold pop. specialize (IH (removelast d)).
  destruct (popN n (removelast d)) as [cards d''] eqn:E. cbn [fst snd] in *.
  rewrite <- (defined_pop d). unfold pop. cbn [fst snd].
  rewrite <- IH.
  change (defined (last d None :: cards))
    with (defined ([last d None] ++ cards)).
  rewrite defined_app. aac_reflexivity.
Qed.

Lemma popN_length n d : length (snd (popN n d)) = length d - n.
Proof.
  revert d; induction n as [|n IH]; intros d; simpl; [lia|].
  unfold pop. specialize (IH (removelast d)).
  destruct (popN n (removelast d)) as [cards d''] eqn:E. cbn [fst snd] in *.
  rewrite IH. destruct d as [|x d]; [reflexivity|].
  rewrite (app_removelast_last None (l := x :: d)) at 2 by discriminate.
  rewrite length_app. simpl length. lia.
Qed.

Lemma popN_clean n d : cleanHand d -> cleanHand (snd (popN n d)).
Proof.
  revert d; induction n as [|n IH]; intros d H; simpl; [exact H|].
  unfold pop. specialize (IH (removelast d) (clean_removelast H)).
  destruct (popN n (removelast d)) as [cards d''] eqn:E. exact IH.
Qed.

Lemma clean_defined_length (l : list slot) :
  cleanHand l -> length (defined l) = length l.
Proof.
  induction 1 as [|[c|] l H _ IH]; simpl; congruence.
Qed.

Lemma clean_Permutation (l l' : list slot) :
  Permutation l l' -> cleanHand l -> cleanHand l'.
Proof. intros P H. unfold cleanHand. now rewrite <- P. Qed.

Lemma clean_map_Some (l : list Card) : cleanHand (map Some l).
Proof. induction l; constructor; [discriminate | assumption]. Qed.

(** A list with more cards than it has wild cards holds another card. *)
Lemma more_than_wild (l : list Card) :
  length (filter (fun c => isWildType (type c)) l) < length l ->
  exists c, In c l /\ isWildType (type c) = false.
Proof.
  induction l as [|c l IH]; simpl; [lia|].
  destruct (isWildType (type c)) eqn:E; simpl; intros H.
  - destruct IH as (c' & Hin & Hc'); [lia|]. eauto.
  - eauto.
Qed.

Lemma wild_count_app (l1 l2 : list Card) :
  length (filter (fun c => isWildType (type c)) l2)
  <= length (filter (fun c => isWildType (type c)) (l1 ++ l2)).
Proof. rewrite filter_app, length_app. lia. Qed.

Lemma In_defined (c : Card) (l : list slot) : In c (defined l) -> In (Some c) l.
Proof.
  induction l as [|[x|] l IH]; simpl; [tauto | | tauto].
  intros [->|H]; auto.
Qed.

(** The initial flip ends on a card that is not wild whenever the deck
    holds one and no [undefined]; the wild cards popped on the way are in
    no pile afterwards. *)
Lemma flipLoop_ok fuel : forall s,
  cleanHand (deck s) ->
  (exists c, In (Some c) (deck s) /\ isWildType (type c) = false) ->
  length (deck s) < fuel ->
  wp (flipLoop fuel)
    (fun r s' =>
       r = Ok tt
       /\ players s' = players s
       /\ exists c ws,
           topCard s' = Some c
           /\ isWildType (type c) = false
           /\ Forall isWildCard ws
           /\ Permutation (defined (deck s)) (c :: ws ++ defined (deck s')))
    s.
Proof.
  induction fuel as [|k IH]; intros s Hclean (c & Hin & Hc) Hlen; [lia|].
  cbn [flipLoop]. apply wp_bind, wp_getState. unfold pop.
  apply wp_bind, wp_modify.
  destruct (deck s) as [|x d] eqn:D; [destruct Hin|].
  assert (Hsplit : x :: d = removelast (x :: d) ++ [last (x :: d) None])
    by (apply app_removelast_last; discriminate).
  set (d' := removelast (x :: d)) in *.
  destruct (last (x :: d) None) as [c0|] eqn:Elast.
  2:{ exfalso. unfold cleanHand in Hclean. rewrite Forall_forall in Hclean.
      apply (Hclean None); [|reflexivity].
      rewrite Hsplit. apply in_or_app. right. now left. }
  assert (Hdef : defined (x :: d) = defined d' ++ [c0])
    by (rewrite Hsplit at 1; now rewrite defined_app).
  destruct (isWildType (type c0)) eqn:W.
  - eapply wp_conseq.
    + apply IH; cbn [deck set_topCard set_deck].
      * subst d'. now apply clean_removelast.
      * exists c. split; [|exact Hc].
        rewrite Hsplit in Hin. apply in_app_or in Hin.
        destruct Hin as [Hin|[Hin|[]]]; [exact Hin|].
        injection Hin as ->. congruence.
      * apply (f_equal (@length _)) in Hsplit.
        rewrite length_app in Hsplit. simpl in Hsplit, Hlen. lia.
    + cbn [deck players set_topCard set_deck].
      intros r s' (Hr & Hp & c1 & ws & Ht & Hw & Hws & Hperm).
      split; [exact Hr|]. split; [exact Hp|].
      exists c1, (c0 :: ws). repeat split; try assumption.
      * constructor; assumption.
      * rewrite Hdef, Hperm.
        change (c1 :: (c0 :: ws) ++ defined (deck s'))
          with ([c1] ++ ([c0] ++ ws) ++ defined (deck s')).
        change (c1 :: ws ++ defined (deck s'))
          with ([c1] ++ ws ++ defined (deck s')).
        aac_reflexivity.
  - apply wp_ret. cbn [deck players topCard set_topCard set_deck].
    split; [reflexivity|]. split; [reflexivity|].
    exists c0, []. repeat split; try assumption; [constructor|].
    rewrite Hdef. simpl app. apply Permutation_sym, Permutation_cons_append.
Qed.

Lemma flippedWilds_snoc (d : list slot) c :
  flippedWilds (d ++ [Some c])
  = if isWildType (type c) then c :: flippedWilds d else [].
Proof. unfold flippedWilds. now rewrite rev_app_distr. Qed.

Lemma wildsOnTop_wild l : Forall isWildCard (wildsOnTop l).
Proof.
  induction l as [|[c|] l IH]; cbn [wildsOnTop]; try constructor.
  destruct (isWildType (type c)) eqn:W; constructor; assumption.
Qed.

(** Where the flipped cards were: the deck the flip found is the deck it
    leaves, then the card it ends on, then the wild cards it popped, the
    first popped last. *)
Lemma flipLoop_flipped fuel : forall s,
  cleanHand (deck s) ->
  (exists c, In (Some c) (deck s) /\ isWildType (type c) = false) ->
  length (deck s) < fuel ->
  wp (flipLoop fuel)
    (fun r s' =>
       r = Ok tt
       /\ players s' = players s
       /\ exists c,
           topCard s' = Some c
           /\ isWildType (type c) = false
           /\ deck s
              = deck s' ++ Some c :: map Some (rev (flippedWilds (deck s))))
    s.
Proof.
  induction fuel as [|k IH]; intros s Hclean (c & Hin & Hc) Hlen; [lia|].
  cbn [flipLoop]. apply wp_bind, wp_getState. unfold pop.
  apply wp_bind, wp_modify.
  destruct (deck s) as [|x d] eqn:D; [destruct Hin|].
  assert (Hsplit : x :: d = removelast (x :: d) ++ [last (x :: d) None])
    by (apply app_removelast_last; discriminate).
  set (d' := removelast (x :: d)) in *.
  destruct (last (x :: d) None) as [c0|] eqn:Elast.
  2:{ exfalso. unfold cleanHand in Hclean. rewrite Forall_forall in Hclean.
      apply (Hclean None); [|reflexivity].
      rewrite Hsplit. apply in_or_app. right. now left. }
  clearbody d'. rewrite Hsplit in *. clear Hsplit.
  rewrite flippedWilds_snoc.
  destruct (isWildType (type c0)) eqn:W.
  - eapply wp_conseq.
    + apply IH; cbn [deck set_topCard set_deck].
      * unfold cleanHand in *. now apply Forall_app in Hclean.
      * exists c. split; [|exact Hc].
        apply in_app_or in Hin.
        destruct Hin as [Hin|[Hin|[]]]; [exact Hin|].
        injection Hin as ->. congruence.
      * rewrite length_app in Hlen. simpl in Hlen. lia.
    + cbn [deck players set_topCard set_deck].
      intros r s' (Hr & Hp & c1 & Ht & Hw & Hpos).
      split; [exact Hr|]. split; [exact Hp|].
      exists c1. split; [exact Ht|]. split; [exact Hw|].
      cbn [rev]. rewrite map_app. cbn [map].
      transitivity
        ((deck s' ++ Some c1 :: map Some (rev (flippedWilds d')))
         ++ [Some c0]); [now rewrite <- Hpos|].
      now rewrite <- app_assoc.
  - apply wp_ret. cbn [deck players topCard set_topCard set_deck].
    split; [reflexivity|]. split; [reflexivity|].
    exists c0. repeat split. exact W.
Qed.

Lemma wild_count_perm (l l' : list Card) :
  Permutation l l' ->
  length (filter (fun c => isWildType (type c)) l)
  = length (filter (fun c => isWildType (type c)) l').
Proof.
  induction 1 as [| x l l' _ IH | x y l | l l' l'' _ IH1 _ IH2]; simpl.
  - reflexivity.
  - destruct (isWildType (type x)); simpl; congruence.
  - destruct (isWildType (type x)), (isWildType (type y)); reflexivity.
  - congruence.
Qed.

Lemma popN_clean_fst n d :
  n <= length d -> cleanHand d -> cleanHand (fst (popN n d)).
Proof.
  revert d; induction n as [|n IH]; intros d Hn H; simpl; [constructor|].
  unfold pop. destruct d as [|x d]; [simpl in Hn; lia|].
  assert (Hsplit : x :: d = removelast (x :: d) ++ [last (x :: d) None])
    by (apply app_removelast_last; discriminate).
  assert (Hlen : n <= length (removelast (x :: d))).
  { apply (f_equal (@length _)) in Hsplit. rewrite length_app in Hsplit.
    change (length [last (x :: d) None]) with 1 in Hsplit. lia. }
  specialize (IH (removelast (x :: d)) Hlen (clean_removelast H)).
  destruct (popN n (removelast (x :: d))) as [cards d''] eqn:E.
  cbn [fst] in *. constructor; [|exact IH].
  unfold cleanHand in H. rewrite Forall_forall in H. apply H.
  rewrite Hsplit at 2. apply in_or_app. right. now left.
Qed.

(** With a top card on the table and no [undefined] in the hand, the scan
    for playable cards returns. *)
Lemma playableFrom_clean i cards t :
  cleanHand cards -> exists l, playableFrom i cards (Some t) = Ok l.
Proof.
  intros H. revert i. induction H as [|[c|] cards Hc _ IH]; intros i; simpl.
  - eauto.
  - destruct (IH (S i)) as [l ->].
    destruct (isWildType (type c)); eauto.
  - now destruct Hc.
Qed.

Lemma sendHands_ok l s :
  (forall pid, In pid l ->
     exists p, lookup pid (players s) = Some p /\ cleanHand (hand p)) ->
  wp (sendHands l) (fun r s' => r = Ok tt /\ s' = s) s.
Proof.
  induction l as [|pid l IH]; intros H; cbn [sendHands];
    [now apply wp_ret|].
  destruct (H pid (or_introl eq_refl)) as (p & E & Hc).
  apply wp_bind, wp_getPlayer. rewrite E.
  apply wp_bind, wp_getState. apply wp_bind, wp_liftRes.
  unfold getPlayableCards. rewrite E.
  assert (Hpl : exists l', match topCard s with
                           | Some _ => playableFrom 0 (hand p) (topCard s)
                           | None => Ok []
                           end = Ok l').
  { destruct (topCard s) as [t|]; [now apply playableFrom_clean | eauto]. }
  destruct Hpl as [l' ->]. apply wp_bind, wp_emit.
  apply IH. intros pid' Hin. apply H. now right.
Qed.

Lemma broadcastGameState_ok s :
  (forall pid p, lookup pid (players s) = Some p -> cleanHand (hand p)) ->
  wp broadcastGameState (fun r s' => r = Ok tt /\ s' = s) s.
Proof.
  intros H. unfold broadcastGameState. apply wp_bind, wp_getState.
  apply wp_bind, wp_emit. apply sendHands_ok. intros pid Hin.
  destruct (lookup_In pid (players s) Hin) as [p E]. eauto.
Qed.

Lemma startGame_table now rnd a b pa pb s0 :
  a <> b ->
  players s0 = [(a, pa); (b, pb)] ->
  wp (startGame now rnd)
    (fun r s1 =>
       r = Ok tt
       /\ (exists c, topCard s1 = Some c /\ isWildType (type c) = false)
       /\ dealtDeck rnd
          = deck s1
            ++ topCard s1 :: map Some (rev (flippedWilds (dealtDeck rnd)))
       /\ exists L,
           tableInv [a; b] L s1
           /\ Permutation (L ++ flippedWilds (dealtDeck rnd)) createDeck)
    s0.
Proof.
  intros Hab Hp. apply String.eqb_neq in Hab. unfold startGame.
  set (d0 := shuffleDeck rnd (map Some createDeck)).
  assert (Hd0 : Permutation d0 (map Some createDeck))
    by apply shuffleDeck_perm.
  assert (Hdd : dealtDeck rnd = snd (popN 7 (snd (popN 7 d0))))
    by reflexivity.
  clearbody d0.
  apply wp_bind, wp_modify. apply wp_bind, wp_getState.
  cbn [players set_deck]. rewrite Hp. cbn [keys map fst resetHands dealHands].
  apply wp_bind. apply wp_bind.
  eapply wp_setHand;
    [cbn [players set_deck lookup]; rewrite Hp; cbn [lookup];
     now rewrite String.eqb_refl|].
  cbn [players set_deck]. rewrite Hp. cbn [update]. rewrite String.eqb_refl.
  apply wp_bind.
  eapply wp_setHand;
    [cbn [players set_players lookup]; now rewrite Hab, String.eqb_refl|].
  cbn [players set_players update]. rewrite Hab, String.eqb_refl.
  apply wp_ret.
  assert (Hclean0 : cleanHand d0)
    by (eapply clean_Permutation;
        [apply Permutation_sym, Hd0 | apply clean_map_Some]).
  apply wp_bind. apply wp_bind, wp_getState. cbn [deck set_players set_deck].
  destruct (popN 7 d0) as [h1 d1] eqn:E1.
  apply wp_bind, wp_modify. apply wp_bind.
  eapply wp_setHand;
    [cbn [players set_players set_deck lookup]; now rewrite String.eqb_refl|].
  cbn [players set_players set_deck update]. rewrite String.eqb_refl.
  apply wp_bind, wp_getState. cbn [deck set_players set_deck].
  destruct (popN 7 d1) as [h2 d2] eqn:E2.
  apply wp_bind, wp_modify. apply wp_bind.
  eapply wp_setHand;
    [cbn [players set_players set_deck lookup];
     now rewrite Hab, String.eqb_refl|].
  cbn [players set_players set_deck update]. rewrite Hab, String.eqb_refl.
  apply wp_ret. apply wp_bind, wp_getState.
  cbn [deck set_players set_deck].
  pose proof (popN_defined 7 d0) as P1. rewrite E1 in P1. cbn [fst snd] in P1.
  pose proof (popN_defined 7 d1) as P2. rewrite E2 in P2. cbn [fst snd] in P2.
  pose proof (popN_length 7 d0) as L1. rewrite E1 in L1. cbn [snd] in L1.
  pose proof (popN_length 7 d1) as L2. rewrite E2 in L2. cbn [snd] in L2.
  assert (L0 : length d0 = 108)
    by (rewrite (Permutation_length Hd0), length_map; reflexivity).
  assert (D0 : Permutation (defined d0) createDeck)
    by (rewrite Hd0; now rewrite defined_map_Some).
  assert (Hclean1 : cleanHand d1)
    by (pose proof (popN_clean 7 Hclean0) as C; now rewrite E1 in C).
  assert (Hclean2 : cleanHand d2)
    by (pose proof (popN_clean 7 Hclean1) as C; now rewrite E2 in C).
  assert (Hh1 : cleanHand h1).
  { pose proof (@popN_clean_fst 7 d0) as C. rewrite E1 in C. apply C; [lia|].
    exact Hclean0. }
  assert (Hh2 : cleanHand h2).
  { pose proof (@popN_clean_fst 7 d1) as C. rewrite E2 in C. apply C; [lia|].
    exact Hclean1. }
  assert (Hnw : exists c, In (Some c) d2 /\ isWildType (type c) = false).
  { destruct (@more_than_wild (defined d2)) as (c & Hin & Hc).
    - rewrite (clean_defined_length Hclean2).
      assert (W : length (filter (fun c => isWildType (type c)) (defined d2))
                  <= 8).
      { change 8 with
          (length (filter (fun c => isWildType (type c)) createDeck)).
        rewrite <- (wild_count_perm D0), <- (wild_count_perm P1).
        rewrite <- (wild_count_perm
                      (Permutation_app_head (defined h1) P2)).
        rewrite app_assoc. apply wild_count_app. }
      lia.
    - exists c. split; [now apply In_defined | exact Hc]. }
  cbn [snd] in Hdd. rewrite E2 in Hdd. cbn [snd] in Hdd.
  apply wp_bind. eapply wp_conseq.
  { apply flipLoop_flipped; cbn [deck set_players set_deck];
      [exact Hclean2 | exact Hnw | lia]. }
  cbn [deck players set_players set_deck]. rewrite <- Hdd.
  intros r s' (-> & Hpl & c & Ht & Hw & Hpos).
  set (ws := flippedWilds (dealtDeck rnd)) in *.
  assert (Hperm : Permutation (defined (dealtDeck rnd))
                    (c :: ws ++ defined (deck s'))).
  { rewrite Hpos at 1. rewrite defined_app. cbn [defined].
    rewrite defined_map_Some, <- Permutation_rev.
    change (defined (deck s') ++ c :: ws)
      with (defined (deck s') ++ [c] ++ ws).
    change (c :: ws ++ defined (deck s'))
      with ([c] ++ ws ++ defined (deck s')).
    aac_reflexivity. }
  rewrite Hdd in Hperm.
  apply wp_bind, wp_modify. apply wp_bind. eapply wp_conseq.
  { apply broadcastGameState_ok.
    cbn [players set_turnStartTime set_gamePhase set_gameStarted
         set_direction set_currentTurn set_discardPile].
    rewrite Hpl. intros pid p. cbn [lookup].
    destruct (String.eqb a pid); [intros [= <-]; exact Hh1|].
    destruct (String.eqb b pid); [intros [= <-]; exact Hh2 | discriminate]. }
  intros r s1 (-> & ->). apply wp_emit. split; [reflexivity|].
  cbn [deck topCard set_turnStartTime set_gamePhase set_gameStarted
       set_direction set_currentTurn set_discardPile].
  split; [exists c; split; [exact Ht | exact Hw]|].
  split; [rewrite Ht; exact Hpos|].
  exists (defined (deck s') ++ [c] ++ defined h1 ++ defined h2).
  split.
  - split; [|split].
    + cbn [players set_turnStartTime set_gamePhase set_gameStarted
           set_direction set_currentTurn set_discardPile].
      now rewrite Hpl.
    + exists a. split; [reflexivity | now left].
    + cards_simpl. cbn [set_turnStartTime set_gamePhase]. rewrite Hpl, Ht.
      unfold allHands. cbn [flat_map snd hand set_hand defined].
      rewrite !defined_app, app_nil_r. reflexivity.
  - rewrite <- D0, <- P1, <- P2, Hperm.
    change (c :: ws ++ defined (deck s'))
      with ([c] ++ ws ++ defined (deck s')).
    aac_reflexivity.
Qed.

(* ------------------------------------------------------------------ *)
(** ** C1: the cards of a match *)

(** The deck of [createDeck] has the 108 cards of the game: per colour one
    0, two of each 1..9 and two of each action card, then four wild and
    four wild draw four cards. *)
Lemma createDeck_composition :
  length createDeck = 108
  /\ Forall (fun c =>
       length (filter (sameCard (mkCard c Number (Some 0%Z))) createDeck) = 1
       /\ Forall (fun n =>
            length (filter (sameCard (mkCard c Number (Some (Z.of_nat n))))
                      createDeck) = 2) (seq 1 9)
       /\ Forall (fun a =>
            length (filter (sameCard (mkCard c a None)) createDeck) = 2)
            actionTypes) colors
  /\ length (filter (sameCard (mkCard WildColor Wild None)) createDeck) = 4
  /\ length (filter (sameCard (mkCard WildColor WildDrawFour None)) createDeck)
     = 4.
Proof.
  repeat split; repeat constructor.
Qed.

(** C1, the claim as stated, fails: when the shuffle leaves a wild draw four
    right under the fourteen dealt cards, the initial flip of [startGame]
    pops it, flips again, and the popped card is in no pile: deck, discard
    pile and hands hold 107 entries. *)
Lemma initial_flip_loses_wild_card :
  let s := stateAfter (matchJoin 0%Z wildOnTop [alice; bob] (matchInit, [])) in
  gamePhase s = Playing
  /\ length (cardsOf s) = 107
  /\ ~ Permutation (cardsOf s) (map Some createDeck).
Proof.
  cbv zeta. split; [vm_compute; reflexivity|].
  split; [vm_compute; reflexivity|].
  intros P. apply Permutation_length in P. vm_compute in P. discriminate.
Qed.

(** C1, amended: in a match of two players [startGame] returns, and from
    then on, at every state seen between two runs of [matchLoop] (messages
    handled and timer checked), the cards in deck, discard pile and hands,
    not counting [undefined] entries, together with the wild cards that the
    initial flip popped and dropped, are the 108 cards of [createDeck].
    The dropped cards are the wild cards that lay on the dealt deck above
    the card that became the top card; deck, discard pile and hands alone
    are the 108 cards exactly when the first card flipped was not wild. *)
Theorem cards_conserved_after_start now rnd a b pa pb s0 out0 :
  a <> b ->
  players s0 = [(a, pa); (b, pb)] ->
  let s1 := stateAfter (startGame now rnd (s0, out0)) in
  let ws := flippedWilds (dealtDeck rnd) in
  resultOf (startGame now rnd (s0, out0)) = Ok tt
  /\ Forall isWildCard ws
  /\ dealtDeck rnd = deck s1 ++ topCard s1 :: map Some (rev ws)
  /\ forall s,
      reachable s1 s ->
      Permutation (defined (cardsOf s) ++ ws) createDeck
      /\ (Permutation (defined (cardsOf s)) createDeck
          <-> exists c,
                last (dealtDeck rnd) None = Some c
                /\ isWildType (type c) = false).
Proof.
  intros Hab Hp s1 ws.
  destruct (@startGame_table now rnd a b pa pb s0 Hab Hp out0)
    as (Hr & (c & Ht & Hw) & Hpos & L & Hinv & Hperm).
  fold s1 in Ht, Hpos, Hinv. fold ws in Hpos, Hperm.
  split; [exact Hr|]. split; [apply wildsOnTop_wild|].
  split; [exact Hpos|].
  intros s R. pose proof (reachable_tableInv Hinv R) as (_ & _ & Hc).
  assert (Hall : Permutation (defined (cardsOf s) ++ ws) createDeck)
    by now rewrite Hc.
  split; [exact Hall|]. split.
  - intros Hfull. apply Permutation_length in Hall, Hfull.
    rewrite length_app, Hfull in Hall.
    assert (Hnil : ws = []) by (destruct ws; [reflexivity | simpl in Hall; lia]).
    exists c. split; [|exact Hw].
    rewrite Hpos, Hnil, Ht. cbn [rev map]. apply last_last.
  - intros (c' & Hlast & Hw').
    assert (Hne : dealtDeck rnd <> [])
      by (intros Z; rewrite Z in Hlast; discriminate).
    assert (Hnil : ws = []).
    { subst ws. rewrite (app_removelast_last None Hne), Hlast.
      now rewrite flippedWilds_snoc, Hw'. }
    rewrite Hnil, app_nil_r in Hall. exact Hall.
Qed.

Lemma cards_conserved_after_start_witness :
  flippedWilds (dealtDeck wildOnTop) = [mkCard WildColor WildDrawFour None]
  /\ forall s,
      reachable (stateAfter (startGame 0%Z wildOnTop (twoJoined, []))) s ->
      Permutation
        (defined (cardsOf s) ++ flippedWilds (dealtDeck wildOnTop))
        createDeck
      /\ (Permutation (defined (cardsOf s)) createDeck
          <-> exists c,
                last (dealtDeck wildOnTop) None = Some c
                /\ isWildType (type c) = false).
Proof.
  split; [vm_compute; reflexivity|].
  exact (proj2 (proj2 (proj2
           (@cards_conserved_after_start 0%Z wildOnTop "alice" "bob"
              (mkPlayer "alice" "Alice" [] false false 0%Z)
              (mkPlayer "bob" "Bob" [] false false 0%Z) twoJoined []
              ltac:(discriminate) eq_refl)))).
Defined.

(* ------------------------------------------------------------------ *)
(** ** C2: the legality rule *)

(** A wild card is playable on anything, even on no top card. *)
Lemma isValidPlay_wild c t :
  isWildType (type c) = true -> isValidPlay (Some c) t = Ok true.
Proof. intros W. unfold isValidPlay. now rewrite W. Qed.

(** Where at least one of the two cards carries a number in [value], the
    code decides as the rule of the specification does. *)
Lemma isValidPlay_legalBySpec c t :
  value c <> None \/ value t <> None ->
  isValidPlay (Some c) (Some t) = Ok (legalBySpec c t).
Proof.
  intros H. unfold isValidPlay, legalBySpec, sameNumericValue, value_eqb.
  destruct (isWildType (type c)); [reflexivity|].
  destruct (value c), (value t); try reflexivity.
  destruct H as [H|H]; now destruct H.
Qed.

(** What the code computes in general: [value] fields that are both [null]
    count as a match of values. *)
Lemma isValidPlay_cases c t :
  isValidPlay (Some c) (Some t)
  = Ok (legalBySpec c t
        || match value c, value t with None, None => true | _, _ => false end).
Proof.
  unfold isValidPlay, legalBySpec, sameNumericValue, value_eqb.
  destruct (isWildType (type c)); [reflexivity|].
  destruct (Color_eqb (color c) (color t)); [reflexivity|].
  destruct (value c), (value t); cbn [orb];
    try destruct (Z.eqb z z0); cbn [orb];
    destruct (CardType_eqb (type c) (type t) && negb (CardType_eqb (type c) Number));
    reflexivity.
Qed.

(** C2: a red skip on a blue reverse.  The colours differ, neither card has
    a numeric value, the kinds differ: the rule of the specification says
    no.  The code compares the two [value] fields, both [null], finds them
    equal and accepts the play. *)
Theorem isValidPlay_skip_on_reverse :
  isValidPlay (Some (mkCard Red Skip None)) (Some (mkCard Blue Reverse None))
  = Ok true
  /\ legalBySpec (mkCard Red Skip None) (mkCard Blue Reverse None) = false.
Proof. split; reflexivity. Qed.

(* ------------------------------------------------------------------ *)
(** ** C5: the scores *)

Lemma handValue_clean cards : forall acc,
  cleanHand cards ->
  handValue acc cards = Ok (acc + handPoints (defined cards))%Z.
Proof.
  induction cards as [|[c|] cards IH]; intros acc H; simpl.
  - f_equal. lia.
  - inversion H as [|? ? _ H']; subst. unfold cardPoints.
    destruct (type c); rewrite (IH _ H'); f_equal; lia.
  - inversion H as [|? ? Hc _]; subst. now destruct Hc.
Qed.

Lemma assign_fresh (V : Type) k (v : V) o :
  ~ In k (keys o) -> assign k v o = o ++ [(k, v)].
Proof.
  unfold keys. induction o as [|[k' v'] o IH]; simpl; intros H;
    [reflexivity|].
  destruct (String.eqb k' k) eqn:E.
  - apply String.eqb_eq in E. tauto.
  - rewrite IH by tauto. reflexivity.
Qed.

Lemma lookup_map (V W : Type) (g : string -> V -> W) q o :
  lookup q (map (fun kv => (fst kv, g (fst kv) (snd kv))) o)
  = option_map (g q) (lookup q o).
Proof.
  induction o as [|[k v] o IH]; simpl; [reflexivity|].
  destruct (String.eqb k q) eqn:E; [|exact IH].
  apply String.eqb_eq in E. now subst.
Qed.

(** The score of a player before the bonus of the winner is added. *)
Lemma scoreLoop_run winnerId ps : forall scores total,
  Forall (fun kv => cleanHand (hand (snd kv))) ps ->
  NoDup (keys ps) ->
  (forall k, In k (keys ps) -> ~ In k (keys scores)) ->
  scoreLoop winnerId ps scores total
  = Ok (scores
        ++ map (fun kv =>
                  (fst kv,
                   if String.eqb (fst kv) winnerId then 100%Z
                   else (- handPoints (defined (hand (snd kv))))%Z)) ps,
        (total + othersPoints winnerId ps)%Z).
Proof.
  induction ps as [|[q pl] ps IH]; intros scores total Hc Hnd Hfresh.
  - simpl. rewrite app_nil_r. do 2 f_equal. lia.
  - inversion Hc as [|? ? Hq Hc']; subst.
    unfold keys in Hnd. cbn [map fst] in Hnd.
    inversion Hnd as [|? ? Hnotin Hnd']; subst.
    cbn [scoreLoop]. cbn [snd] in Hq. rewrite (handValue_clean 0 Hq).
    assert (Fq : ~ In q (keys scores)) by (apply Hfresh; now left).
    cbn [map fold_right othersPoints fst snd].
    destruct (String.eqb q winnerId) eqn:E.
    + rewrite assign_fresh by exact Fq. rewrite IH; try assumption.
      * rewrite <- app_assoc. reflexivity.
      * intros k Hk. unfold keys. rewrite map_app, in_app_iff.
        intros [Hin|[<-|[]]]; [|now apply Hnotin].
        apply (Hfresh k); [now right | exact Hin].
    + rewrite assign_fresh by exact Fq. rewrite IH; try assumption.
      * rewrite <- app_assoc. unfold othersPoints. do 2 f_equal. lia.
      * intros k Hk. unfold keys. rewrite map_app, in_app_iff.
        intros [Hin|[<-|[]]]; [|now apply Hnotin].
        apply (Hfresh k); [now right | exact Hin].
Qed.

Lemma emitAll_run l s out : emitAll l (s, out) = (Ok tt, (s, out ++ l)).
Proof.
  revert out; induction l as [|o l IH]; intros out; simpl.
  - now rewrite app_nil_r.
  - unfold bind, emit. cbn [fst snd]. rewrite IH.
    now rewrite <- app_assoc.
Qed.

(** [endGame] with a winner among the players and no [undefined] in any
    hand: what it leaves and what it sends. *)
Lemma endGame_run winnerId w s out :
  lookup winnerId (players s) = Some w ->
  Forall (fun kv => cleanHand (hand (snd kv))) (players s) ->
  NoDup (keys (players s)) ->
  endGame winnerId (s, out)
  = (Ok tt,
     (set_finalScores
        (Some (finalScoresOf winnerId (players s)
                 (scoresOf winnerId (players s))))
        (set_gamePhase Ended s),
      out
      ++ leaderboardWritesOf winnerId (players s)
           (scoresOf winnerId (players s))
      ++ [Broadcast
            (game_ended GameCompleted (Some winnerId) (Some (username w))
               (finalScoresOf winnerId (players s)
                  (scoresOf winnerId (players s)))
               (Some winnerId))])).
Proof.
  intros E Hc Hnd. unfold endGame, bind, modify, getState, liftRes.
  cbn [fst snd players set_gamePhase].
  rewrite (@scoreLoop_run winnerId (players s) [] 0%Z Hc Hnd)
    by (intros k _ []).
  cbn [fst snd app]. rewrite emitAll_run.
  unfold getPlayer, bind, getState, ret, emit.
  cbn [fst snd players set_finalScores set_gamePhase]. rewrite E.
  unfold scoresOf. cbn [fst snd]. rewrite <- app_assoc. reflexivity.
Qed.

Lemma scoreOf_scoresOf winnerId ps q pl :
  lookup q ps = Some pl ->
  scoreOf q (scoresOf winnerId ps) = scoreBySpec winnerId ps q pl.
Proof.
  intros E. unfold scoreOf, scoresOf, scoreBySpec.
  pose proof (lookup_map
                (fun k (v : Player) =>
                   if String.eqb k winnerId then 100%Z
                   else (- handPoints (defined (hand v)))%Z) q ps) as B.
  cbv beta in B. rewrite E in B. cbn [option_map] in B.
  destruct (String.eqb q winnerId) eqn:W.
  - apply String.eqb_eq in W. subst q.
    erewrite lookup_update_same by exact B. reflexivity.
  - apply String.eqb_neq in W.
    rewrite lookup_update_other by congruence. now rewrite B.
Qed.

(** C5: when the game ends with a winner, [finalScores] holds one record
    per player; a player other than the winner scores minus the value of
    the hand (a number card its value, skip, reverse and draw two 20, the
    wild cards 50), the winner scores 100 plus the values of the hands of
    all the others. *)
Theorem endGame_scores winnerId w s out :
  lookup winnerId (players s) = Some w ->
  Forall (fun kv => cleanHand (hand (snd kv))) (players s) ->
  NoDup (keys (players s)) ->
  resultOf (endGame winnerId (s, out)) = Ok tt
  /\ exists fs,
      finalScores (stateAfter (endGame winnerId (s, out))) = Some fs
      /\ forall q pl,
          lookup q (players s) = Some pl ->
          exists r,
            lookup q fs = Some r
            /\ sr_result r = resultTag q winnerId
            /\ sr_score r
               = if String.eqb q winnerId
                 then (100 + othersPoints winnerId (players s))%Z
                 else (- handPoints (defined (hand pl)))%Z.
Proof.
  intros E Hc Hnd. rewrite (@endGame_run winnerId w s out E Hc Hnd).
  split; [reflexivity|]. eexists. split; [reflexivity|].
  intros q pl Hq. unfold finalScoresOf.
  pose proof (lookup_map
                (fun k (v : Player) =>
                   mkScore k (username v)
                     (scoreOf k (scoresOf winnerId (players s)))
                     (resultTag k winnerId) GameCompleted) q (players s)) as B.
  cbv beta in B. rewrite B, Hq. cbn [option_map]. eexists.
  split; [reflexivity|]. cbn [sr_result sr_score].
  split; [reflexivity|]. now rewrite (@scoreOf_scoresOf winnerId (players s) q pl Hq).
Qed.

Lemma endGame_scores_witness :
  resultOf (endGame "alice" (table [] [Some green1], [])) = Ok tt
  /\ exists fs,
      finalScores (stateAfter (endGame "alice" (table [] [Some green1], [])))
      = Some fs
      /\ forall q pl,
          lookup q (players (table [] [Some green1])) = Some pl ->
          exists r,
            lookup q fs = Some r
            /\ sr_result r = resultTag q "alice"
            /\ sr_score r
               = if String.eqb q "alice"
                 then (100 + othersPoints "alice"
                               (players (table [] [Some green1])))%Z
                 else (- handPoints (defined (hand pl)))%Z.
Proof.
  apply (@endGame_scores "alice" (mkPlayer "alice" "Alice" [] false false 0%Z)
           (table [] [Some green1]) []).
  - reflexivity.
  - repeat constructor; discriminate.
  - repeat constructor; simpl; intuition discriminate.
Defined.

(** On that table "bob" ends with minus 77 and "alice" with 177. *)
Example endGame_scores_example :
  option_map (map (fun kv => (fst kv, sr_score (snd kv))))
    (finalScores (stateAfter (endGame "alice" (table [] [Some green1], []))))
  = Some [("alice"%string, 177%Z); ("bob"%string, (-77)%Z)].
Proof. reflexivity. Qed.

(* ------------------------------------------------------------------ *)
(** ** What a handler leaves and sends *)

Lemma bind_ok {A B} (m : M A) (f : A -> M B) w a w' :
  m w = (Ok a, w') -> bind m f w = f a w'.
Proof. intros E. unfold bind. now rewrite E. Qed.

Lemma bind_throw {A B} (m : M A) (f : A -> M B) w w' :
  m w = (Throw, w') -> bind m f w = (Throw, w').
Proof. intros E. unfold bind. now rewrite E. Qed.

Lemma run_getState {B} (f : State -> M B) s out :
  bind getState f (s, out) = f s (s, out).
Proof. reflexivity. Qed.

Lemma run_modify {B} g (f : unit -> M B) s out :
  bind (modify g) f (s, out) = f tt (g s, out).
Proof. reflexivity. Qed.

Lemma run_emit {B} o (f : unit -> M B) s out :
  bind (emit o) f (s, out) = f tt (s, out ++ [o]).
Proof. reflexivity. Qed.

Lemma run_ret {A B} (a : A) (f : A -> M B) w : bind (ret a) f w = f a w.
Proof. reflexivity. Qed.

Lemma run_liftRes_ok {A B} (a : A) (f : A -> M B) w :
  bind (liftRes (Ok a)) f w = f a w.
Proof. reflexivity. Qed.

Lemma run_liftRes_throw {A B} (f : A -> M B) w :
  bind (liftRes Throw) f w = (Throw, w).
Proof. reflexivity. Qed.

Lemma getPlayer_run pid p s out :
  lookup pid (players s) = Some p ->
  getPlayer (Some pid) (s, out) = (Ok p, (s, out)).
Proof.
  intros E. unfold getPlayer, bind, getState, ret. cbn [fst]. now rewrite E.
Qed.

Lemma getPlayer_absent pid s out :
  lookup pid (players s) = None ->
  getPlayer (Some pid) (s, out) = (Throw, (s, out)).
Proof.
  intros E. unfold getPlayer, bind, getState, ret. cbn [fst]. now rewrite E.
Qed.

Lemma run_getPlayer {B} pid p (f : Player -> M B) s out :
  lookup pid (players s) = Some p ->
  bind (getPlayer (Some pid)) f (s, out) = f p (s, out).
Proof. intros E. apply bind_ok. now apply getPlayer_run. Qed.

Lemma run_getPlayer_absent {B} pid (f : Player -> M B) s out :
  lookup pid (players s) = None ->
  bind (getPlayer (Some pid)) f (s, out) = (Throw, (s, out)).
Proof. intros E. apply bind_throw. now apply getPlayer_absent. Qed.

Lemma setHand_run pid p h s out :
  lookup pid (players s) = Some p ->
  setHand (Some pid) h (s, out)
  = (Ok tt, (set_players (update pid (set_hand h) (players s)) s, out)).
Proof.
  intros E. unfold setHand. rewrite (@run_getPlayer _ pid p _ s out E).
  reflexivity.
Qed.

Lemma run_setHand {B} pid p h (f : unit -> M B) s out :
  lookup pid (players s) = Some p ->
  bind (setHand (Some pid) h) f (s, out)
  = f tt (set_players (update pid (set_hand h) (players s)) s, out).
Proof. intros E. apply bind_ok. eapply setHand_run. exact E. Qed.

(** Runs the steps of a handler that touch the state or send. *)
Ltac run :=
  repeat first
    [ rewrite run_getState | rewrite run_modify | rewrite run_emit
    | rewrite run_ret | rewrite run_liftRes_ok | rewrite run_liftRes_throw ].

(** The [player_hand] loop changes nothing and sends only [player_hand]
    messages. *)
Lemma sendHands_run l : forall s out,
  stateAfter (sendHands l (s, out)) = s
  /\ exists sent,
      outAfter (sendHands l (s, out)) = out ++ sent
      /\ Forall isPlayerHand sent.
Proof.
  induction l as [|pid l IH]; intros s out; cbn [sendHands].
  - split; [reflexivity|]. exists []. now rewrite app_nil_r.
  - destruct (lookup pid (players s)) as [p|] eqn:E.
    2:{ rewrite (@run_getPlayer_absent _ pid _ s out E).
        split; [reflexivity|]. exists []. now rewrite app_nil_r. }
    rewrite (@run_getPlayer _ pid p _ s out E). run.
    destruct (getPlayableCards s pid) as [playable|]; run.
    2:{ split; [reflexivity|]. exists []. now rewrite app_nil_r. }
    destruct (IH s (out ++ [Broadcast (player_hand pid (hand p) playable)]))
      as (Hs & sent & Ho & Hf).
    split; [exact Hs|].
    exists (Broadcast (player_hand pid (hand p) playable) :: sent).
    rewrite Ho, <- app_assoc. split; [reflexivity|].
    constructor; [exact I | exact Hf].
Qed.

Lemma playableFrom_undefined i cards t :
  In None cards -> playableFrom i cards (Some t) = Throw.
Proof.
  revert i; induction cards as [|[c|] cards IH]; intros i H; simpl.
  - destruct H.
  - destruct H as [H|H]; [discriminate|]. rewrite (IH (S i) H).
    now destruct (isWildType (type c)).
  - reflexivity.
Qed.

(** With a top card on the table, the loop raises once a hand holds an
    [undefined] entry. *)
Lemma sendHands_throws l : forall s out pid p t,
  In pid l ->
  lookup pid (players s) = Some p ->
  In None (hand p) ->
  topCard s = Some t ->
  resultOf (sendHands l (s, out)) = Throw.
Proof.
  induction l as [|q l IH]; intros s out pid p t Hin E Hu Ht; [destruct Hin|].
  cbn [sendHands].
  destruct (lookup q (players s)) as [pq|] eqn:Eq.
  2:{ now rewrite (@run_getPlayer_absent _ q _ s out Eq). }
  rewrite (@run_getPlayer _ q pq _ s out Eq). run.
  destruct (getPlayableCards s q) as [playable|] eqn:G; run; [|reflexivity].
  destruct Hin as [->|Hin]; [|eapply IH; eassumption].
  exfalso. unfold getPlayableCards in G. rewrite E, Ht in G.
  now rewrite (@playableFrom_undefined 0 (hand p) t Hu) in G.
Qed.

Lemma broadcastGameState_run s out :
  stateAfter (broadcastGameState (s, out)) = s
  /\ exists sent,
      outAfter (broadcastGameState (s, out))
      = out ++ Broadcast (game_state (snapshot s)) :: sent
      /\ Forall isPlayerHand sent.
Proof.
  unfold broadcastGameState. run.
  destruct (sendHands_run (keys (players s)) s
              (out ++ [Broadcast (game_state (snapshot s))]))
    as (Hs & sent & Ho & Hf).
  split; [exact Hs|]. exists sent. rewrite Ho, <- app_assoc.
  split; [reflexivity | exact Hf].
Qed.

Lemma broadcastGameState_throws s out pid p t :
  lookup pid (players s) = Some p ->
  In None (hand p) ->
  topCard s = Some t ->
  resultOf (broadcastGameState (s, out)) = Throw.
Proof.
  intros E Hu Ht. unfold broadcastGameState. run.
  eapply sendHands_throws; try eassumption.
  eapply lookup_Some_In; eassumption.
Qed.

Lemma takeCard_run pid p s out :
  lookup pid (players s) = Some p ->
  takeCard pid (s, out)
  = (Ok tt,
     (set_players
        (update pid (set_hand (push (hand p) (last (deck s) None))) (players s))
        (set_deck (removelast (deck s)) s),
      out)).
Proof.
  intros E. unfold takeCard, pop. run.
  rewrite (@run_getPlayer _ pid p _ (set_deck (removelast (deck s)) s) out E).
  exact (@setHand_run pid p _ (set_deck (removelast (deck s)) s) out E).
Qed.

Lemma afterDraw_state now pid event s out :
  stateAfter (afterDraw now pid event (s, out)) = advanceTurn now s.
Proof.
  unfold afterDraw. run.
  destruct (broadcastGameState_run (advanceTurn now s) out) as (Hs & _).
  unfold bind at 1.
  destruct (broadcastGameState (advanceTurn now s, out)) as [[[]|] [s' out']];
    unfold stateAfter in Hs; cbn [fst snd] in Hs; subst s'; [|reflexivity].
  unfold bind, getPlayer, bind, getState. cbn [fst].
  destruct (lookup pid (players (advanceTurn now s))); reflexivity.
Qed.

(** After a draw that left an [undefined] entry in a hand, the broadcast of
    the state raises while it lists the playable cards: the [game_state]
    message has gone out, the event of the draw has not. *)
Lemma afterDraw_throws now pid event s out q pq t :
  lookup q (players s) = Some pq ->
  In None (hand pq) ->
  topCard s = Some t ->
  resultOf (afterDraw now pid event (s, out)) = Throw
  /\ exists sent,
      outAfter (afterDraw now pid event (s, out))
      = out ++ Broadcast (game_state (snapshot (advanceTurn now s))) :: sent
      /\ Forall isPlayerHand sent.
Proof.
  intros E Hu Ht. unfold afterDraw. run.
  pose proof (@broadcastGameState_throws (advanceTurn now s) out q pq t E Hu Ht)
    as Hr.
  destruct (broadcastGameState_run (advanceTurn now s) out)
    as (_ & sent & Ho & Hf).
  unfold bind.
  destruct (broadcastGameState (advanceTurn now s, out)) as [[[]|] [s' out']];
    unfold resultOf, outAfter in *; cbn [fst snd] in *; [discriminate|].
  split; [reflexivity|]. exists sent. split; assumption.
Qed.

(* ------------------------------------------------------------------ *)
(** ** C9: a draw when no card is left *)

Lemma drawOne_exhausted rnd pid p d s out :
  deck s = [] -> discardPile s = [d] ->
  lookup pid (players s) = Some p ->
  drawOne rnd pid (s, out)
  = (Ok tt,
     (set_players (update pid (set_hand (hand p ++ [None])) (players s)) s,
      out)).
Proof.
  intros D P E. unfold drawOne. run. rewrite D. cbn [length Nat.eqb]. run.
  rewrite (@takeCard_run pid p (reshuffleDeck rnd s) out)
    by (unfold reshuffleDeck, pop; exact E).
  destruct s. cbn in D, P |- *. subst. reflexivity.
Qed.

(** C9, the code at the failing input: "alice" draws with an empty deck
    and a single card on the discard pile.  Her hand gets an [undefined]
    entry and the turn moves on, but the handler raises while the state is
    broadcast: the [card_drawn] and the [auto_draw] message that the code
    goes on to send are never sent.  The message loop catches the error of
    the [draw_card]; the error of the draw that the timer forces leaves
    [matchLoop]. *)
Lemma exhausted_draw_sends_no_draw_event :
  (let r := handleDrawCard 2000%Z noShuffle "alice"
              (table [Some blue7] [], []) in
   resultOf r = Throw
   /\ option_map hand (lookup "alice" (players (stateAfter r)))
      = Some [Some blue7; None]
   /\ currentTurn (stateAfter r) = Some "bob"%string
   /\ existsb isDrawEvent (outAfter r) = false)
  /\ resultOf
       (processMessage 2000%Z noShuffle (mkMessage "alice" draw_card)
          (table [Some blue7] [], []))
     = Ok tt
  /\ (let r := handleAutoPlay 20000%Z noShuffle
                 (table [Some blue7] [], []) in
      resultOf r = Throw
      /\ option_map hand (lookup "alice" (players (stateAfter r)))
         = Some [Some blue7; None]
      /\ existsb isDrawEvent (outAfter r) = false)
  /\ resultOf (matchLoop 20000%Z noShuffle [] (table [Some blue7] [], []))
     = Throw.
Proof. vm_compute. repeat split. Qed.

(** C9, where the code leaves the claim, at every draw with an empty deck
    and a single entry on the discard pile: as the claim says no card is
    popped, an [undefined] entry is appended to the hand of the player and
    the turn is advanced; but the broadcast of the state then raises on the
    [undefined] entry, after the [game_state] message, so that the
    [card_drawn] or [auto_draw] event the code is about to send never goes
    out.  The error of a [draw_card] message is caught by the message loop;
    the draw forced by the timer runs outside of it, and its error leaves
    [matchLoop]. *)
Theorem draw_from_exhausted_deck now rnd pid p d t s out :
  deck s = [] ->
  discardPile s = [d] ->
  topCard s = Some t ->
  currentTurn s = Some pid ->
  lookup pid (players s) = Some p ->
  let s' :=
    advanceTurn now
      (set_players (update pid (set_hand (hand p ++ [None])) (players s)) s) in
  let sentOnly r :=
    exists sent,
      outAfter r = out ++ Broadcast (game_state (snapshot s')) :: sent
      /\ Forall isPlayerHand sent in
  (resultOf (handleDrawCard now rnd pid (s, out)) = Throw
   /\ stateAfter (handleDrawCard now rnd pid (s, out)) = s'
   /\ sentOnly (handleDrawCard now rnd pid (s, out)))
  /\ (resultOf (processMessage now rnd (mkMessage pid draw_card) (s, out))
      = Ok tt
      /\ stateAfter (processMessage now rnd (mkMessage pid draw_card) (s, out))
         = s')
  /\ (playableFrom 0 (hand p) (topCard s) = Ok [] ->
      (resultOf (handleAutoPlay now rnd (s, out)) = Throw
       /\ stateAfter (handleAutoPlay now rnd (s, out)) = s'
       /\ sentOnly (handleAutoPlay now rnd (s, out)))
      /\ forall start,
          pid <> ""%string ->
          gamePhase s = Playing ->
          turnStartTime s = Some start ->
          start <> 0%Z ->
          (turnTimeLimit s * 1000 <= now - start)%Z ->
          resultOf (matchLoop now rnd [] (s, out)) = Throw).
Proof.
  intros D P Ht Hc E s' sentOnly.
  set (s1 := set_players
               (update pid (set_hand (hand p ++ [None])) (players s)) s).
  assert (E1 : lookup pid (players s1)
               = Some (set_hand (hand p ++ [None]) p))
    by (apply lookup_update_same; exact E).
  assert (Hu : In None (hand (set_hand (hand p ++ [None]) p)))
    by (cbn [hand set_hand]; apply in_or_app; right; now left).
  assert (Hdraw : handleDrawCard now rnd pid (s, out)
                  = afterDraw now pid card_drawn (s1, out)).
  { unfold handleDrawCard. run. unfold isTurn. rewrite Hc, String.eqb_refl.
    cbn [negb].
    now rewrite (@bind_ok _ _ _ _ _ _ _
                   (@drawOne_exhausted rnd pid p d s out D P E)). }
  assert (Hauto : forall out0,
             playableFrom 0 (hand p) (topCard s) = Ok [] ->
             handleAutoPlay now rnd (s, out0)
             = afterDraw now pid auto_draw (s1, out0)).
  { intros out0 Hp. unfold handleAutoPlay. run. rewrite Hc.
    rewrite (@run_getPlayer _ pid p _ s out0 E). rewrite Hp. run.
    now rewrite (@bind_ok _ _ _ _ _ _ _
                   (@drawOne_exhausted rnd pid p d s out0 D P E)). }
  destruct (@afterDraw_throws now pid card_drawn s1 out pid _ t E1 Hu Ht)
    as (Hr & Hs).
  split; [|split].
  - rewrite Hdraw. split; [exact Hr|].
    split; [apply afterDraw_state | exact Hs].
  - unfold processMessage. cbn [data sender]. unfold tryCatch.
    split; [reflexivity|]. unfold stateAfter. cbn [snd].
    rewrite Hdraw. apply afterDraw_state.
  - intros Hp. split.
    + rewrite (Hauto out Hp).
      destruct (@afterDraw_throws now pid auto_draw s1 out pid _ t E1 Hu Ht)
        as (Hr' & Hs').
      split; [exact Hr'|]. split; [apply afterDraw_state | exact Hs'].
    + intros start Hid Hph Hst Hs0 Hlim.
      unfold matchLoop. cbn [processMessages]. run. unfold timerCheck. run.
      rewrite Hph, Hc, Hst. unfold truthyId, truthyNum.
      apply String.eqb_neq in Hid. rewrite Hid.
      apply Z.eqb_neq in Hs0. rewrite Hs0. cbn [negb andb]. run.
      apply Z.leb_le in Hlim. rewrite Hlim. rewrite (Hauto _ Hp).
      now destruct (@afterDraw_throws now pid auto_draw s1
                      (out ++ [Broadcast
                                 (timer_update pid
                                    (Z.max 0
                                       (turnTimeLimit s
                                        - (now - start) / 1000)))])
                      pid _ t E1 Hu Ht).
Qed.

(* ------------------------------------------------------------------ *)
(** ** C3: the end of the game *)

Lemma allClean_update pid h ps :
  allClean ps -> cleanHand h -> allClean (update pid (set_hand h) ps).
Proof.
  unfold allClean. intros H Hh.
  induction H as [|[k v] ps Hv Hps IH]; simpl; [constructor|].
  destruct (String.eqb k pid); constructor; assumption.
Qed.

Lemma indexOfFrom_nth x : forall l k i,
  NoDup l -> nth_error l i = Some x ->
  indexOfFrom k (Some x) l = (k + Z.of_nat i)%Z.
Proof.
  induction l as [|y r IH]; intros k i N E.
  - destruct i; discriminate.
  - cbn [indexOfFrom]. inversion N as [|? ? Hn N']; subst.
    destruct i as [|i]; cbn [nth_error] in E.
    + injection E as ->. rewrite String.eqb_refl. lia.
    + destruct (String.eqb y x) eqn:Q.
      * apply String.eqb_eq in Q. subst y. exfalso. apply Hn.
        eapply nth_error_In. exact E.
      * rewrite (IH (k + 1)%Z i N' E). lia.
Qed.

Lemma rem_of_nat a n :
  n <> 0 -> Z.rem (Z.of_nat a) (Z.of_nat n) = Z.of_nat (a mod n).
Proof.
  intros H. rewrite Z.rem_mod_nonneg by lia. now rewrite Nat2Z.inj_mod.
Qed.

Lemma idAt_of_nat k l : idAt (Some (Z.of_nat k)) l = nth_error l k.
Proof.
  unfold idAt. destruct (Z.ltb (Z.of_nat k) 0) eqn:Q.
  - apply Z.ltb_lt in Q. lia.
  - now rewrite Nat2Z.id.
Qed.

(** One [advanceTurn] from the player at index [j] of [Object.keys]. *)
Lemma advanceTurn_index now s j y :
  NoDup (keys (players s)) ->
  nth_error (keys (players s)) j = Some y ->
  currentTurn s = Some y ->
  currentTurn (advanceTurn now s)
  = nth_error (keys (players s))
      ((j + turnStep s) mod length (keys (players s))).
Proof.
  intros N E T. unfold advanceTurn, turnStep.
  cbn [currentTurn set_turnStartTime set_currentTurn].
  rewrite T. unfold indexOf. rewrite (@indexOfFrom_nth y _ 0%Z j N E).
  assert (L : j < length (keys (players s)))
    by (apply nth_error_Some; congruence).
  unfold jsRem.
  destruct (Z.eqb (Z.of_nat (length (keys (players s)))) 0) eqn:Z0;
    [apply Z.eqb_eq in Z0; lia|].
  destruct (Z.eqb (direction s) 1).
  - replace (0 + Z.of_nat j + 1)%Z with (Z.of_nat (j + 1)) by lia.
    rewrite rem_of_nat by lia. apply idAt_of_nat.
  - replace (0 + Z.of_nat j - 1 + Z.of_nat (length (keys (players s))))%Z
      with (Z.of_nat (j + (length (keys (players s)) - 1))) by lia.
    rewrite rem_of_nat by lia. apply idAt_of_nat.
Qed.

(** With two players or more, each once in the keys, [advanceTurn] takes
    the turn away from the player who has it. *)
Lemma advanceTurn_moves now s pid :
  NoDup (keys (players s)) ->
  In pid (keys (players s)) ->
  currentTurn s = Some pid ->
  2 <= length (keys (players s)) ->
  currentTurn (advanceTurn now s) <> Some pid.
Proof.
  intros N Hin T Hn.
  destruct (In_nth_error _ _ Hin) as [j E].
  assert (L : j < length (keys (players s)))
    by (apply nth_error_Some; congruence).
  rewrite (@advanceTurn_index now s j pid N E T), <- E.
  intros Heq.
  apply (proj1 (NoDup_nth_error _) N) in Heq;
    [|apply Nat.mod_upper_bound; lia].
  revert Heq. unfold turnStep.
  set (n := length (keys (players s))) in *.
  destruct (Z.eqb (direction s) 1).
  - destruct (Nat.eq_dec (j + 1) n) as [Q|Q].
    + rewrite Q, Nat.Div0.mod_same. lia.
    + rewrite Nat.mod_small by lia. lia.
  - destruct j as [|j'].
    + rewrite Nat.mod_small by lia. lia.
    + replace (S j' + (n - 1)) with (j' + 1 * n) by lia.
      rewrite Nat.Div0.mod_add, Nat.mod_small by lia. lia.
Qed.

(** A draw in turn always appends an entry to the hand of the player and
    passes the turn on as [advanceTurn] does. *)
Lemma handleDrawCard_takes now rnd pid p s out :
  currentTurn s = Some pid ->
  lookup pid (players s) = Some p ->
  (exists x,
     lookup pid (players (stateAfter (handleDrawCard now rnd pid (s, out))))
     = Some (set_hand (hand p ++ [x]) p))
  /\ currentTurn (stateAfter (handleDrawCard now rnd pid (s, out)))
     = currentTurn (advanceTurn now s).
Proof.
  intros Hc E. unfold handleDrawCard. run. unfold isTurn.
  rewrite Hc, String.eqb_refl. cbn [negb].
  assert (Hd : exists s1 x,
             drawOne rnd pid (s, out) = (Ok tt, (s1, out))
             /\ lookup pid (players s1) = Some (set_hand (hand p ++ [x]) p)
             /\ currentTurn (advanceTurn now s1)
                = currentTurn (advanceTurn now s)).
  { unfold drawOne. run.
    destruct (Nat.eqb (length (deck s)) 0); run.
    - rewrite (@takeCard_run pid p (reshuffleDeck rnd s) out)
        by (unfold reshuffleDeck, pop; exact E).
      eexists _, _. split; [reflexivity|]. split.
      + cbn [players set_players]. unfold reshuffleDeck, pop.
        cbn [players set_deck set_discardPile].
        apply lookup_update_same. exact E.
      + unfold advanceTurn, reshuffleDeck, pop.
        cbn [players currentTurn direction set_players set_deck
             set_discardPile set_turnStartTime set_currentTurn].
        now rewrite keys_update.
    - rewrite (@takeCard_run pid p s out E).
      eexists _, _. split; [reflexivity|]. split.
      + cbn [players set_players]. apply lookup_update_same. exact E.
      + unfold advanceTurn.
        cbn [players currentTurn direction set_players set_deck
             set_turnStartTime set_currentTurn].
        now rewrite keys_update. }
  destruct Hd as (s1 & x & Hrun & E1 & T1).
  rewrite (@bind_ok _ _ _ _ _ _ _ Hrun), afterDraw_state.
  split; [exists x; exact E1 | exact T1].
Qed.

Lemma playAt_last now pid p c event s out :
  lookup pid (players s) = Some p ->
  hand p = [Some c] ->
  allClean (players s) ->
  NoDup (keys (players s)) ->
  endedFor pid (username p) (played pid [] (Some c) s) out
    (playAt now pid (hand p) 0 event (s, out)).
Proof.
  intros E Hh Hc Hnd. unfold playAt, splice1. rewrite Hh.
  cbn [nth firstn skipn app length Nat.eqb].
  rewrite (@run_setHand _ pid p [] _ s out E). run.
  match goal with
  | |- endedFor _ _ _ _ (endGame _ (?st, _)) =>
      change st with (played pid [] (Some c) s)
  end.
  assert (E2 : lookup pid (players (played pid [] (Some c) s))
               = Some (set_hand [] p))
    by (apply lookup_update_same; exact E).
  rewrite (@endGame_run pid (set_hand [] p) (played pid [] (Some c) s) out E2).
  - unfold endedFor, resultOf, stateAfter, outAfter. cbn [fst snd].
    repeat split; discriminate.
  - apply allClean_update; [exact Hc | constructor].
  - cbn [players played set_discardPile set_topCard set_players].
    now rewrite keys_update.
Qed.

(** C3, the claim as stated, fails: "alice" plays her last card.  The phase
    the game is left in is not [Finished], and a [draw_card] that she sends
    afterwards is handled like any other: she gets the card on top of the
    deck and [card_drawn] is broadcast. *)
Lemma actions_handled_after_win :
  let r := handlePlayCard 2000%Z "alice" red5
             (table [Some red5] [Some green1], []) in
  let r' := handleDrawCard 3000%Z noShuffle "alice" (stateAfter r, []) in
  option_map hand (lookup "alice" (players (stateAfter r))) = Some []
  /\ gamePhase (stateAfter r) <> Finished
  /\ option_map hand (lookup "alice" (players (stateAfter r')))
     = Some [Some green1]
  /\ existsb isDrawEvent (outAfter r') = true.
Proof. vm_compute. repeat split. discriminate. Qed.

(** C3, amended: when a legal play, by [play_card] or by the timer, takes
    the last card of a hand and no hand holds an [undefined] entry, the
    phase leaves [playing] (it is neither [waiting] nor [playing]
    afterwards, and the timer part of [matchLoop] is idle from then on),
    the scores are computed into [finalScores] and a [game_ended]
    notification that names the winner is the last message broadcast.  The
    turn stays with the winner and the handlers look at nothing else: a
    [draw_card] that the winner sends afterwards still puts an entry in
    their hand and passes the turn on, to another player when there is
    one. *)
Theorem empty_hand_ends_game now rnd pid p c card s out :
  currentTurn s = Some pid ->
  lookup pid (players s) = Some p ->
  hand p = [Some c] ->
  allClean (players s) ->
  NoDup (keys (players s)) ->
  let ended r :=
    endedFor pid (username p) (played pid [] (Some c) s) out r
    /\ (forall now' rnd' out',
          timerCheck now' rnd' (stateAfter r, out')
          = (Ok tt, (stateAfter r, out')))
    /\ forall now' rnd' out',
        let r' := handleDrawCard now' rnd' pid (stateAfter r, out') in
        option_map (fun q => length (hand q))
          (lookup pid (players (stateAfter r')))
        = Some 1
        /\ currentTurn (stateAfter r')
           = currentTurn (advanceTurn now' (stateAfter r))
        /\ (2 <= length (players s) ->
            currentTurn (stateAfter r') <> Some pid) in
  (sameCard c card = true ->
   isValidPlay (Some card) (topCard s) = Ok true ->
   ended (handlePlayCard now pid card (s, out)))
  /\ (isValidPlay (Some c) (topCard s) = Ok true ->
      ended (handleAutoPlay now rnd (s, out))).
Proof.
  intros Hc E Hh Hcl Hnd ended.
  pose proof (@playAt_last now pid p c card_played s out E Hh Hcl Hnd) as P1.
  pose proof (@playAt_last now pid p c auto_play s out E Hh Hcl Hnd) as P2.
  assert (Hstill : forall r,
             endedFor pid (username p) (played pid [] (Some c) s) out r ->
             ended r).
  { intros r Hr. split; [exact Hr|].
    destruct Hr as (_ & _ & Hph & _ & Ht & Hp & _).
    assert (Ht' : currentTurn (stateAfter r) = Some pid)
      by (rewrite Ht; exact Hc).
    assert (Hk : keys (players (stateAfter r)) = keys (players s))
      by (rewrite Hp; unfold played;
          cbn [players set_discardPile set_topCard set_players];
          apply keys_update).
    split.
    - intros now' rnd' out'. unfold timerCheck. run.
      destruct (gamePhase (stateAfter r)); try reflexivity.
      now destruct Hph.
    - intros now' rnd' out' r'.
      destruct (@handleDrawCard_takes now' rnd' pid (set_hand [] p)
                  (stateAfter r) out') as ([x Hx] & Hturn).
      + exact Ht'.
      + rewrite Hp. apply lookup_update_same. exact E.
      + subst r'. rewrite Hx. split; [reflexivity|]. split; [exact Hturn|].
        intros Hn. rewrite Hturn.
        apply advanceTurn_moves.
        * rewrite Hk. exact Hnd.
        * rewrite Hk. eapply lookup_Some_In. exact E.
        * exact Ht'.
        * rewrite Hk. unfold keys. now rewrite length_map. }
  split.
  - intros Hsame Hvalid. apply Hstill.
    unfold handlePlayCard. run. unfold isTurn.
    rewrite Hc, String.eqb_refl. cbn [negb].
    rewrite (@run_getPlayer _ pid p _ s out E).
    rewrite Hh. cbn [findCardFrom]. rewrite Hsame. run.
    rewrite Hvalid. run. cbn [negb]. rewrite <- Hh. exact P1.
  - intros Hvalid. apply Hstill.
    unfold handleAutoPlay. run. rewrite Hc.
    rewrite (@run_getPlayer _ pid p _ s out E).
    rewrite Hh. cbn [playableFrom]. rewrite Hvalid. run.
    rewrite <- Hh. exact P2.
Qed.

(* ------------------------------------------------------------------ *)
(** ** C4: a draw two between two players *)

Lemma advance_two now s x y :
  keys (players s) = [x; y] \/ keys (players s) = [y; x] ->
  x <> y ->
  currentTurn s = Some x ->
  currentTurn (advanceTurn now s) = Some y.
Proof.
  intros K N Hc. unfold advanceTurn.
  cbn [currentTurn set_turnStartTime set_currentTurn].
  rewrite Hc. unfold indexOf.
  assert (Nxy : String.eqb x y = false) by now apply String.eqb_neq.
  assert (Nyx : String.eqb y x = false)
    by (apply String.eqb_neq; congruence).
  destruct K as [K|K]; rewrite K; cbn [indexOfFrom length];
    rewrite ?String.eqb_refl, ?Nyx, ?Nxy;
    destruct (Z.eqb (direction s) 1); reflexivity.
Qed.

Lemma removelast_length (A : Type) (l : list A) :
  length (removelast l) = length l - 1.
Proof.
  destruct l as [|x l]; [reflexivity|].
  rewrite (app_removelast_last x (l := x :: l)) at 2 by discriminate.
  rewrite length_app. simpl length. lia.
Qed.

(** The forced draw takes as many cards as asked, or as many as the deck
    has: it never reshuffles. *)
Lemma drawUpTo_grows n : forall opp po s,
  lookup opp (players s) = Some po ->
  wp (drawUpTo n (Some opp))
    (fun r s' =>
       r = Ok tt
       /\ currentTurn s' = currentTurn s
       /\ keys (players s') = keys (players s)
       /\ exists po',
           lookup opp (players s') = Some po'
           /\ length (hand po')
              = length (hand po) + Nat.min n (length (deck s)))
    s.
Proof.
  induction n as [|n IH]; intros opp po s E; cbn [drawUpTo].
  - apply wp_ret. repeat split. exists po. split; [exact E|]. simpl. lia.
  - apply wp_bind, wp_getState.
    destruct (Nat.ltb_spec 0 (length (deck s))) as [Hpos|Hzero].
    + apply wp_bind. unfold drawInto. apply wp_bind, wp_getPlayer.
      rewrite E. apply wp_bind, wp_getState. unfold pop.
      apply wp_bind, wp_modify. eapply wp_setHand; [exact E|].
      set (po1 := set_hand (push (hand po) (last (deck s) None)) po).
      set (s1 := set_players _ _).
      assert (E1 : lookup opp (players s1) = Some po1)
        by (apply lookup_update_same; exact E).
      eapply wp_conseq; [apply (IH opp po1 s1 E1)|].
      intros r s' (Hr & Ht & Hk & po' & E' & Hl).
      split; [exact Hr|]. split; [exact Ht|].
      split; [rewrite Hk; subst s1; cbn [players set_players];
              apply keys_update|].
      exists po'. split; [exact E'|]. rewrite Hl. subst po1 s1.
      cbn [hand set_hand deck set_players set_deck]. unfold push.
      rewrite length_app, removelast_length. simpl length. lia.
    + apply wp_bind, wp_ret.
      eapply wp_conseq; [apply (IH opp po s E)|].
      intros r s' (Hr & Ht & Hk & po' & E' & Hl).
      repeat split; try assumption. exists po'. split; [exact E'|].
      rewrite Hl. lia.
Qed.

Lemma findCardFrom_found cards : forall k c i,
  findCardFrom k cards c = Ok (Some i) ->
  k <= i < k + length cards
  /\ exists h, nth (i - k) cards None = Some h /\ sameCard h c = true.
Proof.
  induction cards as [|[h|] cards IH]; intros k c i H; simpl in H;
    try discriminate.
  destruct (sameCard h c) eqn:Hsame.
  - injection H as <-. split; [simpl; lia|]. rewrite Nat.sub_diag.
    exists h. now split.
  - destruct (IH _ _ _ H) as (Hb & h' & Hn & Hs).
    split; [simpl; lia|]. exists h'. split; [|exact Hs].
    replace (i - k) with (S (i - S k)) by lia. exact Hn.
Qed.

Lemma sameCard_type h c : sameCard h c = true -> type h = type c.
Proof.
  unfold sameCard. intros H.
  apply andb_true_iff in H as [H _]. apply andb_true_iff in H as [_ H].
  destruct (type h), (type c); (reflexivity || discriminate).
Qed.

Lemma wp_broadcastGameState Q s :
  (forall r, Q r s) -> wp broadcastGameState Q s.
Proof.
  intros H out. destruct (broadcastGameState_run s out) as (Hs & _).
  rewrite Hs. apply H.
Qed.

(** C4, the claim as stated, fails: with an empty deck the draw two that
    "alice" plays gives "bob" nothing. *)
Lemma draw_two_on_empty_deck :
  let s := table [Some redDrawTwo; Some red5] [] in
  let r := handlePlayCard 2000%Z "alice" redDrawTwo (s, []) in
  gamePhase s = Playing
  /\ isValidPlay (Some redDrawTwo) (topCard s) = Ok true
  /\ option_map (fun q => length (hand q)) (lookup "bob" (players s)) = Some 3
  /\ option_map (fun q => length (hand q))
       (lookup "bob" (players (stateAfter r))) = Some 3
  /\ currentTurn (stateAfter r) = Some "alice"%string.
Proof. vm_compute. repeat split. Qed.

(** C4, amended: between two players, when the player in turn plays a draw
    two that is legal and not the last card of the hand, the hand of the
    opponent grows by two cards, or by as many as the deck still has when
    it has fewer, and the turn comes back to the player. *)
Theorem draw_two_two_players now pid opp p po card i s out :
  keys (players s) = [pid; opp] \/ keys (players s) = [opp; pid] ->
  pid <> opp ->
  currentTurn s = Some pid ->
  lookup pid (players s) = Some p ->
  lookup opp (players s) = Some po ->
  findCardFrom 0 (hand p) card = Ok (Some i) ->
  type card = DrawTwo ->
  isValidPlay (Some card) (topCard s) = Ok true ->
  2 <= length (hand p) ->
  currentTurn (stateAfter (handlePlayCard now pid card (s, out))) = Some pid
  /\ exists po',
      lookup opp (players (stateAfter (handlePlayCard now pid card (s, out))))
      = Some po'
      /\ length (hand po')
         = length (hand po) + Nat.min 2 (length (deck s)).
Proof.
  intros K N Hc E Eo Hfind Htype Hvalid Hlen.
  destruct (findCardFrom_found _ _ _ Hfind) as (Hi & h & Hnth & Hsame).
  rewrite Nat.sub_0_r in Hnth.
  assert (Hh : type h = DrawTwo)
    by (rewrite (sameCard_type _ _ Hsame); exact Htype).
  assert (K' : keys (players s) = [opp; pid] \/ keys (players s) = [pid; opp])
    by tauto.
  enough (W : wp (handlePlayCard now pid card)
                (fun _ s' =>
                   currentTurn s' = Some pid
                   /\ exists po',
                       lookup opp (players s') = Some po'
                       /\ length (hand po')
                          = length (hand po) + Nat.min 2 (length (deck s)))
                s) by exact (W out).
  unfold handlePlayCard. apply wp_bind, wp_getState. unfold isTurn.
  rewrite Hc, String.eqb_refl. cbn [negb].
  apply wp_bind, wp_getPlayer. rewrite E.
  apply wp_bind, wp_liftRes. rewrite Hfind.
  apply wp_bind, wp_liftRes. rewrite Hvalid. cbn [negb].
  unfold playAt, splice1. rewrite Hnth.
  apply wp_bind. eapply wp_setHand; [exact E|].
  apply wp_bind, wp_modify.
  assert (Hrest : Nat.eqb (length (firstn i (hand p) ++ skipn (S i) (hand p)))
                    0 = false).
  { apply Nat.eqb_neq. rewrite length_app, length_firstn, length_skipn.
    simpl in Hi. lia. }
  rewrite Hrest. apply wp_bind. unfold applyCardEffects. rewrite Hh.
  apply wp_bind, wp_modify. apply wp_bind, wp_getState.
  match goal with |- wp _ _ (advanceTurn now ?st) => set (s1 := st) end.
  assert (T1 : currentTurn (advanceTurn now s1) = Some opp).
  { apply advance_two with (x := pid); [|exact N | exact Hc].
    subst s1. cbn [players set_discardPile set_topCard set_players].
    now rewrite keys_update. }
  rewrite T1.
  assert (Eo1 : lookup opp (players (advanceTurn now s1)) = Some po).
  { subst s1. cbn [players advanceTurn set_turnStartTime set_currentTurn
                   set_discardPile set_topCard set_players].
    rewrite lookup_update_other by exact N. exact Eo. }
  eapply wp_conseq; [apply (drawUpTo_grows 2 opp _ Eo1)|].
  intros r s2 (-> & Ht & Hk & po' & E' & Hl).
  apply wp_bind, wp_modify. apply wp_bind, wp_broadcastGameState.
  intros [[]|];
    [apply wp_bind, wp_getPlayer;
     match goal with
     | |- context [lookup pid ?ps] => destruct (lookup pid ps)
     end; [apply wp_emit|] |];
    (split;
    [ apply advance_two with (x := opp);
      [rewrite Hk; subst s1;
       cbn [players advanceTurn set_turnStartTime set_currentTurn
            set_discardPile set_topCard set_players];
       rewrite keys_update; exact K'
      | congruence
      | rewrite Ht; exact T1]
    | exists po'; split; [exact E'|]; rewrite Hl; reflexivity ]).
Qed.

(* ------------------------------------------------------------------ *)
(** ** C6: actions out of turn *)

(** [play_card], [draw_card] and [pass_turn] from a player who is not in
    turn change nothing and send nothing. *)
Lemma out_of_turn_ignored now rnd pid card s out :
  isTurn s pid = false ->
  handlePlayCard now pid card (s, out) = (Ok tt, (s, out))
  /\ handleDrawCard now rnd pid (s, out) = (Ok tt, (s, out))
  /\ handlePassTurn now pid (s, out) = (Ok tt, (s, out)).
Proof.
  intros T. unfold handlePlayCard, handleDrawCard, handlePassTurn. run.
  rewrite T. repeat split.
Qed.

(** C6: [call_uno] from "bob" while it is the turn of "alice".  The handler
    has no test of the turn: it sets the flag of "bob" and broadcasts the
    call to everybody. *)
Theorem call_uno_out_of_turn :
  let s := table [Some red5] [Some green1] in
  let r := handleCallUno "bob" (s, []) in
  isTurn s "bob" = false
  /\ option_map calledUno (lookup "bob" (players s)) = Some false
  /\ option_map calledUno (lookup "bob" (players (stateAfter r))) = Some true
  /\ outAfter r = [Broadcast (player_called_uno "bob" "Bob")].
Proof. vm_compute. repeat split. Qed.

(* ------------------------------------------------------------------ *)
(** ** C7: a rejected play *)

(** The search finds no card exactly when the hand, free of [undefined],
    holds no card with the colour, kind and value asked for. *)
Lemma findCardFrom_none cards c : forall k,
  cleanHand cards ->
  (findCardFrom k cards c = Ok None
   <-> forall h, In (Some h) cards -> sameCard h c = false).
Proof.
  induction cards as [|[h|] cards IH]; intros k Hc; simpl.
  - split; [intros _ h [] | reflexivity].
  - inversion Hc as [|? ? _ Hc']; subst.
    destruct (sameCard h c) eqn:S1.
    + split; [discriminate|]. intros H.
      rewrite (H h (or_introl eq_refl)) in S1. discriminate.
    + rewrite (IH (S k) Hc'). split.
      * intros H h' [[= <-]|Hin]; [exact S1 | now apply H].
      * intros H h' Hin. apply H. now right.
  - inversion Hc as [|? ? Hn _]; subst. now destruct Hn.
Qed.

(** C7: a [play_card] in turn that names a card the hand does not hold, or
    a card that [isValidPlay] rejects on the top card, leaves the state as
    it was and sends one [play_card_error], to the sender only. *)
Theorem play_card_rejected now pid p card s out :
  currentTurn s = Some pid ->
  lookup pid (players s) = Some p ->
  (findCardFrom 0 (hand p) card = Ok None ->
   handlePlayCard now pid card (s, out)
   = (Ok tt,
      (s, out ++ [BroadcastTo [pid]
                    (play_card_error card_not_owned None None)])))
  /\ (forall i,
        findCardFrom 0 (hand p) card = Ok (Some i) ->
        isValidPlay (Some card) (topCard s) = Ok false ->
        handlePlayCard now pid card (s, out)
        = (Ok tt,
           (s, out ++ [BroadcastTo [pid]
                         (play_card_error invalid_play (topCard s)
                            (Some card))]))).
Proof.
  intros Hc E. split.
  - intros Hf. unfold handlePlayCard. run. unfold isTurn.
    rewrite Hc, String.eqb_refl. cbn [negb].
    rewrite (@run_getPlayer _ pid p _ s out E). rewrite Hf. run.
    reflexivity.
  - intros i Hf Hv. unfold handlePlayCard. run. unfold isTurn.
    rewrite Hc, String.eqb_refl. cbn [negb].
    rewrite (@run_getPlayer _ pid p _ s out E). rewrite Hf. run.
    rewrite Hv. run. reflexivity.
Qed.

(* ------------------------------------------------------------------ *)
(** ** C8: the reshuffle *)

(** C8, the claim as stated, fails: [reshuffleDeck] replaces the deck by
    the discarded cards, so the cards still in the deck are lost.  Right
    after the start of a game, with 93 cards in the deck and one card
    discarded, it would leave one card in all. *)
Lemma reshuffle_drops_deck :
  let s := startedGame in
  let s' := reshuffleDeck noShuffle s in
  discardPile s <> []
  /\ length (deck s ++ discardPile s) = 94
  /\ length (deck s' ++ discardPile s') = 1
  /\ ~ Permutation (deck s' ++ discardPile s') (deck s ++ discardPile s).
Proof.
  cbv zeta. split; [vm_compute; discriminate|].
  split; [vm_compute; reflexivity|]. split; [vm_compute; reflexivity|].
  intros P. apply Permutation_length in P. vm_compute in P. discriminate P.
Qed.

(** On an empty deck [reshuffleDeck] keeps the entries of deck and discard
    pile together and leaves the last discarded card alone on the discard
    pile. *)
Lemma reshuffleDeck_empty_deck rnd s :
  deck s = [] ->
  discardPile s <> [] ->
  Permutation (deck (reshuffleDeck rnd s) ++ discardPile (reshuffleDeck rnd s))
    (deck s ++ discardPile s)
  /\ discardPile (reshuffleDeck rnd s) = [last (discardPile s) None].
Proof.
  intros D P. unfold reshuffleDeck, pop.
  cbn [deck discardPile set_deck set_discardPile]. rewrite D.
  split; [|reflexivity].
  rewrite shuffleDeck_perm. cbn [app].
  now rewrite <- app_removelast_last.
Qed.

(* ------------------------------------------------------------------ *)
(** ** C10: everybody leaves *)

Lemma keys_delete (V : Type) k (o : list (string * V)) q :
  In q (keys (delete k o)) -> In q (keys o) /\ q <> k.
Proof.
  unfold keys. induction o as [|[k' v] o IH]; simpl; [tauto|].
  destruct (String.eqb k' k) eqn:E.
  - intros H. destruct (IH H). auto.
  - intros [<-|H].
    + split; [now left|]. now apply String.eqb_neq.
    + destruct (IH H). auto.
Qed.

Lemma leaveLoop_run presences : forall s out,
  leaveLoop presences (s, out)
  = (Ok tt,
     (set_players
        (fold_left (fun ps pr => delete (p_userId pr) ps) presences (players s))
        s,
      out ++ map (fun pr => Broadcast (player_left (p_userId pr))) presences)).
Proof.
  induction presences as [|pr l IH]; intros s out; cbn [leaveLoop].
  - cbn [fold_left map]. rewrite app_nil_r. now destruct s.
  - run. rewrite IH. cbn [fold_left map players set_players].
    rewrite <- app_assoc. reflexivity.
Qed.

Lemma leave_all presences : forall (ps : list (PlayerId * Player)),
  (forall q, In q (keys ps) -> In q (map p_userId presences)) ->
  fold_left (fun ps pr => delete (p_userId pr) ps) presences ps = [].
Proof.
  induction presences as [|pr l IH]; intros ps H; cbn [fold_left].
  - destruct ps as [|[k v] ps]; [reflexivity|].
    destruct (H k (or_introl eq_refl)).
  - apply IH. intros q Hq. apply keys_delete in Hq as [Hin Hne].
    destruct (H q Hin) as [Heq|Hl]; [congruence | exact Hl].
Qed.

(** C10: when the players that leave together are all the players of a
    started match, the match goes to the phase [Finished] and a
    [game_ended] message is broadcast after the [player_left] messages; the
    final scores are empty and no winner is named. *)
Theorem all_players_leave presences s out :
  gameStarted s = true ->
  (forall q, In q (keys (players s)) -> In q (map p_userId presences)) ->
  matchLeave presences (s, out)
  = (Ok tt,
     (set_finalScores (Some []) (set_gamePhase Finished (set_players [] s)),
      out
      ++ map (fun pr => Broadcast (player_left (p_userId pr))) presences
      ++ [Broadcast (game_ended PlayerLeft None None [] None)])).
Proof.
  intros G H. unfold matchLeave.
  rewrite (@bind_ok _ _ _ _ _ _ _ (leaveLoop_run presences s out)).
  rewrite (leave_all presences (players s) H). run.
  cbn [players set_players keys map length Nat.ltb Nat.leb gameStarted].
  rewrite G. cbn [andb]. run. unfold emit. cbn [fst snd].
  now rewrite <- app_assoc.
Qed.

Lemma all_players_leave_witness :
  matchLeave [bob; alice] (table [Some red5] [Some green1], [])
  = (Ok tt,
     (set_finalScores (Some [])
        (set_gamePhase Finished
           (set_players [] (table [Some red5] [Some green1]))),
      []
      ++ map (fun pr => Broadcast (player_left (p_userId pr))) [bob; alice]
      ++ [Broadcast (game_ended PlayerLeft None None [] None)])).
Proof.
  apply (@all_players_leave [bob; alice] (table [Some red5] [Some green1]) []).
  - reflexivity.
  - simpl. intuition.
Defined.

(** The forfeit of the specification, for comparison: one of two players
    leaves and the other is awarded 100 points. *)
Example one_player_leaves :
  let r := matchLeave [bob] (table [Some red5] [Some green1], []) in
  gamePhase (stateAfter r) = Finished
  /\ option_map (map (fun kv => (fst kv, sr_score (snd kv), sr_reason (snd kv))))
       (finalScores (stateAfter r))
     = Some [("alice"%string, 100%Z, OpponentLeft)].
Proof. vm_compute. repeat split. Qed.

(* ------------------------------------------------------------------ *)
(** ** The theorems at work on the table of "alice" and "bob" *)

Lemma empty_hand_ends_game_witness :
  let r := handlePlayCard 2000%Z "alice" red5
             (table [Some red5] [Some green1], []) in
  endedFor "alice" "Alice"
    (played "alice" [] (Some red5) (table [Some red5] [Some green1])) [] r
  /\ currentTurn
       (stateAfter
          (handleDrawCard 3000%Z noShuffle "alice" (stateAfter r, [])))
     <> Some "alice"%string.
Proof.
  pose proof
    (proj1
       (@empty_hand_ends_game 2000%Z noShuffle "alice"
          (mkPlayer "alice" "Alice" [Some red5] false false 0%Z)
          red5 red5 (table [Some red5] [Some green1]) []
          eq_refl eq_refl eq_refl
          ltac:(repeat constructor; discriminate)
          ltac:(repeat constructor; simpl; intuition discriminate))
       eq_refl eq_refl) as H.
  cbv zeta in H |- *. destruct H as (H1 & _ & H3).
  split; [exact H1|].
  exact (proj2 (proj2 (H3 3000%Z noShuffle [])) ltac:(simpl; lia)).
Defined.

Lemma draw_two_two_players_witness :
  let s := table [Some redDrawTwo; Some red5] [Some green1; Some blue7] in
  let r := handlePlayCard 2000%Z "alice" redDrawTwo (s, []) in
  currentTurn (stateAfter r) = Some "alice"%string
  /\ exists po',
      lookup "bob" (players (stateAfter r)) = Some po'
      /\ length (hand po') = 3 + Nat.min 2 2.
Proof.
  refine (@draw_two_two_players 2000%Z "alice" "bob"
            (mkPlayer "alice" "Alice" [Some redDrawTwo; Some red5]
               false false 0%Z)
            (mkPlayer "bob" "Bob" [Some blue7; Some redSkip; Some wildCard]
               false false 0%Z)
            redDrawTwo 0
            (table [Some redDrawTwo; Some red5] [Some green1; Some blue7]) []
            (or_introl eq_refl) _ eq_refl eq_refl eq_refl eq_refl eq_refl
            eq_refl _).
  - discriminate.
  - simpl. lia.
Defined.

Lemma play_card_rejected_witness :
  handlePlayCard 2000%Z "alice" blue7 (table [Some red5] [], [])
  = (Ok tt,
     (table [Some red5] [],
      [] ++ [BroadcastTo ["alice"%string]
               (play_card_error card_not_owned None None)])).
Proof.
  exact (proj1
           (@play_card_rejected 2000%Z "alice"
              (mkPlayer "alice" "Alice" [Some red5] false false 0%Z)
              blue7 (table [Some red5] []) [] eq_refl eq_refl)
           eq_refl).
Defined.

Lemma draw_from_exhausted_deck_witness :
  resultOf (handleDrawCard 2000%Z noShuffle "alice" (table [Some blue7] [], []))
  = Throw
  /\ resultOf
       (processMessage 2000%Z noShuffle (mkMessage "alice" draw_card)
          (table [Some blue7] [], []))
     = Ok tt.
Proof.
  pose proof
    (@draw_from_exhausted_deck 2000%Z noShuffle "alice"
       (mkPlayer "alice" "Alice" [Some blue7] false false 0%Z)
       (Some red3) red3 (table [Some blue7] []) []
       eq_refl eq_refl eq_refl eq_refl eq_refl) as H.
  cbv zeta in H. destruct H as ((H1 & _) & (H2 & _) & _).
  split; [exact H1 | exact H2].
Defined.

(** The start of a match as the specification describes it: two players
    join, each is dealt seven cards, one card is flipped and 93 stay in the
    deck, the first to have joined is in turn. *)
Example two_players_start :
  let r := matchJoin 1000%Z noShuffle [alice; bob] (matchInit, []) in
  resultOf r = Ok tt
  /\ map (fun kv => length (hand (snd kv))) (players (stateAfter r)) = [7; 7]
  /\ length (deck (stateAfter r)) = 93
  /\ discardPile (stateAfter r) = [topCard (stateAfter r)]
  /\ gamePhase (stateAfter r) = Playing
  /\ currentTurn (stateAfter r) = Some "alice"%string.
Proof. vm_compute. repeat split. Qed.

(** A skip between two players brings the turn back to who played it. *)
Example skip_returns_turn :
  let r := handlePlayCard 2000%Z "alice" redSkip
             (table [Some redSkip; Some red5] [Some green1], []) in
  resultOf r = Ok tt /\ currentTurn (stateAfter r) = Some "alice"%string.
Proof. vm_compute. repeat split. Qed.

(* ------------------------------------------------------------------ *)
(** ** Further properties: shuffle, legality, message loop, timer *)

(** X1: whatever the random source answers, [shuffleDeck] rearranges the
    deck: the result is a permutation of the array it was given, of the
    same length, with the same entries. *)
Theorem shuffleDeck_rearranges (A : Type) rnd (l : list (option A)) :
  Permutation (shuffleDeck rnd l) l
  /\ length (shuffleDeck rnd l) = length l
  /\ forall x, In x (shuffleDeck rnd l) <-> In x l.
Proof.
  pose proof (shuffleDeck_perm rnd l) as P.
  split; [exact P|]. split; [now apply Permutation_length|].
  intros x. split; apply Permutation_in;
    [exact P | now apply Permutation_sym].
Qed.

Lemma Color_eqb_sym a b : Color_eqb a b = Color_eqb b a.
Proof. destruct a, b; reflexivity. Qed.

Lemma CardType_eqb_sym a b : CardType_eqb a b = CardType_eqb b a.
Proof. destruct a, b; reflexivity. Qed.

Lemma value_eqb_sym a b : value_eqb a b = value_eqb b a.
Proof. destruct a, b; simpl; try reflexivity. apply Z.eqb_sym. Qed.

Lemma Color_eqb_refl a : Color_eqb a a = true.
Proof. now destruct a. Qed.

(** X2: between two cards that are not wild, legality does not depend on
    which of the two is on top; and a card is always playable on a card of
    its own colour, so on a copy of itself. *)
Theorem isValidPlay_symmetric c t :
  isWildType (type c) = false ->
  isWildType (type t) = false ->
  isValidPlay (Some c) (Some t) = isValidPlay (Some t) (Some c)
  /\ isValidPlay (Some c) (Some c) = Ok true
  /\ (color c = color t -> isValidPlay (Some c) (Some t) = Ok true).
Proof.
  intros Wc Wt. unfold isValidPlay. rewrite Wc, Wt. repeat split.
  - rewrite (Color_eqb_sym (color c)), (value_eqb_sym (value c)).
    rewrite (CardType_eqb_sym (type c) (type t)).
    destruct (CardType_eqb (type t) (type c)) eqn:E; [|reflexivity].
    assert (type t = type c)
      by (destruct (type t), (type c); (reflexivity || discriminate)).
    congruence.
  - now rewrite Color_eqb_refl.
  - intros ->. now rewrite Color_eqb_refl.
Qed.

Lemma isValidPlay_symmetric_witness :
  isValidPlay (Some redSkip) (Some blueReverse)
  = isValidPlay (Some blueReverse) (Some redSkip)
  /\ isValidPlay (Some redSkip) (Some redSkip) = Ok true
  /\ (color redSkip = color blueReverse ->
      isValidPlay (Some redSkip) (Some blueReverse) = Ok true).
Proof.
  apply (@isValidPlay_symmetric redSkip blueReverse); reflexivity.
Defined.

(** X3: the message loop never raises, whatever the messages; a payload
    that does not parse and a message of unknown type leave the state and
    the messages sent as they were. *)
Theorem message_loop_never_raises now rnd :
  (forall l s out, resultOf (processMessages now rnd l (s, out)) = Ok tt)
  /\ (forall q s out,
        processMessage now rnd (mkMessage q unparseable) (s, out)
        = (Ok tt, (s, out)))
  /\ (forall q s out,
        processMessage now rnd (mkMessage q unknown_type) (s, out)
        = (Ok tt, (s, out))).
Proof.
  split; [|split; reflexivity].
  induction l as [|m l IH]; intros s out; cbn [processMessages];
    [reflexivity|].
  unfold bind. unfold processMessage at 1. unfold tryCatch at 1.
  destruct (snd _) as [s' out']. apply IH.
Qed.

(** X4: outside the phase [Playing] the timer part of [matchLoop] does
    nothing: no [timer_update], no forced move. *)
Theorem timer_idle_outside_playing now rnd s out :
  gamePhase s <> Playing ->
  timerCheck now rnd (s, out) = (Ok tt, (s, out)).
Proof.
  intros H. unfold timerCheck. run.
  destruct (gamePhase s); try reflexivity. now destruct H.
Qed.

Lemma timer_idle_outside_playing_witness :
  timerCheck 99000%Z noShuffle
    (set_gamePhase Ended (table [Some red5] [Some green1]), [])
  = (Ok tt, (set_gamePhase Ended (table [Some red5] [Some green1]), [])).
Proof.
  apply (@timer_idle_outside_playing 99000%Z noShuffle
           (set_gamePhase Ended (table [Some red5] [Some green1])) []).
  discriminate.
Defined.

(** X5: while the turn has lasted less than the limit, the timer part only
    broadcasts a [timer_update] for the player in turn; the time it shows
    is the limit minus the whole seconds elapsed, never below 0 and, once
    the clock has reached the start of the turn, never above the limit. *)
Theorem timer_before_limit now rnd cur start s out :
  gamePhase s = Playing ->
  currentTurn s = Some cur ->
  cur <> ""%string ->
  turnStartTime s = Some start ->
  start <> 0%Z ->
  (now - start < turnTimeLimit s * 1000)%Z ->
  let remaining := Z.max 0 (turnTimeLimit s - (now - start) / 1000) in
  timerCheck now rnd (s, out)
  = (Ok tt, (s, out ++ [Broadcast (timer_update cur remaining)]))
  /\ (0 <= remaining)%Z
  /\ (start <= now -> 0 <= turnTimeLimit s -> remaining <= turnTimeLimit s)%Z.
Proof.
  intros Hph Hc Hid Hst Hs0 Hlim remaining. split; [|split].
  - unfold timerCheck. run. rewrite Hph, Hc, Hst.
    unfold truthyId, truthyNum.
    apply String.eqb_neq in Hid. rewrite Hid.
    apply Z.eqb_neq in Hs0. rewrite Hs0. cbn [negb andb]. run.
    apply Z.leb_gt in Hlim. rewrite Hlim. reflexivity.
  - subst remaining. lia.
  - intros Hn Hl. subst remaining.
    assert (0 <= (now - start) / 1000)%Z by (apply Z.div_pos; lia). lia.
Qed.

Lemma timer_before_limit_witness :
  timerCheck 4500%Z noShuffle (table [Some red5] [Some green1], [])
  = (Ok tt,
     (table [Some red5] [Some green1],
      [] ++ [Broadcast (timer_update "alice" 12%Z)])).
Proof.
  refine (proj1
            (@timer_before_limit 4500%Z noShuffle "alice" 1000%Z
               (table [Some red5] [Some green1]) []
               eq_refl eq_refl _ eq_refl _ eq_refl)); discriminate.
Defined.

(* ------------------------------------------------------------------ *)
(** ** Further properties: leaving, scores, actions out of turn *)

(** X6: when one of the two players of a started match leaves, the match
    goes to [Finished], the player who stays is the winner with 100 points
    and the reason [OpponentLeft], whatever the hands, and [game_ended]
    names that player. *)
Theorem forfeit_two_players a b pa pb name s out :
  players s = [(a, pa); (b, pb)] ->
  a <> b ->
  gameStarted s = true ->
  matchLeave [mkPresence b name] (s, out)
  = (Ok tt,
     (set_finalScores
        (Some [(a, mkScore a (username pa) 100%Z Winner OpponentLeft)])
        (set_gamePhase Finished (set_players [(a, pa)] s)),
      out
      ++ [Broadcast (player_left b);
          Broadcast
            (game_ended PlayerLeft None None
               [(a, mkScore a (username pa) 100%Z Winner OpponentLeft)]
               (Some a))]))
  /\ matchLeave [mkPresence a name] (s, out)
     = (Ok tt,
        (set_finalScores
           (Some [(b, mkScore b (username pb) 100%Z Winner OpponentLeft)])
           (set_gamePhase Finished (set_players [(b, pb)] s)),
         out
         ++ [Broadcast (player_left a);
             Broadcast
               (game_ended PlayerLeft None None
                  [(b, mkScore b (username pb) 100%Z Winner OpponentLeft)]
                  (Some b))])).
Proof.
  intros Hp N G.
  assert (Nab : String.eqb a b = false) by now apply String.eqb_neq.
  assert (Nba : String.eqb b a = false)
    by (apply String.eqb_neq; congruence).
  split; unfold matchLeave;
    rewrite (@bind_ok _ _ _ _ _ _ _ (leaveLoop_run _ s out));
    cbn [fold_left map p_userId]; rewrite Hp; cbn [delete];
    rewrite ?String.eqb_refl, ?Nab, ?Nba; cbn [delete]; run;
    cbn [players set_players keys map length Nat.ltb Nat.leb gameStarted fst];
    rewrite G; cbn [andb]; run; unfold emit; cbn [fst snd];
    now rewrite <- app_assoc.
Qed.

Lemma forfeit_two_players_witness :
  gamePhase
    (stateAfter (matchLeave [bob] (table [Some red5] [Some green1], [])))
  = Finished.
Proof.
  unfold bob.
  rewrite (proj1
             (@forfeit_two_players "alice" "bob"
                (mkPlayer "alice" "Alice" [Some red5] false false 0%Z)
                (mkPlayer "bob" "Bob" [Some blue7; Some redSkip; Some wildCard]
                   false false 0%Z)
                "Bob" (table [Some red5] [Some green1]) []
                eq_refl ltac:(discriminate) eq_refl)).
  reflexivity.
Defined.

(** X7: a leave in a match that has not started only removes the leavers
    and broadcasts their [player_left]: the phase stays, no score is
    stored and no [game_ended] goes out. *)
Theorem leave_before_start presences s out :
  gameStarted s = false ->
  matchLeave presences (s, out)
  = (Ok tt,
     (set_players
        (fold_left (fun ps pr => delete (p_userId pr) ps) presences (players s))
        s,
      out ++ map (fun pr => Broadcast (player_left (p_userId pr))) presences)).
Proof.
  intros G. unfold matchLeave.
  rewrite (@bind_ok _ _ _ _ _ _ _ (leaveLoop_run presences s out)). run.
  cbn [gameStarted set_players]. rewrite G, andb_false_r. reflexivity.
Qed.

Lemma leave_before_start_witness :
  matchLeave [bob] (oneJoined, [])
  = (Ok tt,
     (set_players
        (fold_left (fun ps pr => delete (p_userId pr) ps) [bob]
           (players oneJoined))
        oneJoined,
      [] ++ map (fun pr => Broadcast (player_left (p_userId pr))) [bob])).
Proof.
  apply (@leave_before_start [bob] oneJoined []). reflexivity.
Defined.

Lemma lookup_NoDup (V : Type) k (v : V) o :
  NoDup (keys o) -> In (k, v) o -> lookup k o = Some v.
Proof.
  unfold keys. induction o as [|[k' v'] o IH]; simpl; [tauto|].
  intros Hnd [E|Hin].
  - injection E as -> ->. now rewrite String.eqb_refl.
  - inversion Hnd as [|? ? Hnot Hnd']; subst.
    destruct (String.eqb k' k) eqn:E; [|now apply IH].
    apply String.eqb_eq in E. subst k'. destruct Hnot.
    apply (in_map fst) in Hin. exact Hin.
Qed.

Lemma lookup_absent (V : Type) k (o : list (string * V)) :
  ~ In k (keys o) -> lookup k o = None.
Proof.
  intros H. destruct (lookup k o) as [v|] eqn:E; [|reflexivity].
  destruct H. eapply lookup_Some_In. exact E.
Qed.

Lemma sum_scoreBySpec winnerId T ps :
  NoDup (keys ps) ->
  fold_right
    (fun kv acc =>
       ((if String.eqb (fst kv) winnerId then 100 + T
         else - handPoints (defined (hand (snd kv)))) + acc)%Z)
    0%Z ps
  = ((match lookup winnerId ps with Some _ => 100 + T | None => 0 end)
     - othersPoints winnerId ps)%Z.
Proof.
  unfold keys. induction ps as [|[k pl] ps IH]; intros Hnd; [reflexivity|].
  inversion Hnd as [|? ? Hnot Hnd']; subst.
  cbn [fold_right lookup othersPoints fst snd]. rewrite (IH Hnd').
  fold (othersPoints winnerId ps).
  destruct (String.eqb k winnerId) eqn:E.
  - apply String.eqb_eq in E. subst k.
    rewrite (lookup_absent winnerId ps Hnot). lia.
  - lia.
Qed.

(** X8: the scores that [endGame] stores always add up to 100: what the
    winner gets above 100 is what the other players lose. *)
Theorem final_scores_sum winnerId w s out :
  lookup winnerId (players s) = Some w ->
  allClean (players s) ->
  NoDup (keys (players s)) ->
  exists fs,
    finalScores (stateAfter (endGame winnerId (s, out))) = Some fs
    /\ map fst fs = keys (players s)
    /\ sumScores fs = 100%Z.
Proof.
  intros E Hc Hnd. rewrite (@endGame_run winnerId w s out E Hc Hnd).
  eexists. split; [reflexivity|]. split.
  - unfold finalScoresOf, keys. rewrite map_map. reflexivity.
  - assert (G : forall ps',
               (forall k pl, In (k, pl) ps' -> lookup k (players s) = Some pl) ->
               sumScores
                 (finalScoresOf winnerId ps' (scoresOf winnerId (players s)))
               = fold_right
                   (fun kv acc =>
                      ((if String.eqb (fst kv) winnerId
                        then 100 + othersPoints winnerId (players s)
                        else - handPoints (defined (hand (snd kv)))) + acc)%Z)
                   0%Z ps').
    { induction ps' as [|[k pl] ps' IH]; intros H; [reflexivity|].
      cbn [finalScoresOf map sumScores fold_right fst snd sr_score].
      rewrite (@scoreOf_scoresOf winnerId (players s) k pl
                 (H k pl (or_introl eq_refl))).
      unfold scoreBySpec. f_equal. apply IH.
      intros k' pl' Hin. apply H. now right. }
    rewrite G by (intros k pl Hin; now apply lookup_NoDup).
    rewrite (@sum_scoreBySpec winnerId _ (players s) Hnd), E. lia.
Qed.

Lemma final_scores_sum_witness :
  exists fs,
    finalScores (stateAfter (endGame "alice" (table [] [Some green1], [])))
    = Some fs
    /\ map fst fs = keys (players (table [] [Some green1]))
    /\ sumScores fs = 100%Z.
Proof.
  apply (@final_scores_sum "alice"
           (mkPlayer "alice" "Alice" [] false false 0%Z)
           (table [] [Some green1]) []).
  - reflexivity.
  - repeat constructor; discriminate.
  - repeat constructor; simpl; intuition discriminate.
Defined.

(** X9: a [play_card], [draw_card] or [pass_turn] message from anybody who
    is not the player in turn goes through the message loop without a
    trace: same state, nothing sent, no error. *)
Theorem out_of_turn_message_dropped now rnd q payload s out :
  isTurn s q = false ->
  (exists c, payload = play_card c) \/ payload = draw_card
  \/ payload = pass_turn ->
  processMessage now rnd (mkMessage q payload) (s, out) = (Ok tt, (s, out)).
Proof.
  intros T H. unfold processMessage, tryCatch. cbn [data sender].
  destruct H as [[c ->]|[->| ->]].
  - now rewrite (proj1 (@out_of_turn_ignored now rnd q c s out T)).
  - now rewrite (proj1 (proj2 (@out_of_turn_ignored now rnd q red3 s out T))).
  - now rewrite (proj2 (proj2 (@out_of_turn_ignored now rnd q red3 s out T))).
Qed.

Lemma out_of_turn_message_dropped_witness :
  processMessage 2000%Z noShuffle (mkMessage "bob" draw_card)
    (table [Some red5] [Some green1], [])
  = (Ok tt, (table [Some red5] [Some green1], [])).
Proof.
  apply (@out_of_turn_message_dropped 2000%Z noShuffle "bob" draw_card
           (table [Some red5] [Some green1]) []).
  - reflexivity.
  - right. left. reflexivity.
Defined.

(* ------------------------------------------------------------------ *)
(** ** Further properties: playable cards and the broadcast of a state *)

Lemma validOn_true top c : validOn top c = true <-> isValidPlay c top = Ok true.
Proof.
  unfold validOn. destruct (isValidPlay c top) as [[|]|]; split;
    (reflexivity || discriminate).
Qed.

Lemma filter_seq_first f a n i rest :
  filter f (seq a n) = i :: rest ->
  a <= i < a + n /\ f i = true /\ forall j, a <= j < i -> f j = false.
Proof.
  revert a; induction n as [|n IH]; intros a H; [discriminate|].
  cbn [seq filter] in H. destruct (f a) eqn:E.
  - injection H as <- _. repeat split; try lia. exact E.
  - destruct (IH _ H) as (Hb & Hi & Hj).
    repeat split; try lia; [exact Hi|].
    intros j Hr. destruct (Nat.eq_dec j a) as [->|N]; [exact E|].
    apply Hj. lia.
Qed.

Lemma playableFrom_filter cards t : forall k,
  cleanHand cards ->
  playableFrom k cards (Some t)
  = Ok (filter (fun i => validOn (Some t) (nth (i - k) cards None))
          (seq k (length cards))).
Proof.
  induction cards as [|[c|] cards IH]; intros k H; cbn [playableFrom].
  - reflexivity.
  - inversion H as [|? ? _ H']; subst. rewrite (IH (S k) H').
    cbn [length seq filter].
    assert (E : filter
                  (fun i => validOn (Some t) (nth (i - k) (Some c :: cards) None))
                  (seq (S k) (length cards))
                = filter (fun i => validOn (Some t) (nth (i - S k) cards None))
                    (seq (S k) (length cards))).
    { apply filter_ext_in. intros i Hi. apply in_seq in Hi.
      replace (i - k) with (S (i - S k)) by lia. reflexivity. }
    rewrite E, Nat.sub_diag. cbn [nth]. unfold validOn.
    destruct (isValidPlay (Some c) (Some t)) as [[|]|] eqn:V; try reflexivity.
    unfold isValidPlay in V. destruct (isWildType (type c)); discriminate.
  - inversion H as [|? ? Hn _]; subst. now destruct Hn.
Qed.

Lemma getPlayableCards_clean s pid p :
  lookup pid (players s) = Some p ->
  cleanHand (hand p) ->
  getPlayableCards s pid = Ok (playableIndices (hand p) (topCard s)).
Proof.
  intros E H. unfold getPlayableCards, playableIndices. rewrite E.
  destruct (topCard s) as [t|]; [|reflexivity].
  rewrite (playableFrom_filter t 0 H). f_equal.
  apply filter_ext. intros i. now rewrite Nat.sub_0_r.
Qed.

(** X10: for a player whose hand holds no [undefined] entry,
    [getPlayableCards] returns the indices of the hand, in hand order, of
    the cards that [isValidPlay] accepts on the top card, so that the first
    index returned is the first legal card of the hand; without a top card
    it returns no index, and for an unknown player it raises. *)
Theorem getPlayableCards_indices s pid p :
  lookup pid (players s) = Some p ->
  cleanHand (hand p) ->
  getPlayableCards s pid = Ok (playableIndices (hand p) (topCard s))
  /\ (topCard s = None -> playableIndices (hand p) (topCard s) = [])
  /\ (forall t i,
        topCard s = Some t ->
        (In i (playableIndices (hand p) (topCard s))
         <-> i < length (hand p)
             /\ isValidPlay (nth i (hand p) None) (Some t) = Ok true))
  /\ (forall i rest,
        playableIndices (hand p) (topCard s) = i :: rest ->
        forall j, j < i -> validOn (topCard s) (nth j (hand p) None) = false)
  /\ (forall q, lookup q (players s) = None -> getPlayableCards s q = Throw).
Proof.
  intros E H. split; [now apply getPlayableCards_clean|].
  split; [now intros ->|]. split; [|split].
  - intros t i Ht. rewrite Ht. unfold playableIndices.
    rewrite filter_In, in_seq, validOn_true. intuition lia.
  - intros i rest Hl j Hj. unfold playableIndices in Hl.
    destruct (topCard s) as [t|]; [|discriminate].
    apply filter_seq_first in Hl as (_ & _ & Hl). apply Hl. lia.
  - intros q Hq. unfold getPlayableCards. now rewrite Hq.
Qed.

Lemma getPlayableCards_indices_witness :
  getPlayableCards (table [Some blue7; Some red5; Some wildCard] []) "alice"
  = Ok [1; 2].
Proof.
  exact (proj1
           (@getPlayableCards_indices
              (table [Some blue7; Some red5; Some wildCard] []) "alice"
              (mkPlayer "alice" "Alice" [Some blue7; Some red5; Some wildCard]
                 false false 0%Z)
              eq_refl
              ltac:(repeat constructor; discriminate))).
Defined.

Lemma sendHands_clean_run s : forall ps' out,
  (forall k pl, In (k, pl) ps' ->
     lookup k (players s) = Some pl /\ cleanHand (hand pl)) ->
  sendHands (keys ps') (s, out)
  = (Ok tt, (s, out ++ map (handMessage (topCard s)) ps')).
Proof.
  induction ps' as [|[k pl] ps' IH]; intros out H; cbn [keys map fst sendHands].
  - now rewrite app_nil_r.
  - destruct (H k pl (or_introl eq_refl)) as (E & Hc).
    rewrite (@run_getPlayer _ k pl _ s out E). run.
    rewrite (getPlayableCards_clean s k E Hc). run.
    fold (keys ps'). rewrite IH by (intros k' pl' Hin; apply H; now right).
    unfold handMessage at 2. cbn [fst snd]. now rewrite <- app_assoc.
Qed.

Lemma broadcastGameState_clean_run s out :
  NoDup (keys (players s)) ->
  allClean (players s) ->
  broadcastGameState (s, out)
  = (Ok tt,
     (s,
      out ++ Broadcast (game_state (snapshot s))
             :: map (handMessage (topCard s)) (players s))).
Proof.
  intros Hnd Hc. unfold broadcastGameState. run.
  rewrite sendHands_clean_run.
  - now rewrite <- app_assoc.
  - intros k pl Hin. split; [now apply lookup_NoDup|].
    unfold allClean in Hc. rewrite Forall_forall in Hc.
    exact (Hc (k, pl) Hin).
Qed.

(** X11: with no [undefined] entry in any hand, [broadcastGameState] leaves
    the state alone, returns, and sends first the [game_state] message and
    then one [player_hand] message per player in turn order.  Every one of
    them goes to all participants: each player's hand and playable indices
    reach the opponent too. *)
Theorem broadcastGameState_sends s out :
  NoDup (keys (players s)) ->
  allClean (players s) ->
  broadcastGameState (s, out)
  = (Ok tt,
     (s,
      out ++ Broadcast (game_state (snapshot s))
             :: map (handMessage (topCard s)) (players s)))
  /\ player_hands (snapshot s)
     = map (fun kv => (fst kv, hand (snd kv))) (players s).
Proof.
  intros Hnd Hc. split; [|reflexivity].
  now apply broadcastGameState_clean_run.
Qed.

Lemma broadcastGameState_sends_witness :
  outAfter (broadcastGameState (table [Some red5] [], []))
  = [] ++ Broadcast (game_state (snapshot (table [Some red5] [])))
          :: map (handMessage (topCard (table [Some red5] [])))
               (players (table [Some red5] [])).
Proof.
  rewrite (proj1 (@broadcastGameState_sends (table [Some red5] []) []
                    ltac:(repeat constructor; simpl; intuition discriminate)
                    ltac:(repeat constructor; discriminate))).
  reflexivity.
Defined.

(* ------------------------------------------------------------------ *)
(** ** Properties kept by the handlers, in general *)

Section Kept.
Variable I : State -> Prop.

Lemma holds_ret {A} (a : A) : holds I (ret a).
Proof. intros s H. now apply wp_ret. Qed.

Lemma holds_throw {A} : holds I (@throw A).
Proof. intros s H. now apply wp_throw. Qed.

Lemma holds_liftRes {A} (r : Res A) : holds I (liftRes r).
Proof. intros s H. now apply wp_liftRes. Qed.

Lemma holds_bind {A B} (m : M A) (f : A -> M B) :
  holds I m -> (forall a, holds I (f a)) -> holds I (bind m f).
Proof.
  intros Hm Hf s H. apply wp_bind.
  eapply wp_conseq; [apply Hm, H|].
  intros [a|] s' H'; [apply Hf, H' | exact H'].
Qed.

Lemma holds_getState : holds I getState.
Proof. intros s H. now apply wp_getState. Qed.

Lemma holds_emit o : holds I (emit o).
Proof. intros s H. now apply wp_emit. Qed.

Lemma holds_emitAll l : holds I (emitAll l).
Proof.
  induction l as [|o l IH]; simpl; [apply holds_ret|].
  apply holds_bind; [apply holds_emit | intros _; exact IH].
Qed.

Lemma holds_modify f : (forall s, I s -> I (f s)) -> holds I (modify f).
Proof. intros Hf s H. apply wp_modify. now apply Hf. Qed.

Lemma holds_tryCatch m : holds I m -> holds I (tryCatch m).
Proof. intros Hm s H. apply wp_tryCatch. now apply Hm. Qed.

Lemma holds_getPlayer playerId : holds I (getPlayer playerId).
Proof.
  intros s H. apply wp_getPlayer.
  destruct playerId as [pid|]; [destruct (lookup pid (players s))|]; exact H.
Qed.

Lemma holds_broadcastGameState : holds I broadcastGameState.
Proof. intros s H. apply wp_broadcastGameState. intros _. exact H. Qed.

(** The moves the effects of a card are made of. *)
Hypothesis I_advance : forall now s, I s -> I (advanceTurn now s).
Hypothesis I_reverse :
  forall s, I s -> I (set_direction (direction s * -1)%Z s).
Hypothesis I_draw :
  forall pid p s,
    lookup pid (players s) = Some p ->
    I s ->
    I (set_players
         (update pid (set_hand (push (hand p) (last (deck s) None))) (players s))
         (set_deck (removelast (deck s)) s)).
Hypothesis I_phase : forall ph s, I s -> I (set_gamePhase ph s).
Hypothesis I_scores : forall fs s, I s -> I (set_finalScores fs s).

Lemma holds_drawInto playerId : holds I (drawInto playerId).
Proof.
  intros s H. unfold drawInto. apply wp_bind, wp_getPlayer.
  destruct playerId as [pid|]; [|exact H].
  destruct (lookup pid (players s)) as [p|] eqn:E; [|exact H].
  apply wp_bind, wp_getState. unfold pop.
  apply wp_bind, wp_modify. eapply wp_setHand; [exact E|].
  exact (@I_draw pid p s E H).
Qed.

Lemma holds_drawUpTo n playerId : holds I (drawUpTo n playerId).
Proof.
  induction n as [|n IH]; simpl; [apply holds_ret|].
  apply holds_bind; [apply holds_getState | intros s].
  apply holds_bind; [|intros _; exact IH].
  destruct (Nat.ltb 0 (length (deck s)));
    [apply holds_drawInto | apply holds_ret].
Qed.

Lemma holds_applyCardEffects now card : holds I (applyCardEffects now card).
Proof.
  unfold applyCardEffects. destruct card as [c|]; [|apply holds_throw].
  destruct (type c).
  - apply holds_ret.
  - apply holds_modify, I_advance.
  - apply holds_modify, I_reverse.
  - apply holds_bind; [apply holds_modify, I_advance | intros _].
    apply holds_bind; [apply holds_getState | intros s].
    apply holds_drawUpTo.
  - apply holds_ret.
  - apply holds_bind; [apply holds_modify, I_advance | intros _].
    apply holds_bind; [apply holds_getState | intros s].
    apply holds_drawUpTo.
Qed.

Lemma holds_endGame winnerId : holds I (endGame winnerId).
Proof.
  unfold endGame.
  apply holds_bind; [apply holds_modify, I_phase | intros _].
  apply holds_bind; [apply holds_getState | intros s].
  apply holds_bind; [apply holds_liftRes | intros st].
  apply holds_bind; [apply holds_emitAll | intros _].
  apply holds_bind; [apply holds_modify, I_scores | intros _].
  apply holds_bind; [apply holds_getPlayer | intros w]. apply holds_emit.
Qed.

Lemma holds_afterDraw now playerId event :
  holds I (afterDraw now playerId event).
Proof.
  unfold afterDraw.
  apply holds_bind; [apply holds_modify, I_advance | intros _].
  apply holds_bind; [apply holds_broadcastGameState | intros _].
  apply holds_bind; [apply holds_getPlayer | intros p]. apply holds_emit.
Qed.

(** What follows, in [playAt], the move of the card to the discard pile. *)
Lemma holds_afterPlay now playerId playedCard (b : bool)
  (event : PlayerId -> slot -> nat -> Msg) :
  holds I
    (if b then endGame playerId
     else
       applyCardEffects now playedCard ;;
       modify (advanceTurn now) ;;
       broadcastGameState ;;
       p <- getPlayer (Some playerId) ;;
       emit (Broadcast (event playerId playedCard (length (hand p))))).
Proof.
  destruct b; [apply holds_endGame|].
  apply holds_bind; [apply holds_applyCardEffects | intros _].
  apply holds_bind; [apply holds_modify, I_advance | intros _].
  apply holds_bind; [apply holds_broadcastGameState | intros _].
  apply holds_bind; [apply holds_getPlayer | intros p]. apply holds_emit.
Qed.

(** The moves the handlers add: a card played, a reshuffle, a call. *)
Hypothesis I_turn :
  forall s pid, I s -> currentTurn s = Some pid ->
  exists p, lookup pid (players s) = Some p.
Hypothesis I_play :
  forall pid p i h s,
    lookup pid (players s) = Some p ->
    nth i (hand p) None = Some h ->
    I s ->
    I (played pid (firstn i (hand p) ++ skipn (S i) (hand p)) (Some h) s).
Hypothesis I_reshuffle :
  forall rnd s, deck s = [] -> I s -> I (reshuffleDeck rnd s).
Hypothesis I_uno :
  forall pid s,
    I s -> I (set_players (update pid (set_calledUno true) (players s)) s).

Lemma playAt_holds now pid p i h event s :
  I s ->
  lookup pid (players s) = Some p ->
  nth i (hand p) None = Some h ->
  wp (playAt now pid (hand p) i event) (fun _ => I) s.
Proof.
  intros H E Hn. unfold playAt, splice1. rewrite Hn.
  apply wp_bind. eapply wp_setHand; [exact E|].
  apply wp_bind, wp_modify.
  apply (holds_afterPlay now pid (Some h) _ event).
  exact (@I_play pid p i h s E Hn H).
Qed.

Lemma holds_handlePlayCard now playerId card :
  holds I (handlePlayCard now playerId card).
Proof.
  intros s H. unfold handlePlayCard. apply wp_bind, wp_getState.
  destruct (negb (isTurn s playerId)); [now apply wp_ret|].
  apply wp_bind, wp_getPlayer.
  destruct (lookup playerId (players s)) as [p|] eqn:E; [|exact H].
  apply wp_bind, wp_liftRes.
  destruct (findCardFrom 0 (hand p) card) as [[i|]|] eqn:F;
    [|now apply wp_emit | exact H].
  apply wp_bind, wp_liftRes.
  destruct (isValidPlay (Some card) (topCard s)) as [[|]|]; cbn [negb].
  - destruct (findCardFrom_found _ _ _ F) as (_ & h & Hn & _).
    rewrite Nat.sub_0_r in Hn. now apply playAt_holds with (h := h).
  - now apply wp_emit.
  - exact H.
Qed.

Lemma holds_drawOne rnd playerId s :
  I s -> currentTurn s = Some playerId ->
  wp (drawOne rnd playerId) (fun _ => I) s.
Proof.
  intros H T. destruct (@I_turn s playerId H T) as [p E].
  unfold drawOne. apply wp_bind, wp_getState.
  assert (K : forall s1,
             I s1 -> lookup playerId (players s1) = Some p ->
             wp (takeCard playerId) (fun _ => I) s1).
  { intros s1 H1 E1. unfold takeCard, pop. apply wp_bind, wp_getState.
    apply wp_bind, wp_modify. apply wp_bind, wp_getPlayer.
    cbn [players set_deck]. rewrite E1. eapply wp_setHand; [exact E1|].
    exact (@I_draw playerId p s1 E1 H1). }
  destruct (Nat.eqb (length (deck s)) 0) eqn:D.
  - apply wp_bind, wp_modify. apply K.
    + apply I_reshuffle; [|exact H].
      apply Nat.eqb_eq in D. now destruct (deck s).
    + unfold reshuffleDeck, pop. exact E.
  - apply wp_bind, wp_ret. now apply K.
Qed.

Lemma holds_handleDrawCard now rnd playerId :
  holds I (handleDrawCard now rnd playerId).
Proof.
  intros s H. unfold handleDrawCard. apply wp_bind, wp_getState.
  destruct (isTurn s playerId) eqn:T; cbn [negb]; [|now apply wp_ret].
  apply wp_bind. eapply wp_conseq.
  - apply holds_drawOne; [exact H|]. unfold isTurn in T.
    destruct (currentTurn s) as [c|]; [|discriminate].
    apply String.eqb_eq in T. now subst.
  - intros [[]|] s' H'; [|exact H']. now apply holds_afterDraw.
Qed.

Lemma holds_handleCallUno playerId : holds I (handleCallUno playerId).
Proof.
  intros s H. unfold handleCallUno. apply wp_bind, wp_getPlayer.
  destruct (lookup playerId (players s)) as [p|]; [|exact H].
  apply wp_bind, wp_modify. apply wp_emit. now apply I_uno.
Qed.

Lemma holds_handlePassTurn now playerId : holds I (handlePassTurn now playerId).
Proof.
  unfold handlePassTurn.
  apply holds_bind; [apply holds_getState | intros s].
  destruct (negb (isTurn s playerId)); [apply holds_ret|].
  apply holds_bind; [apply holds_modify, I_advance | intros _].
  apply holds_broadcastGameState.
Qed.

Lemma playableFrom_lower cards top : forall k i rest,
  playableFrom k cards top = Ok (i :: rest) -> k <= i.
Proof.
  induction cards as [|c cards IH]; intros k i rest P;
    cbn [playableFrom] in P; [discriminate|].
  destruct (isValidPlay c top) as [b|]; [|discriminate].
  destruct (playableFrom (S k) cards top) as [l|] eqn:P'; [|discriminate].
  destruct b; [injection P as <- _; lia|].
  injection P as ->. specialize (IH _ _ _ P'). lia.
Qed.

Lemma playableFrom_first cards top : forall k i rest,
  playableFrom k cards top = Ok (i :: rest) ->
  exists h, nth (i - k) cards None = Some h
            /\ isValidPlay (Some h) top = Ok true.
Proof.
  induction cards as [|c cards IH]; intros k i rest H; cbn [playableFrom] in H;
    [discriminate|].
  destruct (isValidPlay c top) as [b|] eqn:V; [|discriminate].
  destruct (playableFrom (S k) cards top) as [l|] eqn:P; [|discriminate].
  destruct b.
  - injection H as <- _. rewrite Nat.sub_diag. cbn [nth].
    destruct c as [h|]; [eauto | discriminate].
  - injection H as ->. destruct (IH _ _ _ P) as (h & Hn & Hv).
    exists h. split; [|exact Hv].
    pose proof (playableFrom_lower _ _ _ P).
    replace (i - k) with (S (i - S k)) by lia. exact Hn.
Qed.

Lemma holds_handleAutoPlay now rnd : holds I (handleAutoPlay now rnd).
Proof.
  intros s H. unfold handleAutoPlay. apply wp_bind, wp_getState.
  apply wp_bind, wp_getPlayer.
  destruct (currentTurn s) as [cur|] eqn:T; [|exact H].
  destruct (lookup cur (players s)) as [p|] eqn:E; [|exact H].
  apply wp_bind, wp_liftRes.
  destruct (playableFrom 0 (hand p) (topCard s)) as [[|index l]|] eqn:P;
    [| | exact H].
  - apply wp_bind. eapply wp_conseq.
    + apply holds_drawOne; [exact H | exact T].
    + intros [[]|] s' H'; [|exact H']. now apply holds_afterDraw.
  - destruct (playableFrom_first _ _ _ P) as (h & Hn & _).
    rewrite Nat.sub_0_r in Hn. now apply playAt_holds with (h := h).
Qed.

Lemma holds_processMessages now rnd l : holds I (processMessages now rnd l).
Proof.
  induction l as [|m l IH]; simpl; [apply holds_ret|].
  apply holds_bind; [|intros _; exact IH].
  unfold processMessage. apply holds_tryCatch. destruct (data m).
  - apply holds_throw.
  - apply holds_handlePlayCard.
  - apply holds_handleDrawCard.
  - apply holds_handleCallUno.
  - apply holds_handlePassTurn.
  - apply holds_ret.
Qed.

Lemma holds_timerCheck now rnd : holds I (timerCheck now rnd).
Proof.
  unfold timerCheck. apply holds_bind; [apply holds_getState | intros s].
  destruct (gamePhase s), (currentTurn s), (turnStartTime s);
    try apply holds_ret.
  destruct (truthyId _ && truthyNum _); [|apply holds_ret].
  apply holds_bind; [apply holds_emit | intros _].
  destruct (Z.leb _ _); [apply holds_handleAutoPlay | apply holds_ret].
Qed.

Lemma holds_matchLoop now rnd messages : holds I (matchLoop now rnd messages).
Proof.
  unfold matchLoop.
  apply holds_bind; [apply holds_processMessages | intros _].
  apply holds_timerCheck.
Qed.

Lemma reachable_holds s0 s : I s0 -> reachable s0 s -> I s.
Proof.
  intros H0 R. induction R as [|s now rnd messages out _ IH]; [exact H0|].
  exact (holds_matchLoop now rnd messages IH out).
Qed.
End Kept.

(* ------------------------------------------------------------------ *)
(** ** Further properties: the start of a game and what stays true of it *)

Lemma clean_firstn k (l : list slot) : cleanHand l -> cleanHand (firstn k l).
Proof.
  unfold cleanHand. intros H. rewrite <- (firstn_skipn k l) in H.
  apply Forall_app in H. tauto.
Qed.

Lemma popN_fst_length n : forall d, length (fst (popN n d)) = n.
Proof.
  induction n as [|n IH]; intros d; simpl; [reflexivity|].
  unfold pop. specialize (IH (removelast d)).
  destruct (popN n (removelast d)) as [cards d'']. simpl in *. congruence.
Qed.

(** The initial flip only pops: the deck it leaves is the bottom part of the
    deck it found. *)
Lemma flipLoop_prefix fuel : forall s,
  wp (flipLoop fuel) (fun _ s' => exists k, deck s' = firstn k (deck s)) s.
Proof.
  induction fuel as [|n IH]; intros s; cbn [flipLoop].
  - apply wp_throw. exists (length (deck s)). now rewrite firstn_all.
  - apply wp_bind, wp_getState. unfold pop. apply wp_bind, wp_modify.
    assert (Hone : exists k,
               deck (set_topCard (last (deck s) None)
                       (set_deck (removelast (deck s)) s))
               = firstn k (deck s)).
    { cbn [deck set_topCard set_deck]. rewrite removelast_firstn_len. eauto. }
    destruct (last (deck s) None) as [c|]; [|apply wp_throw; exact Hone].
    destruct (isWildType (type c)); [|apply wp_ret; exact Hone].
    eapply wp_conseq; [apply IH|].
    cbn [deck set_topCard set_deck]. intros _ s' [k Hk].
    rewrite removelast_firstn_len, firstn_firstn in Hk. eauto.
Qed.

Lemma wp_and {A} (m : M A) (Q1 Q2 : Res A -> State -> Prop) s :
  wp m Q1 s -> wp m Q2 s -> wp m (fun r s' => Q1 r s' /\ Q2 r s') s.
Proof. intros H1 H2 out. split; [apply H1 | apply H2]. Qed.

Lemma gameInv_ext ids s s' :
  players s' = players s -> currentTurn s' = currentTurn s ->
  direction s' = direction s -> gameStarted s' = gameStarted s ->
  topCard s' = topCard s -> discardPile s' = discardPile s ->
  gameInv ids s -> gameInv ids s'.
Proof. unfold gameInv. intros -> -> -> -> -> ->. tauto. Qed.

Lemma gameInv_advanceTurn now ids s :
  gameInv ids s -> gameInv ids (advanceTurn now s).
Proof.
  intros (Hk & Ht & Hrest).
  assert (T : tableInv ids (defined (cardsOf s)) s)
    by (split; [exact Hk | split; [exact Ht | reflexivity]]).
  apply (tableInv_advanceTurn now) in T. destruct T as (_ & Ht' & _).
  split; [exact Hk|]. split; [exact Ht' | exact Hrest].
Qed.

(** The facts of [gameInv] stay true from one run of [matchLoop] to the
    next. *)
Lemma reachable_gameInv ids s0 s :
  gameInv ids s0 -> reachable s0 s -> gameInv ids s.
Proof.
  apply reachable_holds.
  - intros now s1. apply gameInv_advanceTurn.
  - intros s1 (Hk & Ht & Hd & Hrest). split; [exact Hk|]. split; [exact Ht|].
    split; [|exact Hrest]. cbn [direction set_direction].
    destruct Hd as [-> | ->]; [right | left]; reflexivity.
  - intros pid p s1 _ (Hk & Hrest). split; [|exact Hrest].
    cbn [players set_players]. now rewrite keys_update.
  - intros ph s1. now apply gameInv_ext.
  - intros fs s1. now apply gameInv_ext.
  - intros s1 pid (Hk & (p & Hp & Hin) & _) Hc.
    apply lookup_In. rewrite Hk. congruence.
  - intros pid p i h s1 _ _ (Hk & Ht & Hd & Hg & _).
    unfold played. split; [|split; [exact Ht|split; [exact Hd|split; [exact Hg|]]]].
    + cbn [players set_discardPile set_topCard set_players].
      now rewrite keys_update.
    + cbn [topCard discardPile set_discardPile set_topCard set_players].
      unfold push. split; [eauto|]. split.
      * now destruct (discardPile s1).
      * apply last_last.
  - intros rnd s1 _ (Hk & Ht & Hd & Hg & Hc & Hne & Hl).
    unfold reshuffleDeck, pop. split; [exact Hk|].
    split; [exact Ht|]. split; [exact Hd|]. split; [exact Hg|].
    split; [exact Hc|].
    cbn [discardPile topCard set_deck set_discardPile].
    split; [discriminate | exact Hl].
  - intros pid s1 (Hk & Hrest). split; [|exact Hrest].
    cbn [players set_players]. now rewrite keys_update.
Qed.

Lemma startGame_post now rnd a b pa pb s0 :
  a <> b ->
  players s0 = [(a, pa); (b, pb)] ->
  wp (startGame now rnd)
    (fun r s1 =>
       r = Ok tt
       /\ gameInv [a; b] s1
       /\ map (fun kv => length (hand (snd kv))) (players s1) = [7; 7]
       /\ allClean (players s1)
       /\ cleanHand (deck s1)
       /\ discardPile s1 = [topCard s1]
       /\ (exists c, topCard s1 = Some c /\ isWildType (type c) = false)
       /\ 85 <= length (deck s1) <= 93
       /\ gamePhase s1 = Playing
       /\ currentTurn s1 = Some a
       /\ direction s1 = 1%Z
       /\ turnStartTime s1 = Some now)
    s0.
Proof.
  intros Hab Hp. apply String.eqb_neq in Hab. unfold startGame.
  set (d0 := shuffleDeck rnd (map Some createDeck)).
  assert (Hd0 : Permutation d0 (map Some createDeck))
    by apply shuffleDeck_perm.
  clearbody d0.
  apply wp_bind, wp_modify. apply wp_bind, wp_getState.
  cbn [players set_deck]. rewrite Hp. cbn [keys map fst resetHands dealHands].
  apply wp_bind. apply wp_bind.
  eapply wp_setHand;
    [cbn [players set_deck lookup]; rewrite Hp; cbn [lookup];
     now rewrite String.eqb_refl|].
  cbn [players set_deck]. rewrite Hp. cbn [update]. rewrite String.eqb_refl.
  apply wp_bind.
  eapply wp_setHand;
    [cbn [players set_players lookup]; now rewrite Hab, String.eqb_refl|].
  cbn [players set_players update]. rewrite Hab, String.eqb_refl.
  apply wp_ret.
  assert (Hclean0 : cleanHand d0)
    by (eapply clean_Permutation;
        [apply Permutation_sym, Hd0 | apply clean_map_Some]).
  apply wp_bind. apply wp_bind, wp_getState. cbn [deck set_players set_deck].
  destruct (popN 7 d0) as [h1 d1] eqn:E1.
  apply wp_bind, wp_modify. apply wp_bind.
  eapply wp_setHand;
    [cbn [players set_players set_deck lookup]; now rewrite String.eqb_refl|].
  cbn [players set_players set_deck update]. rewrite String.eqb_refl.
  apply wp_bind, wp_getState. cbn [deck set_players set_deck].
  destruct (popN 7 d1) as [h2 d2] eqn:E2.
  apply wp_bind, wp_modify. apply wp_bind.
  eapply wp_setHand;
    [cbn [players set_players set_deck lookup];
     now rewrite Hab, String.eqb_refl|].
  cbn [players set_players set_deck update]. rewrite Hab, String.eqb_refl.
  apply wp_ret. apply wp_bind, wp_getState.
  cbn [deck set_players set_deck].
  pose proof (popN_defined 7 d0) as P1. rewrite E1 in P1. cbn [fst snd] in P1.
  pose proof (popN_defined 7 d1) as P2. rewrite E2 in P2. cbn [fst snd] in P2.
  pose proof (popN_length 7 d0) as L1. rewrite E1 in L1. cbn [snd] in L1.
  pose proof (popN_length 7 d1) as L2. rewrite E2 in L2. cbn [snd] in L2.
  pose proof (popN_fst_length 7 d0) as F1. rewrite E1 in F1. cbn [fst] in F1.
  pose proof (popN_fst_length 7 d1) as F2. rewrite E2 in F2. cbn [fst] in F2.
  assert (L0 : length d0 = 108)
    by (rewrite (Permutation_length Hd0), length_map; reflexivity).
  assert (D0 : Permutation (defined d0) createDeck)
    by (rewrite Hd0; now rewrite defined_map_Some).
  assert (Hclean1 : cleanHand d1)
    by (pose proof (popN_clean 7 Hclean0) as C; now rewrite E1 in C).
  assert (Hclean2 : cleanHand d2)
    by (pose proof (popN_clean 7 Hclean1) as C; now rewrite E2 in C).
  assert (Hh1 : cleanHand h1).
  { pose proof (@popN_clean_fst 7 d0) as C. rewrite E1 in C. apply C; [lia|].
    exact Hclean0. }
  assert (Hh2 : cleanHand h2).
  { pose proof (@popN_clean_fst 7 d1) as C. rewrite E2 in C. apply C; [lia|].
    exact Hclean1. }
  assert (W : length (filter (fun c => isWildType (type c)) (defined d2)) <= 8).
  { change 8 with
      (length (filter (fun c => isWildType (type c)) createDeck)).
    rewrite <- (wild_count_perm D0), <- (wild_count_perm P1).
    rewrite <- (wild_count_perm (Permutation_app_head (defined h1) P2)).
    rewrite app_assoc. apply wild_count_app. }
  assert (Hnw : exists c, In (Some c) d2 /\ isWildType (type c) = false).
  { destruct (@more_than_wild (defined d2)) as (c & Hin & Hc).
    - rewrite (clean_defined_length Hclean2). lia.
    - exists c. split; [now apply In_defined | exact Hc]. }
  apply wp_bind. eapply wp_conseq.
  { apply wp_and; [apply flipLoop_ok | apply flipLoop_prefix];
      cbn [deck set_players set_deck]; [exact Hclean2 | exact Hnw | lia]. }
  cbn [deck players set_players set_deck].
  intros r s' ((-> & Hpl & c & ws & Ht & Hw & Hws & Hperm) & k & Hk).
  apply wp_bind, wp_modify. apply wp_bind. eapply wp_conseq.
  { apply broadcastGameState_ok.
    cbn [players set_turnStartTime set_gamePhase set_gameStarted
         set_direction set_currentTurn set_discardPile].
    rewrite Hpl. intros pid p. cbn [lookup].
    destruct (String.eqb a pid); [intros [= <-]; exact Hh1|].
    destruct (String.eqb b pid); [intros [= <-]; exact Hh2 | discriminate]. }
  intros r s1 (-> & ->). apply wp_emit.
  cbn [players deck discardPile topCard gamePhase currentTurn direction
       turnStartTime gameStarted set_turnStartTime set_gamePhase
       set_gameStarted set_direction set_currentTurn set_discardPile
       nth_error].
  rewrite Hpl, Ht.
  assert (Hc' : cleanHand (deck s')) by (rewrite Hk; now apply clean_firstn).
  assert (Hlen : length (deck s') + S (length ws) = 94).
  { apply Permutation_length in Hperm.
    rewrite (clean_defined_length Hclean2) in Hperm.
    cbn [length] in Hperm.
    rewrite length_app, (clean_defined_length Hc') in Hperm. lia. }
  assert (Hws8 : length ws <= 8).
  { rewrite (wild_count_perm Hperm) in W. cbn [filter] in W. rewrite Hw in W.
    rewrite filter_app, length_app in W.
    assert (E : filter (fun c => isWildType (type c)) ws = ws).
    { clear - Hws. induction Hws as [|x ws Hx _ IH]; [reflexivity|].
      cbn [filter]. unfold isWildCard in Hx. rewrite Hx. now f_equal. }
    rewrite E in W. lia. }
  split; [reflexivity|]. split.
  { unfold gameInv.
    cbn [players deck discardPile topCard gamePhase currentTurn direction
         gameStarted set_turnStartTime set_gamePhase set_gameStarted
         set_direction set_currentTurn set_discardPile].
    rewrite Hpl, Ht. repeat split; try discriminate; eauto.
    exists a. split; [reflexivity | now left]. }
  cbn [map snd hand set_hand]. rewrite F1, F2.
  repeat split; try reflexivity; try lia; eauto.
  repeat constructor; assumption.
Qed.

(** C8, amended: in every state of a started game, seen between two runs
    of [matchLoop], in which the deck is empty, which is when the handlers
    call it, the discard pile is not empty, [reshuffleDeck] keeps the
    entries of deck and discard pile together, and it leaves on the discard
    pile one card alone, the top card of before, which stays the top
    card. *)
Theorem reshuffle_keeps_cards now rnd0 a b pa pb s0 out0 rnd s :
  a <> b ->
  players s0 = [(a, pa); (b, pb)] ->
  reachable (stateAfter (startGame now rnd0 (s0, out0))) s ->
  deck s = [] ->
  let s' := reshuffleDeck rnd s in
  discardPile s <> []
  /\ Permutation (deck s' ++ discardPile s') (deck s ++ discardPile s)
  /\ discardPile s' = [topCard s]
  /\ (exists c, topCard s = Some c)
  /\ topCard s' = topCard s
  /\ length (deck s') + 1 = length (discardPile s).
Proof.
  intros Hab Hp R D s'.
  destruct (@startGame_post now rnd0 a b pa pb s0 Hab Hp out0)
    as (_ & Hinv & _).
  destruct (reachable_gameInv Hinv R) as (_ & _ & _ & _ & Hc & Hne & Hl).
  destruct (@reshuffleDeck_empty_deck rnd s D Hne) as (HP & HD).
  split; [exact Hne|]. split; [exact HP|].
  split; [subst s'; rewrite HD, Hl; reflexivity|].
  split; [exact Hc|]. split.
  - subst s'. unfold reshuffleDeck, pop. reflexivity.
  - apply Permutation_length in HP. fold s' in HD, HP.
    rewrite !length_app, HD, D in HP. cbn [length Nat.add] in HP. lia.
Qed.

Lemma reshuffle_keeps_cards_witness :
  discardPile emptiedDeck = [Some (mkCard Blue Number (Some 9%Z)); Some wildCard]
  /\ deck (reshuffleDeck noShuffle emptiedDeck)
     = [Some (mkCard Blue Number (Some 9%Z))]
  /\ (let s' := reshuffleDeck noShuffle emptiedDeck in
      discardPile emptiedDeck <> []
      /\ Permutation (deck s' ++ discardPile s')
           (deck emptiedDeck ++ discardPile emptiedDeck)
      /\ discardPile s' = [topCard emptiedDeck]
      /\ (exists c, topCard emptiedDeck = Some c)
      /\ topCard s' = topCard emptiedDeck
      /\ length (deck s') + 1 = length (discardPile emptiedDeck)).
Proof.
  split; [vm_compute; reflexivity|]. split; [vm_compute; reflexivity|].
  exact (@reshuffle_keeps_cards 1000%Z noShuffle "alice" "bob"
           (mkPlayer "alice" "Alice" [] false false 0%Z)
           (mkPlayer "bob" "Bob" [] false false 0%Z) twoJoined []
           noShuffle emptiedDeck
           ltac:(discriminate) eq_refl
           (reach_tick 2000%Z noShuffle
              (mkMessage "alice" (play_card wildCard)
               :: drawsInTurn 93 "bob" "alice")
              [] (reach_here _))
           ltac:(vm_compute; reflexivity)).
Defined.

(** X12: with two players, whatever the shuffle, [startGame] returns with
    seven cards in each hand, a top card that is not wild and is alone on
    the discard pile, no [undefined] entry anywhere, the first player in
    turn, direction 1 and the phase [Playing].  The deck is left with 93
    cards minus one for every wild card the flip went through, never fewer
    than 85. *)
Theorem startGame_deals now rnd a b pa pb s0 out0 :
  a <> b ->
  players s0 = [(a, pa); (b, pb)] ->
  let r := startGame now rnd (s0, out0) in
  resultOf r = Ok tt
  /\ map (fun kv => (fst kv, length (hand (snd kv)))) (players (stateAfter r))
     = [(a, 7); (b, 7)]
  /\ allClean (players (stateAfter r))
  /\ cleanHand (deck (stateAfter r))
  /\ discardPile (stateAfter r) = [topCard (stateAfter r)]
  /\ (exists c, topCard (stateAfter r) = Some c /\ isWildType (type c) = false)
  /\ 85 <= length (deck (stateAfter r)) <= 93
  /\ gamePhase (stateAfter r) = Playing
  /\ gameStarted (stateAfter r) = true
  /\ currentTurn (stateAfter r) = Some a
  /\ direction (stateAfter r) = 1%Z
  /\ turnStartTime (stateAfter r) = Some now.
Proof.
  intros Hab Hp r.
  destruct (@startGame_post now rnd a b pa pb s0 Hab Hp out0)
    as (Hr & Hinv & Hl & Hc & Hd & Hdp & Ht & Hn & Hph & Hct & Hdir & Hst).
  fold r in Hr, Hinv, Hl, Hc, Hd, Hdp, Ht, Hn, Hph, Hct, Hdir, Hst.
  destruct Hinv as (Hk & _ & _ & Hg & _).
  repeat split; try assumption; try lia.
  unfold keys in Hk. destruct (players (stateAfter r)) as [|[k1 v1] [|[k2 v2] [|]]];
    try discriminate.
  cbn [map fst snd] in *. congruence.
Qed.

Lemma startGame_deals_witness :
  resultOf (startGame 0%Z wildOnTop (twoJoined, [])) = Ok tt
  /\ 85 <= length (deck (stateAfter (startGame 0%Z wildOnTop (twoJoined, []))))
     <= 93.
Proof.
  pose proof (@startGame_deals 0%Z wildOnTop "alice" "bob"
                (mkPlayer "alice" "Alice" [] false false 0%Z)
                (mkPlayer "bob" "Bob" [] false false 0%Z) twoJoined []
                ltac:(discriminate) eq_refl) as H.
  cbv zeta in H. tauto.
Defined.

(** X13: in a match of two players, at every state seen between two runs
    of [matchLoop] after [startGame], the two players are registered, the
    turn is with one of them, the direction is 1 or -1, the discard pile is
    not empty and its last entry is the top card, which is a card. *)
Theorem game_invariants now rnd a b pa pb s0 out0 s :
  a <> b ->
  players s0 = [(a, pa); (b, pb)] ->
  reachable (stateAfter (startGame now rnd (s0, out0))) s ->
  keys (players s) = [a; b]
  /\ (currentTurn s = Some a \/ currentTurn s = Some b)
  /\ (direction s = 1%Z \/ direction s = (-1)%Z)
  /\ gameStarted s = true
  /\ discardPile s <> []
  /\ (exists c, topCard s = Some c /\ last (discardPile s) None = Some c).
Proof.
  intros Hab Hp R.
  destruct (@startGame_post now rnd a b pa pb s0 Hab Hp out0) as (_ & Hinv & _).
  destruct (reachable_gameInv Hinv R)
    as (Hk & (p & Hc & Hin) & Hd & Hg & (c & Ht) & Hne & Hl).
  repeat split; try assumption.
  - destruct Hin as [<-|[<-|[]]]; [left | right]; exact Hc.
  - exists c. split; [exact Ht | congruence].
Qed.

Lemma game_invariants_witness :
  keys (players (stateAfter (startGame 0%Z noShuffle (twoJoined, []))))
  = ["alice"%string; "bob"%string].
Proof.
  exact (proj1
           (@game_invariants 0%Z noShuffle "alice" "bob"
              (mkPlayer "alice" "Alice" [] false false 0%Z)
              (mkPlayer "bob" "Bob" [] false false 0%Z) twoJoined []
              (stateAfter (startGame 0%Z noShuffle (twoJoined, [])))
              ltac:(discriminate) eq_refl
              (reach_here _))).
Defined.

(* ------------------------------------------------------------------ *)
(** ** Further properties: a legal play *)

(** The end of a play that does not win: whatever is broadcast, the state
    left is the state with the turn advanced. *)
Lemma wp_playTail now pid (event : PlayerId -> slot -> nat -> Msg) c s :
  wp (modify (advanceTurn now) ;;
      broadcastGameState ;;
      p <- getPlayer (Some pid) ;;
      emit (Broadcast (event pid c (length (hand p)))))
    (fun _ s' => s' = advanceTurn now s) s.
Proof.
  apply wp_bind, wp_modify. apply wp_bind, wp_broadcastGameState.
  intros [[]|]; [|reflexivity]. apply wp_bind, wp_getPlayer.
  destruct (lookup pid (players (advanceTurn now s)));
    [now apply wp_emit | reflexivity].
Qed.

(** X14: between two players, a legal play that is not the last card of the
    hand gives the turn to the opponent after a number, a wild or a reverse
    card, and back to the player after a skip, a draw two or a wild draw
    four; only a reverse changes the direction, to its opposite; the hand
    of the opponent grows by the cards the kind forces (two, four, none),
    as far as the deck has them. *)
Theorem turn_after_play now pid opp p po card i s out :
  keys (players s) = [pid; opp] \/ keys (players s) = [opp; pid] ->
  pid <> opp ->
  currentTurn s = Some pid ->
  lookup pid (players s) = Some p ->
  lookup opp (players s) = Some po ->
  findCardFrom 0 (hand p) card = Ok (Some i) ->
  isValidPlay (Some card) (topCard s) = Ok true ->
  2 <= length (hand p) ->
  let s' := stateAfter (handlePlayCard now pid card (s, out)) in
  currentTurn s' = Some (if keepsTurn (type card) then pid else opp)
  /\ direction s'
     = (if CardType_eqb (type card) Reverse then direction s * -1
        else direction s)%Z
  /\ exists po',
      lookup opp (players s') = Some po'
      /\ length (hand po')
         = length (hand po)
           + Nat.min (forcedDraw (type card)) (length (deck s)).
Proof.
  intros K N Hc E Eo Hfind Hvalid Hlen.
  destruct (findCardFrom_found _ _ _ Hfind) as (Hi & h & Hnth & Hsame).
  rewrite Nat.sub_0_r in Hnth.
  rewrite <- (sameCard_type _ _ Hsame).
  assert (K' : keys (players s) = [opp; pid] \/ keys (players s) = [pid; opp])
    by tauto.
  assert (N' : opp <> pid) by congruence.
  enough (W : wp (handlePlayCard now pid card)
                (fun _ s' =>
                   currentTurn s'
                   = Some (if keepsTurn (type h) then pid else opp)
                   /\ direction s'
                      = (if CardType_eqb (type h) Reverse
                         then direction s * -1 else direction s)%Z
                   /\ exists po',
                       lookup opp (players s') = Some po'
                       /\ length (hand po')
                          = length (hand po)
                            + Nat.min (forcedDraw (type h)) (length (deck s)))
                s) by exact (W out).
  unfold handlePlayCard. apply wp_bind, wp_getState. unfold isTurn.
  rewrite Hc, String.eqb_refl. cbn [negb].
  apply wp_bind, wp_getPlayer. rewrite E.
  apply wp_bind, wp_liftRes. rewrite Hfind.
  apply wp_bind, wp_liftRes. rewrite Hvalid. cbn [negb].
  unfold playAt, splice1. rewrite Hnth.
  apply wp_bind. eapply wp_setHand; [exact E|].
  apply wp_bind, wp_modify.
  assert (Hrest : Nat.eqb (length (firstn i (hand p) ++ skipn (S i) (hand p)))
                    0 = false).
  { apply Nat.eqb_neq. rewrite length_app, length_firstn, length_skipn.
    simpl in Hi. lia. }
  rewrite Hrest.
  match goal with |- wp _ _ ?st => set (s1 := st) end.
  assert (K1 : keys (players s1) = [pid; opp] \/ keys (players s1) = [opp; pid]).
  { subst s1. cbn [players set_discardPile set_topCard set_players].
    now rewrite keys_update. }
  assert (K1' : keys (players s1) = [opp; pid] \/ keys (players s1) = [pid; opp])
    by tauto.
  assert (C1 : currentTurn s1 = Some pid) by exact Hc.
  assert (D1 : direction s1 = direction s) by reflexivity.
  assert (L1 : length (deck s1) = length (deck s)) by reflexivity.
  assert (Eo1 : lookup opp (players s1) = Some po).
  { subst s1. cbn [players set_discardPile set_topCard set_players].
    rewrite lookup_update_other by exact N. exact Eo. }
  clearbody s1.
  assert (Hdraw : forall n,
             wp (modify (advanceTurn now) ;;
                 s2 <- getState ;; drawUpTo n (currentTurn s2))
               (fun r s2 =>
                  r = Ok tt
                  /\ currentTurn s2 = Some opp
                  /\ (keys (players s2) = [opp; pid]
                      \/ keys (players s2) = [pid; opp])
                  /\ direction s2 = direction s
                  /\ exists po',
                      lookup opp (players s2) = Some po'
                      /\ length (hand po')
                         = length (hand po) + Nat.min n (length (deck s)))
               s1).
  { intros n. apply wp_bind, wp_modify. apply wp_bind, wp_getState.
    assert (T : currentTurn (advanceTurn now s1) = Some opp)
      by (apply advance_two with (x := pid); assumption).
    rewrite T. eapply wp_conseq.
    - apply wp_and.
      + apply drawUpTo_grows with (po := po). exact Eo1.
      + apply (holds_drawUpTo (fun s2 => direction s2 = direction s)).
        * intros q pq s2 _ H2. exact H2.
        * exact D1.
    - cbn beta. intros r s2 ((Hr & Ht & Hk & po' & E' & Hl) & Hd).
      split; [exact Hr|]. split; [now rewrite Ht|].
      split; [now rewrite Hk|]. split; [exact Hd|].
      exists po'. split; [exact E'|]. rewrite Hl.
      cbn [deck advanceTurn set_turnStartTime set_currentTurn].
      now rewrite L1. }
  assert (Hfin : forall s2 x y po' n,
             currentTurn s2 = Some x ->
             (x = pid /\ y = opp) \/ (x = opp /\ y = pid) ->
             keys (players s2) = [opp; pid] \/ keys (players s2) = [pid; opp] ->
             lookup opp (players s2) = Some po' ->
             length (hand po') = length (hand po) + n ->
             currentTurn (advanceTurn now s2) = Some y
             /\ direction (advanceTurn now s2) = direction s2
             /\ exists po'',
                 lookup opp (players (advanceTurn now s2)) = Some po''
                 /\ length (hand po'') = length (hand po) + n).
  { intros s2 x y po' n Ht Hxy Hk Hl Hn.
    split; [|split; [reflexivity | eauto]].
    apply advance_two with (x := x); [|  | exact Ht].
    - destruct Hxy as [[-> ->]|[-> ->]]; tauto.
    - destruct Hxy as [[-> ->]|[-> ->]]; congruence. }
  apply wp_bind. unfold applyCardEffects.
  destruct (type h) eqn:Th; cbn [keepsTurn forcedDraw CardType_eqb].
  - (* number *)
    apply wp_ret. eapply wp_conseq; [apply wp_playTail|].
    intros r s' ->.
    destruct (Hfin s1 pid opp po 0 C1 (or_introl (conj eq_refl eq_refl)) K1'
                Eo1 (eq_sym (Nat.add_0_r _))) as (T & D & X).
    split; [exact T|]. split; [congruence | exact X].
  - (* skip *)
    apply wp_modify. eapply wp_conseq; [apply wp_playTail|].
    intros r s' ->.
    assert (T1 : currentTurn (advanceTurn now s1) = Some opp)
      by (apply advance_two with (x := pid); assumption).
    destruct (Hfin (advanceTurn now s1) opp pid po 0 T1
                (or_intror (conj eq_refl eq_refl)) K1' Eo1
                (eq_sym (Nat.add_0_r _))) as (T & D & X).
    split; [exact T|]. split; [exact D1 | exact X].
  - (* reverse *)
    apply wp_modify. eapply wp_conseq; [apply wp_playTail|].
    intros r s' ->.
    destruct (Hfin (set_direction (direction s1 * -1)%Z s1) pid opp po 0 C1
                (or_introl (conj eq_refl eq_refl)) K1' Eo1
                (eq_sym (Nat.add_0_r _))) as (T & D & X).
    split; [exact T|]. split; [|exact X].
    cbn [direction advanceTurn set_turnStartTime set_currentTurn
         set_direction]. now rewrite D1.
  - (* draw two *)
    eapply wp_conseq; [apply (Hdraw 2)|].
    intros r s2 (-> & Ht & Hk & Hd & po' & E' & Hl).
    eapply wp_conseq; [apply wp_playTail|]. intros r s' ->.
    destruct (Hfin s2 opp pid po' _ Ht (or_intror (conj eq_refl eq_refl)) Hk
                E' Hl) as (T & D & X).
    split; [exact T|]. split; [congruence | exact X].
  - (* wild *)
    apply wp_ret. eapply wp_conseq; [apply wp_playTail|].
    intros r s' ->.
    destruct (Hfin s1 pid opp po 0 C1 (or_introl (conj eq_refl eq_refl)) K1'
                Eo1 (eq_sym (Nat.add_0_r _))) as (T & D & X).
    split; [exact T|]. split; [congruence | exact X].
  - (* wild draw four *)
    eapply wp_conseq; [apply (Hdraw 4)|].
    intros r s2 (-> & Ht & Hk & Hd & po' & E' & Hl).
    eapply wp_conseq; [apply wp_playTail|]. intros r s' ->.
    destruct (Hfin s2 opp pid po' _ Ht (or_intror (conj eq_refl eq_refl)) Hk
                E' Hl) as (T & D & X).
    split; [exact T|]. split; [congruence | exact X].
Qed.

Lemma turn_after_play_witness :
  currentTurn
    (stateAfter
       (handlePlayCard 2000%Z "alice" redSkip
          (table [Some redSkip; Some red5] [Some green1], [])))
  = Some "alice"%string.
Proof.
  exact (proj1
           (@turn_after_play 2000%Z "alice" "bob"
              (mkPlayer "alice" "Alice" [Some redSkip; Some red5]
                 false false 0%Z)
              (mkPlayer "bob" "Bob" [Some blue7; Some redSkip; Some wildCard]
                 false false 0%Z)
              redSkip 0 (table [Some redSkip; Some red5] [Some green1]) []
              (or_introl eq_refl) ltac:(discriminate)
              eq_refl eq_refl eq_refl eq_refl eq_refl
              ltac:(simpl; lia))).
Defined.

Lemma sameCard_eq h c : sameCard h c = true -> h = c.
Proof.
  unfold sameCard. intros H.
  apply andb_true_iff in H as [H Hv]. apply andb_true_iff in H as [Hc Ht].
  destruct h as [hc ht hv], c as [cc ct cv]. cbn [color type value] in *.
  f_equal.
  - destruct hc, cc; (reflexivity || discriminate).
  - destruct ht, ct; (reflexivity || discriminate).
  - destruct hv, cv; cbn in Hv; try discriminate; [|reflexivity].
    apply Z.eqb_eq in Hv. now subst.
Qed.

Lemma findCardFrom_first cards c : forall k i,
  findCardFrom k cards c = Ok (Some i) ->
  forall j, k <= j < i -> nth (j - k) cards None <> Some c.
Proof.
  induction cards as [|[h|] cards IH]; intros k i H j Hj; simpl in H;
    try discriminate.
  destruct (sameCard h c) eqn:S1; [injection H as <-; lia|].
  destruct (Nat.eq_dec j k) as [->|Nk].
  - rewrite Nat.sub_diag. cbn [nth]. intros [= ->].
    assert (sameCard c c = true).
    { unfold sameCard. rewrite Color_eqb_refl.
      destruct c as [cc ct [z|]]; cbn; destruct ct; cbn;
        try apply Z.eqb_refl; reflexivity. }
    congruence.
  - replace (j - k) with (S (j - S k)) by lia. cbn [nth].
    apply (IH _ _ H). lia.
Qed.

(** The top card and the discard pile are out of reach of what follows the
    move of the played card. *)
Lemma afterPlay_table now pid playedCard (b : bool)
  (event : PlayerId -> slot -> nat -> Msg) top pile s :
  topCard s = top -> discardPile s = pile ->
  wp (if b then endGame pid
      else
        applyCardEffects now playedCard ;;
        modify (advanceTurn now) ;;
        broadcastGameState ;;
        p <- getPlayer (Some pid) ;;
        emit (Broadcast (event pid playedCard (length (hand p)))))
    (fun _ s' => topCard s' = top /\ discardPile s' = pile) s.
Proof.
  intros Ht Hp.
  apply (@holds_afterPlay
           (fun s' => topCard s' = top /\ discardPile s' = pile));
    try (intros; assumption).
  now split.
Qed.

Lemma set_hand_same (q : Player) : set_hand (hand q ++ []) q = q.
Proof. rewrite app_nil_r. now destruct q. Qed.

(** The forced draw appends to the hand of the player it is for and
    leaves the other hands alone. *)
Lemma drawUpTo_hand n pid : forall t q s,
  lookup pid (players s) = Some q ->
  wp (drawUpTo n t)
    (fun _ s' =>
       exists extra,
         lookup pid (players s') = Some (set_hand (hand q ++ extra) q)
         /\ (t <> Some pid -> extra = []))
    s.
Proof.
  induction n as [|n IH]; intros t q s E; cbn [drawUpTo].
  - apply wp_ret. exists []. rewrite set_hand_same. auto.
  - apply wp_bind, wp_getState.
    assert (Hhere : exists extra,
               lookup pid (players s) = Some (set_hand (hand q ++ extra) q)
               /\ (t <> Some pid -> extra = []))
      by (exists []; rewrite set_hand_same; auto).
    destruct (Nat.ltb 0 (length (deck s))).
    + apply wp_bind. unfold drawInto. apply wp_bind, wp_getPlayer.
      destruct t as [pid'|]; [|exact Hhere].
      destruct (lookup pid' (players s)) as [p'|] eqn:E'; [|exact Hhere].
      apply wp_bind, wp_getState. unfold pop. apply wp_bind, wp_modify.
      eapply wp_setHand; [exact E'|].
      cbn [players set_deck].
      set (x := last (deck s) None).
      set (s1 := set_players _ _).
      destruct (string_dec pid' pid) as [->|N].
      * assert (p' = q) by congruence. subst p'.
        assert (E1 : lookup pid (players s1)
                     = Some (set_hand (push (hand q) x) q))
          by (apply lookup_update_same; exact E).
        eapply wp_conseq; [apply (IH (Some pid) _ s1 E1)|].
        intros r s' (extra & Hl & _). exists (x :: extra).
        split; [|intros C; now destruct C].
        rewrite Hl. unfold push. cbn [hand set_hand].
        now rewrite <- app_assoc.
      * assert (E1 : lookup pid (players s1) = Some q).
        { subst s1. cbn [players set_players].
          rewrite lookup_update_other; [exact E|]. congruence. }
        apply (IH (Some pid') q s1 E1).
    + apply wp_bind, wp_ret. apply (IH t q s E).
Qed.

(** What follows the move of the played card leaves the hand it came from
    alone, but for the cards a forced draw gives that same player, when
    the turn comes back to the player at once. *)
Lemma afterPlay_hand now pid q card (b : bool)
  (event : PlayerId -> slot -> nat -> Msg) s :
  lookup pid (players s) = Some q ->
  wp (if b then endGame pid
      else
        applyCardEffects now (Some card) ;;
        modify (advanceTurn now) ;;
        broadcastGameState ;;
        p <- getPlayer (Some pid) ;;
        emit (Broadcast (event pid (Some card) (length (hand p)))))
    (fun _ s' =>
       exists extra,
         lookup pid (players s') = Some (set_hand (hand q ++ extra) q)
         /\ (forcedDraw (type card) = 0
             \/ currentTurn (advanceTurn now s) <> Some pid ->
             extra = []))
    s.
Proof.
  intros E.
  set (Q0 := fun s' : State =>
               exists extra,
                 lookup pid (players s') = Some (set_hand (hand q ++ extra) q)
                 /\ (forcedDraw (type card) = 0
                     \/ currentTurn (advanceTurn now s) <> Some pid ->
                     extra = [])).
  assert (Hs : Q0 s) by (exists []; rewrite set_hand_same; auto).
  destruct b.
  - eapply wp_conseq.
    + apply (@holds_endGame (fun s' => lookup pid (players s') = Some q));
        [intros; assumption | intros; assumption | exact E].
    + intros r s' H. exists []. rewrite set_hand_same. auto.
  - assert (Heff : wp (applyCardEffects now (Some card)) (fun _ => Q0) s).
    { unfold applyCardEffects.
      assert (Hdraw : forall k,
                 forcedDraw (type card) <> 0 ->
                 wp (modify (advanceTurn now) ;;
                     s1 <- getState ;; drawUpTo k (currentTurn s1))
                   (fun _ => Q0) s).
      { intros k Hk. apply wp_bind, wp_modify. apply wp_bind, wp_getState.
        eapply wp_conseq;
          [apply (@drawUpTo_hand k pid (currentTurn (advanceTurn now s)) q
                    (advanceTurn now s) E)|].
        intros r s' (extra & Hl & Hx). exists extra. split; [exact Hl|].
        intros [F|F]; [now destruct Hk | now apply Hx]. }
      destruct (type card) eqn:T.
      - apply wp_ret. exact Hs.
      - apply wp_modify. exact Hs.
      - apply wp_modify. exact Hs.
      - apply Hdraw. discriminate.
      - apply wp_ret. exact Hs.
      - apply Hdraw. discriminate. }
    apply wp_bind. eapply wp_conseq; [exact Heff|].
    intros [[]|] s' H; [|exact H].
    eapply wp_conseq; [apply wp_playTail|].
    intros r s'' Heq. cbv beta in Heq. rewrite Heq. exact H.
Qed.

(** X15: a legal [play_card] in turn takes the first card of the hand that
    has the colour, kind and value named, makes it the top card and puts
    it last on the discard pile, whether the play wins or not and whatever
    the effects of the card.  The hand is left with its other cards in
    their order; it ends with further cards only when a draw that the card
    forces falls on the player who played it, which no draw does between
    two players or more. *)
Theorem play_card_table now pid p card i s out :
  currentTurn s = Some pid ->
  lookup pid (players s) = Some p ->
  findCardFrom 0 (hand p) card = Ok (Some i) ->
  isValidPlay (Some card) (topCard s) = Ok true ->
  let s' := stateAfter (handlePlayCard now pid card (s, out)) in
  topCard s' = Some card
  /\ discardPile s' = discardPile s ++ [Some card]
  /\ nth i (hand p) None = Some card
  /\ (forall j, j < i -> nth j (hand p) None <> Some card)
  /\ exists extra,
      option_map hand (lookup pid (players s'))
      = Some ((firstn i (hand p) ++ skipn (S i) (hand p)) ++ extra)
      /\ (forcedDraw (type card) = 0
          \/ (NoDup (keys (players s)) /\ 2 <= length (players s)) ->
          extra = []).
Proof.
  intros Hc E Hfind Hvalid.
  destruct (findCardFrom_found _ _ _ Hfind) as (Hi & h & Hnth & Hsame).
  rewrite Nat.sub_0_r in Hnth. apply sameCard_eq in Hsame. subst h.
  set (base := firstn i (hand p) ++ skipn (S i) (hand p)).
  assert (W : wp (handlePlayCard now pid card)
                (fun _ s' =>
                   (topCard s' = Some card
                    /\ discardPile s' = discardPile s ++ [Some card])
                   /\ exists extra,
                       lookup pid (players s')
                       = Some (set_hand (base ++ extra) p)
                       /\ (forcedDraw (type card) = 0
                           \/ currentTurn
                                (advanceTurn now
                                   (played pid base (Some card) s))
                              <> Some pid ->
                           extra = []))
                s).
  { unfold handlePlayCard. apply wp_bind, wp_getState. unfold isTurn.
    rewrite Hc, String.eqb_refl. cbn [negb].
    apply wp_bind, wp_getPlayer. rewrite E.
    apply wp_bind, wp_liftRes. rewrite Hfind.
    apply wp_bind, wp_liftRes. rewrite Hvalid. cbn [negb].
    unfold playAt, splice1. rewrite Hnth. fold base.
    apply wp_bind. eapply wp_setHand; [exact E|].
    apply wp_bind, wp_modify.
    apply wp_and; [now apply afterPlay_table|].
    apply (@afterPlay_hand now pid (set_hand base p) card
             (Nat.eqb (length base) 0) card_played
             (played pid base (Some card) s)).
    unfold played. cbn [players set_discardPile set_topCard set_players].
    apply lookup_update_same. exact E. }
  cbv zeta. destruct (W out) as ((Ht & Hd) & extra & Hl & Hx).
  split; [exact Ht|]. split; [exact Hd|]. split; [exact Hnth|]. split.
  - intros j Hj.
    pose proof (@findCardFrom_first (hand p) card 0 i Hfind j) as F.
    rewrite Nat.sub_0_r in F. apply F. lia.
  - exists extra. split; [rewrite Hl; reflexivity|].
    intros [F|(Hnd & Hn)]; apply Hx; [now left | right].
    assert (Hk : keys (players (played pid base (Some card) s))
                 = keys (players s))
      by (unfold played;
          cbn [players set_discardPile set_topCard set_players];
          apply keys_update).
    apply advanceTurn_moves.
    + rewrite Hk. exact Hnd.
    + rewrite Hk. eapply lookup_Some_In. exact E.
    + exact Hc.
    + rewrite Hk. unfold keys. now rewrite length_map.
Qed.

Lemma play_card_table_witness :
  let s' :=
    stateAfter
      (handlePlayCard 2000%Z "alice" red5
         (table [Some blue7; Some red5] [Some green1], [])) in
  option_map hand (lookup "alice" (players s')) = Some [Some blue7]
  /\ topCard s' = Some red5
  /\ discardPile s' = [Some red3] ++ [Some red5].
Proof.
  split; [vm_compute; reflexivity|].
  pose proof
    (@play_card_table 2000%Z "alice"
       (mkPlayer "alice" "Alice" [Some blue7; Some red5] false false 0%Z)
       red5 1 (table [Some blue7; Some red5] [Some green1]) []
       eq_refl eq_refl eq_refl eq_refl) as H.
  cbv zeta in H. destruct H as (H1 & H2 & _).
  split; [exact H1 | exact H2].
Defined.

(* ------------------------------------------------------------------ *)
(** ** Further properties: the forced move and the draw *)

Lemma drawOne_takes rnd pid p s out :
  lookup pid (players s) = Some p ->
  exists s1 x,
    drawOne rnd pid (s, out) = (Ok tt, (s1, out))
    /\ lookup pid (players s1) = Some (set_hand (hand p ++ [x]) p)
    /\ topCard s1 = topCard s.
Proof.
  intros E. unfold drawOne. run.
  destruct (Nat.eqb (length (deck s)) 0); run.
  - rewrite (@takeCard_run pid p (reshuffleDeck rnd s) out)
      by (unfold reshuffleDeck, pop; exact E).
    eexists _, _. split; [reflexivity|]. split.
    + cbn [players set_players]. unfold reshuffleDeck, pop.
      cbn [players set_deck set_discardPile].
      apply lookup_update_same. exact E.
    + unfold reshuffleDeck, pop. reflexivity.
  - rewrite (@takeCard_run pid p s out E).
    eexists _, _. split; [reflexivity|]. split; [|reflexivity].
    cbn [players set_players]. apply lookup_update_same. exact E.
Qed.

(** X16: when the timer forces a move for a player whose hand holds no
    [undefined] entry, the card played is the first card of the hand that
    is legal on the top card: it becomes the top card and goes last on the
    discard pile.  With no legal card in the hand nothing is played: the
    top card stays and the hand gets one more entry. *)
Theorem auto_play_first_legal now rnd pid p t s out :
  currentTurn s = Some pid ->
  lookup pid (players s) = Some p ->
  cleanHand (hand p) ->
  topCard s = Some t ->
  let s' := stateAfter (handleAutoPlay now rnd (s, out)) in
  (forall i rest,
      playableIndices (hand p) (topCard s) = i :: rest ->
      topCard s' = nth i (hand p) None
      /\ discardPile s' = discardPile s ++ [nth i (hand p) None]
      /\ isValidPlay (nth i (hand p) None) (Some t) = Ok true
      /\ forall j, j < i -> validOn (Some t) (nth j (hand p) None) = false)
  /\ (playableIndices (hand p) (topCard s) = [] ->
      topCard s' = topCard s
      /\ exists x,
          lookup pid (players s') = Some (set_hand (hand p ++ [x]) p)).
Proof.
  intros Hc E Hclean Ht s'.
  assert (P : playableFrom 0 (hand p) (topCard s)
              = Ok (playableIndices (hand p) (topCard s))).
  { rewrite Ht. rewrite (playableFrom_filter t 0 Hclean).
    unfold playableIndices. f_equal. apply filter_ext.
    intros i. now rewrite Nat.sub_0_r. }
  split.
  - intros i rest Hl. rewrite Hl in P.
    destruct (playableFrom_first _ _ _ P) as (h & Hn & Hv).
    rewrite Nat.sub_0_r in Hn. rewrite Ht in Hv.
    assert (Hfirst : forall j,
               j < i -> validOn (Some t) (nth j (hand p) None) = false).
    { intros j Hj. rewrite Ht in Hl. unfold playableIndices in Hl.
      apply filter_seq_first in Hl as (_ & _ & Hl). apply Hl. lia. }
    rewrite Hn.
    enough (W : wp (handleAutoPlay now rnd)
                  (fun _ s' =>
                     topCard s' = Some h
                     /\ discardPile s' = discardPile s ++ [Some h]) s)
      by (destruct (W out) as [Wa Wb]; repeat split; assumption).
    unfold handleAutoPlay. apply wp_bind, wp_getState.
    apply wp_bind, wp_getPlayer. rewrite Hc, E.
    apply wp_bind, wp_liftRes. rewrite P.
    unfold playAt, splice1. rewrite Hn.
    apply wp_bind. eapply wp_setHand; [exact E|].
    apply wp_bind, wp_modify. now apply afterPlay_table.
  - intros Hl. rewrite Hl in P.
    destruct (@drawOne_takes rnd pid p s out E) as (s1 & x & Hrun & E1 & T1).
    assert (R : handleAutoPlay now rnd (s, out)
                = afterDraw now pid auto_draw (s1, out)).
    { unfold handleAutoPlay. run. rewrite Hc.
      rewrite (@run_getPlayer _ pid p _ s out E). rewrite P. run.
      now rewrite (@bind_ok _ _ _ _ _ _ _ Hrun). }
    subst s'. rewrite R, afterDraw_state.
    split; [exact T1|]. exists x. exact E1.
Qed.

Lemma auto_play_first_legal_witness :
  topCard
    (stateAfter
       (handleAutoPlay 20000%Z noShuffle
          (table [Some blue7; Some red5; Some wildCard] [Some green1], [])))
  = Some red5.
Proof.
  exact (proj1
           (proj1
              (@auto_play_first_legal 20000%Z noShuffle "alice"
                 (mkPlayer "alice" "Alice"
                    [Some blue7; Some red5; Some wildCard] false false 0%Z)
                 red3
                 (table [Some blue7; Some red5; Some wildCard] [Some green1])
                 [] eq_refl eq_refl
                 ltac:(repeat constructor; discriminate) eq_refl)
              1 [2] eq_refl)).
Defined.

(** X17: a [draw_card] in turn with cards in the deck moves the top of the
    deck to the end of the hand and passes the turn; with no [undefined]
    entry around, the state is broadcast and then [card_drawn], with the
    new size of the hand. *)
Theorem draw_card_takes_top now rnd pid p s out :
  currentTurn s = Some pid ->
  lookup pid (players s) = Some p ->
  deck s <> [] ->
  let s1 :=
    set_players
      (update pid (set_hand (hand p ++ [last (deck s) None])) (players s))
      (set_deck (removelast (deck s)) s) in
  stateAfter (handleDrawCard now rnd pid (s, out)) = advanceTurn now s1
  /\ length (deck s1) + 1 = length (deck s)
  /\ (NoDup (keys (players s)) ->
      allClean (players s) ->
      last (deck s) None <> None ->
      handleDrawCard now rnd pid (s, out)
      = (Ok tt,
         (advanceTurn now s1,
          out
          ++ Broadcast (game_state (snapshot (advanceTurn now s1)))
             :: map (handMessage (topCard s)) (players s1)
          ++ [Broadcast (card_drawn pid (S (length (hand p))))]))).
Proof.
  intros Hc E Hd s1.
  assert (Hrun : drawOne rnd pid (s, out) = (Ok tt, (s1, out))).
  { unfold drawOne. run.
    assert (Z : Nat.eqb (length (deck s)) 0 = false)
      by (destruct (deck s); [now destruct Hd | reflexivity]).
    rewrite Z. run. now rewrite (@takeCard_run pid p s out E). }
  assert (R : handleDrawCard now rnd pid (s, out)
              = afterDraw now pid card_drawn (s1, out)).
  { unfold handleDrawCard. run. unfold isTurn.
    rewrite Hc, String.eqb_refl. cbn [negb].
    now rewrite (@bind_ok _ _ _ _ _ _ _ Hrun). }
  split; [rewrite R; apply afterDraw_state|]. split.
  - subst s1. cbn [deck set_players set_deck]. rewrite removelast_length.
    destruct (deck s); [now destruct Hd | simpl; lia].
  - intros Hnd Hcl Hlast. rewrite R. unfold afterDraw. run.
    assert (E1 : lookup pid (players s1)
                 = Some (set_hand (hand p ++ [last (deck s) None]) p))
      by (apply lookup_update_same; exact E).
    assert (Hnd1 : NoDup (keys (players (advanceTurn now s1)))).
    { subst s1. cbn [players advanceTurn set_turnStartTime set_currentTurn
                     set_players set_deck]. now rewrite keys_update. }
    assert (Hcl1 : allClean (players (advanceTurn now s1))).
    { subst s1. cbn [players advanceTurn set_turnStartTime set_currentTurn
                     set_players set_deck].
      apply allClean_update; [exact Hcl|].
      apply Forall_app. split.
      - unfold allClean in Hcl. rewrite Forall_forall in Hcl.
        assert (Hin : In (pid, p) (players s)).
        { clear - E. induction (players s) as [|[k v] ps IH];
            simpl in *; [discriminate|].
          destruct (String.eqb k pid) eqn:K.
          - apply String.eqb_eq in K. injection E as ->. subst. now left.
          - right. now apply IH. }
        exact (Hcl _ Hin).
      - constructor; [exact Hlast | constructor]. }
    rewrite (@bind_ok _ _ _ _ _ _ _
               (@broadcastGameState_clean_run (advanceTurn now s1) out
                  Hnd1 Hcl1)).
    rewrite (@run_getPlayer _ pid _ _ (advanceTurn now s1) _ E1).
    unfold emit. cbn [fst snd hand set_hand].
    rewrite length_app, <- app_assoc. cbn [length app].
    now rewrite Nat.add_1_r.
Qed.

Lemma draw_card_takes_top_witness :
  stateAfter
    (handleDrawCard 2000%Z noShuffle "alice"
       (table [Some blue7] [Some red5; Some green1], []))
  = advanceTurn 2000%Z
      (set_players
         (update "alice" (set_hand ([Some blue7] ++ [Some green1]))
            (players (table [Some blue7] [Some red5; Some green1])))
         (set_deck [Some red5] (table [Some blue7] [Some red5; Some green1]))).
Proof.
  exact (proj1
           (@draw_card_takes_top 2000%Z noShuffle "alice"
              (mkPlayer "alice" "Alice" [Some blue7] false false 0%Z)
              (table [Some blue7] [Some red5; Some green1]) []
              eq_refl eq_refl ltac:(discriminate))).
Defined.

(* ------------------------------------------------------------------ *)
(** ** Further properties: the order of the turns *)

Lemma indexOfFrom_bounds x : forall l k,
  indexOfFrom k x l = (-1)%Z
  \/ (k <= indexOfFrom k x l < k + Z.of_nat (length l))%Z.
Proof.
  induction l as [|y r IH]; intros k; [now left|].
  cbn [indexOfFrom length].
  destruct x as [x'|].
  - destruct (String.eqb y x'); [right; lia|].
    destruct (IH (k + 1)%Z) as [->|B]; [now left | right; lia].
  - destruct (IH (k + 1)%Z) as [->|B]; [now left | right; lia].
Qed.

(** X18: whoever had the turn before (a player in the match, a player who
    has left, nobody) and whatever the direction, [advanceTurn] gives the
    turn to a player of the match, as long as there is one. *)
Theorem advanceTurn_registered now s :
  players s <> [] ->
  exists id,
    currentTurn (advanceTurn now s) = Some id /\ In id (keys (players s)).
Proof.
  intros Hne. unfold advanceTurn.
  cbn [currentTurn set_turnStartTime set_currentTurn].
  set (l := keys (players s)).
  assert (Hl : 0 < length l).
  { subst l. unfold keys. rewrite length_map.
    destruct (players s); [congruence | simpl; lia]. }
  assert (Hz : exists z, (0 <= z < Z.of_nat (length l))%Z
             /\ (if Z.eqb (direction s) 1
                 then jsRem (indexOf (currentTurn s) l + 1)
                        (Z.of_nat (length l))
                 else jsRem (indexOf (currentTurn s) l - 1
                             + Z.of_nat (length l)) (Z.of_nat (length l)))
                = Some z).
  { unfold jsRem.
    destruct (Z.eqb (Z.of_nat (length l)) 0) eqn:Z0;
      [apply Z.eqb_eq in Z0; lia|].
    unfold indexOf.
    destruct (indexOfFrom_bounds (currentTurn s) l 0) as [R|R];
      destruct (Z.eqb (direction s) 1).
    - rewrite R. eexists. split; [|reflexivity].
      apply Z.rem_bound_pos; lia.
    - rewrite R. eexists. split; [|reflexivity].
      destruct (Nat.eq_dec (length l) 1) as [L1|L1].
      + rewrite L1. cbn. lia.
      + apply Z.rem_bound_pos; lia.
    - eexists. split; [|reflexivity]. apply Z.rem_bound_pos; lia.
    - eexists. split; [|reflexivity]. apply Z.rem_bound_pos; lia. }
  destruct Hz as (z & Bz & ->).
  unfold idAt. destruct (Z.ltb z 0) eqn:Q; [apply Z.ltb_lt in Q; lia|].
  destruct (nth_error l (Z.to_nat z)) as [id|] eqn:E.
  - exists id. split; [reflexivity|]. eapply nth_error_In. exact E.
  - apply nth_error_None in E. lia.
Qed.

Lemma advanceTurn_registered_witness :
  exists id,
    currentTurn (advanceTurn 2000%Z (table [Some blue7] [Some red5]))
    = Some id
    /\ In id (keys (players (table [Some blue7] [Some red5]))).
Proof.
  exact (@advanceTurn_registered 2000%Z (table [Some blue7] [Some red5])
           ltac:(discriminate)).
Defined.

(** X19: with every player once in [Object.keys(state.players)], a run of
    [advanceTurn] walks the keys in a circle, forwards with direction 1 and
    backwards otherwise: after [k] calls the turn is [k] steps from where
    it was, and after as many calls as there are players it is back with
    the same player. *)
Theorem advanceTurn_cycle nows s i x :
  NoDup (keys (players s)) ->
  nth_error (keys (players s)) i = Some x ->
  currentTurn s = Some x ->
  currentTurn (advanceTurns nows s)
  = nth_error (keys (players s))
      ((i + length nows * turnStep s) mod length (keys (players s)))
  /\ (length nows = length (keys (players s)) ->
      currentTurn (advanceTurns nows s) = Some x).
Proof.
  intros N E T.
  assert (L : i < length (keys (players s)))
    by (apply nth_error_Some; congruence).
  assert (G : forall nows s i x,
             NoDup (keys (players s)) ->
             nth_error (keys (players s)) i = Some x ->
             currentTurn s = Some x ->
             currentTurn (advanceTurns nows s)
             = nth_error (keys (players s))
                 ((i + length nows * turnStep s)
                  mod length (keys (players s)))).
  { clear. induction nows as [|now r IH]; intros s i x N E T.
    - cbn [advanceTurns fold_left length Nat.mul].
      rewrite Nat.add_0_r, Nat.mod_small
        by (apply nth_error_Some; congruence).
      congruence.
    - unfold advanceTurns. cbn [fold_left length].
      fold (advanceTurns r (advanceTurn now s)).
      pose proof (@advanceTurn_index now s i x N E T) as T1.
      set (j := (i + turnStep s) mod length (keys (players s))) in *.
      assert (Lj : j < length (keys (players s))).
      { apply Nat.mod_upper_bound.
        assert (i < length (keys (players s)))
          by (apply nth_error_Some; congruence). lia. }
      destruct (nth_error (keys (players s)) j) as [y|] eqn:Ej;
        [|apply nth_error_None in Ej; lia].
      rewrite (IH (advanceTurn now s) j y N Ej T1).
      change (keys (players (advanceTurn now s))) with (keys (players s)).
      change (turnStep (advanceTurn now s)) with (turnStep s).
      f_equal. subst j. rewrite Nat.Div0.add_mod_idemp_l.
      f_equal. lia. }
  split; [exact (G nows s i x N E T)|].
  intros Hn. rewrite (G nows s i x N E T), Hn.
  rewrite (Nat.mul_comm (length (keys (players s))) (turnStep s)).
  rewrite Nat.Div0.mod_add, Nat.mod_small by exact L. exact E.
Qed.

Lemma advanceTurn_cycle_witness :
  currentTurn
    (advanceTurns [2000%Z; 3000%Z] (table [Some blue7] [Some red5]))
  = Some "alice"%string.
Proof.
  exact (proj2
           (@advanceTurn_cycle [2000%Z; 3000%Z]
              (table [Some blue7] [Some red5]) 0 "alice"%string
              ltac:(repeat constructor; simpl; intuition discriminate)
              eq_refl eq_refl)
           eq_refl).
Defined.

(** X20: with every player once in the keys and the direction 1 or -1, a
    turn passed on and then, after the direction has been reversed, passed
    on again is back with the player who had it. *)
Theorem reverse_returns_turn now now' s x :
  NoDup (keys (players s)) ->
  In x (keys (players s)) ->
  currentTurn s = Some x ->
  direction s = 1%Z \/ direction s = (-1)%Z ->
  let s1 := advanceTurn now s in
  currentTurn (advanceTurn now' (set_direction (direction s1 * -1)%Z s1))
  = Some x.
Proof.
  intros N Hin T D s1.
  destruct (In_nth_error _ _ Hin) as [i E].
  assert (L : i < length (keys (players s)))
    by (apply nth_error_Some; congruence).
  pose proof (@advanceTurn_index now s i x N E T) as T1.
  set (j := (i + turnStep s) mod length (keys (players s))) in *.
  assert (Lj : j < length (keys (players s)))
    by (apply Nat.mod_upper_bound; lia).
  destruct (nth_error (keys (players s)) j) as [y|] eqn:Ej;
    [|apply nth_error_None in Ej; lia].
  set (s2 := set_direction (direction s1 * -1)%Z s1).
  rewrite (@advanceTurn_index now' s2 j y N Ej T1).
  change (keys (players s2)) with (keys (players s)).
  rewrite <- E. f_equal. subst j.
  rewrite Nat.Div0.add_mod_idemp_l.
  replace (i + turnStep s + turnStep s2)
    with (i + 1 * length (keys (players s))).
  - rewrite Nat.Div0.mod_add. now apply Nat.mod_small.
  - unfold turnStep. subst s2 s1.
    cbn [direction players advanceTurn set_turnStartTime set_currentTurn
         set_direction].
    destruct D as [-> | ->]; cbn [Z.eqb Z.mul Z.opp Pos.mul Pos.eqb]; lia.
Qed.

Lemma reverse_returns_turn_witness :
  currentTurn
    (advanceTurn 3000%Z
       (set_direction
          (direction (advanceTurn 2000%Z (table [Some blue7] [Some red5]))
           * -1)%Z
          (advanceTurn 2000%Z (table [Some blue7] [Some red5]))))
  = Some "alice"%string.
Proof.
  exact (@reverse_returns_turn 2000%Z 3000%Z
           (table [Some blue7] [Some red5]) "alice"%string
           ltac:(repeat constructor; simpl; intuition discriminate)
           ltac:(simpl; auto) eq_refl ltac:(left; reflexivity)).
Defined.

(* ------------------------------------------------------------------ *)
(** ** Further properties: joining a match in progress *)

Lemma lookup_assign_same (V : Type) k (v : V) o :
  lookup k (assign k v o) = Some v.
Proof.
  induction o as [|[k' v'] o IH]; simpl.
  - now rewrite String.eqb_refl.
  - destruct (String.eqb k' k) eqn:E; simpl.
    + now rewrite String.eqb_refl.
    + now rewrite E.
Qed.

Lemma lookup_assign_other (V : Type) k k' (v : V) o :
  k <> k' -> lookup k (assign k' v o) = lookup k o.
Proof.
  intros N. induction o as [|[k2 v2] o IH]; simpl.
  - destruct (String.eqb k' k) eqn:E; [|reflexivity].
    apply String.eqb_eq in E. congruence.
  - destruct (String.eqb k2 k') eqn:E; simpl.
    + apply String.eqb_eq in E. subst k2.
      destruct (String.eqb k' k) eqn:E2; [|reflexivity].
      apply String.eqb_eq in E2. congruence.
    + now rewrite IH.
Qed.

Lemma joinAll_others presences : forall ps k,
  ~ In k (map p_userId presences) ->
  lookup k (joinAll presences ps) = lookup k ps.
Proof.
  unfold joinAll.
  induction presences as [|pr l IH]; intros ps k H; cbn [fold_left];
    [reflexivity|].
  cbn [map In] in H. rewrite IH by tauto.
  apply lookup_assign_other. intros ->. apply H. now left.
Qed.

Lemma joinAll_joined presences : forall ps pr,
  In pr presences ->
  exists q, lookup (p_userId pr) (joinAll presences ps) = Some q
            /\ hand q = [] /\ calledUno q = false /\ score q = 0%Z.
Proof.
  unfold joinAll.
  induction presences as [|pr0 l IH]; intros ps pr H; [destruct H|].
  cbn [fold_left].
  destruct (in_dec string_dec (p_userId pr) (map p_userId l)) as [I|I].
  - apply in_map_iff in I. destruct I as (pr' & Hid & Hin).
    rewrite <- Hid. now apply IH.
  - destruct H as [->|H];
      [|exfalso; apply I; apply in_map_iff; now exists pr].
    fold (joinAll l (assign (p_userId pr) (joined pr) ps)).
    rewrite (@joinAll_others l _ _ I), lookup_assign_same.
    exists (joined pr). repeat split.
Qed.

Lemma joinLoop_run presences : forall s out,
  exists sent,
    joinLoop presences (s, out)
    = (Ok tt, (set_players (joinAll presences (players s)) s, out ++ sent))
    /\ length sent = length presences
    /\ Forall isJoinEvent sent.
Proof.
  unfold joinAll.
  induction presences as [|pr l IH]; intros s out; cbn [joinLoop].
  - exists []. cbn [fold_left]. rewrite app_nil_r.
    split; [now destruct s|]. split; [reflexivity | constructor].
  - run.
    match goal with
    | |- context [joinLoop l (?s1, ?o1)] =>
        destruct (IH s1 o1) as (sent & E & Hn & Hf); rewrite E
    end.
    eexists (_ :: sent). rewrite <- app_assoc. cbn [app].
    split; [reflexivity|]. split; [cbn [length]; now rewrite Hn|].
    constructor; [|exact Hf]. unfold isJoinEvent. eauto.
Qed.

(** X21: players who join a match whose game has started are registered
    and announced, one [player_joined] each, and no game is started again:
    the state changes in [players] only.  Each of them has an empty hand
    afterwards, also one who was in the match and held cards, and the
    records of the other players are as before. *)
Theorem join_after_start now rnd presences s out :
  gameStarted s = true ->
  let r := matchJoin now rnd presences (s, out) in
  resultOf r = Ok tt
  /\ stateAfter r = set_players (joinAll presences (players s)) s
  /\ (exists sent, outAfter r = out ++ sent
                   /\ length sent = length presences
                   /\ Forall isJoinEvent sent)
  /\ (forall pr, In pr presences ->
      exists q, lookup (p_userId pr) (players (stateAfter r)) = Some q
                /\ hand q = [] /\ calledUno q = false /\ score q = 0%Z)
  /\ (forall k, ~ In k (map p_userId presences) ->
      lookup k (players (stateAfter r)) = lookup k (players s)).
Proof.
  intros G r. subst r. unfold matchJoin.
  destruct (joinLoop_run presences s out) as (sent & E & Hn & Hf).
  rewrite (@bind_ok _ _ _ _ _ _ _ E). run.
  cbn [gameStarted set_players]. rewrite G, andb_false_r.
  unfold ret, resultOf, stateAfter, outAfter. cbn [fst snd players set_players].
  split; [reflexivity|]. split; [reflexivity|].
  split; [exists sent; auto|]. split.
  - intros pr Hin. now apply joinAll_joined.
  - intros k Hk. now apply joinAll_others.
Qed.

Lemma join_after_start_witness :
  stateAfter
    (matchJoin 2000%Z noShuffle [alice]
       (table [Some blue7] [Some red5], []))
  = set_players
      (joinAll [alice] (players (table [Some blue7] [Some red5])))
      (table [Some blue7] [Some red5]).
Proof.
  exact (proj1 (proj2
           (@join_after_start 2000%Z noShuffle [alice]
              (table [Some blue7] [Some red5]) [] eq_refl))).
Defined.

(* ------------------------------------------------------------------ *)
(** ** Further properties: a draw from an empty deck *)

(** X22: a [draw_card] in turn on an empty deck with two discarded cards or
    more first turns the discard pile into the deck: the last discarded
    card stays alone on the discard pile, the card drawn and the new deck
    are together the other discarded cards, the card drawn goes to the end
    of the hand, and the turn passes. *)
Theorem draw_card_reshuffles now rnd pid p s out :
  currentTurn s = Some pid ->
  lookup pid (players s) = Some p ->
  deck s = [] ->
  2 <= length (discardPile s) ->
  let s' := stateAfter (handleDrawCard now rnd pid (s, out)) in
  exists x,
    discardPile s' = [last (discardPile s) None]
    /\ Permutation (deck s' ++ [x]) (removelast (discardPile s))
    /\ lookup pid (players s') = Some (set_hand (hand p ++ [x]) p)
    /\ topCard s' = topCard s
    /\ currentTurn s' = currentTurn (advanceTurn now s).
Proof.
  intros Hc E Hd Hn s'.
  set (r := reshuffleDeck rnd s).
  set (s1 := set_players
               (update pid (set_hand (push (hand p) (last (deck r) None)))
                  (players r))
               (set_deck (removelast (deck r)) r)).
  assert (Er : lookup pid (players r) = Some p)
    by (subst r; unfold reshuffleDeck, pop; exact E).
  assert (Hrun : drawOne rnd pid (s, out) = (Ok tt, (s1, out))).
  { unfold drawOne. run. rewrite Hd. cbn [length Nat.eqb]. run.
    fold r. now rewrite (@takeCard_run pid p r out Er). }
  assert (R : handleDrawCard now rnd pid (s, out)
              = afterDraw now pid card_drawn (s1, out)).
  { unfold handleDrawCard. run. unfold isTurn.
    rewrite Hc, String.eqb_refl. cbn [negb].
    now rewrite (@bind_ok _ _ _ _ _ _ _ Hrun). }
  assert (S' : s' = advanceTurn now s1)
    by (subst s'; rewrite R; apply afterDraw_state).
  assert (Dr : deck r = shuffleDeck rnd (removelast (discardPile s)))
    by (subst r; unfold reshuffleDeck, pop; reflexivity).
  assert (Lr : deck r <> []).
  { intros Z. apply (f_equal (@length _)) in Z.
    rewrite Dr in Z.
    rewrite (Permutation_length (shuffleDeck_perm rnd _)) in Z.
    rewrite removelast_length in Z. simpl in Z. lia. }
  exists (last (deck r) None). rewrite S'. subst s1.
  cbn [discardPile deck players topCard currentTurn advanceTurn
       set_turnStartTime set_currentTurn set_players set_deck].
  split; [subst r; unfold reshuffleDeck, pop; reflexivity|].
  split.
  { rewrite <- (app_removelast_last None Lr), Dr. apply shuffleDeck_perm. }
  split; [apply lookup_update_same; exact Er|].
  split; [subst r; unfold reshuffleDeck, pop; reflexivity|].
  rewrite keys_update.
  subst r. unfold reshuffleDeck, pop. reflexivity.
Qed.

Lemma draw_card_reshuffles_witness :
  exists x,
    discardPile
      (stateAfter
         (handleDrawCard 2000%Z noShuffle "alice" (drawTable, [])))
    = [last (discardPile drawTable) None]
    /\ Permutation
         (deck
            (stateAfter
               (handleDrawCard 2000%Z noShuffle "alice" (drawTable, [])))
          ++ [x])
         (removelast (discardPile drawTable))
    /\ lookup "alice"
         (players
            (stateAfter
               (handleDrawCard 2000%Z noShuffle "alice" (drawTable, []))))
       = Some (set_hand
                 (hand (mkPlayer "alice" "Alice" [Some blue7] false false 0%Z)
                  ++ [x])
                 (mkPlayer "alice" "Alice" [Some blue7] false false 0%Z))
    /\ topCard
         (stateAfter
            (handleDrawCard 2000%Z noShuffle "alice" (drawTable, [])))
       = topCard drawTable
    /\ currentTurn
         (stateAfter
            (handleDrawCard 2000%Z noShuffle "alice" (drawTable, [])))
       = currentTurn (advanceTurn 2000%Z drawTable).
Proof.
  exact (@draw_card_reshuffles 2000%Z noShuffle "alice"
           (mkPlayer "alice" "Alice" [Some blue7] false false 0%Z)
           drawTable [] eq_refl eq_refl eq_refl ltac:(simpl; lia)).
Defined.

(* ------------------------------------------------------------------ *)
(** ** Further properties: the cards of the deck *)

(** X23: what [createDeck] puts in the deck and what it never does.  A card
    of the deck has the colour [wild] exactly when it is a wild card or a
    wild draw four; a number card carries a value from 0 to 9 and every
    other card the value [null]; wild cards come four times, a coloured 0
    once, every other coloured card twice. *)
Theorem createDeck_cards c :
  In c createDeck ->
  (isWildType (type c) = true <-> color c = WildColor)
  /\ (type c = Number -> exists n, value c = Some n /\ (0 <= n <= 9)%Z)
  /\ (type c <> Number -> value c = None)
  /\ copies c = (if isWildType (type c) then 4
                 else match value c with Some 0%Z => 1 | _ => 2 end).
Proof.
  revert c. apply Forall_forall.
  let d := eval vm_compute in createDeck in change createDeck with d.
  repeat (apply Forall_cons;
    [cbn [type color value isWildType];
     split; [split; intros; (reflexivity || discriminate)|];
     split; [intros;
             first [discriminate | eexists; split; [reflexivity | lia]]|];
     split; [intros; first [reflexivity | congruence]
            | vm_compute; reflexivity]
    |]).
  apply Forall_nil.
Qed.

Lemma createDeck_cards_witness :
  copies red5 = 2.
Proof.
  exact (proj2 (proj2 (proj2
           (@createDeck_cards red5
              ltac:(vm_compute;
                    repeat (first [left; reflexivity | right])))))).
Defined.

(* ------------------------------------------------------------------ *)
(** ** Further properties: the call of UNO *)

Lemma hasCalledUno_update q k f s ps' :
  (forall p, calledUno p = true -> calledUno (f p) = true) ->
  players ps' = update k f (players s) ->
  hasCalledUno q s -> hasCalledUno q ps'.
Proof.
  intros Hf Hp (p & E & C). unfold hasCalledUno. rewrite Hp.
  destruct (string_dec q k) as [->|N].
  - exists (f p). split; [now apply lookup_update_same | now apply Hf].
  - exists p. split; [|exact C]. rewrite lookup_update_other; auto.
Qed.

Lemma advanceTurn_turnRegistered now s : turnRegistered (advanceTurn now s).
Proof.
  intros pid. unfold advanceTurn.
  cbn [currentTurn players set_turnStartTime set_currentTurn].
  match goal with |- idAt ?i _ = _ -> _ => destruct i as [z|] end;
    unfold idAt; [|discriminate].
  destruct (Z.ltb z 0); [discriminate|]. apply nth_error_In.
Qed.

(** X24: no handler of the match loop clears the [calledUno] flag.  Once a
    player of the match has called UNO, the flag is set in every state the
    match loop reaches afterwards, whatever is played or drawn and whoever
    wins; the turn stays with a player of the match or [undefined]. *)
Theorem called_uno_sticks q p s0 out s :
  turnRegistered s0 ->
  lookup q (players s0) = Some p ->
  reachable (stateAfter (handleCallUno q (s0, out))) s ->
  hasCalledUno q s /\ turnRegistered s.
Proof.
  intros T0 E R.
  enough (W : turnRegistered s /\ hasCalledUno q s) by tauto.
  revert R.
  apply (@reachable_holds
           (fun s => turnRegistered s /\ hasCalledUno q s)).
  - intros now s1 (_ & U). split; [apply advanceTurn_turnRegistered|].
    exact U.
  - intros s1 H. exact H.
  - intros pid p1 s1 _ (T & U). split.
    + intros x. cbn [currentTurn players set_players set_deck].
      rewrite keys_update. apply T.
    + eapply hasCalledUno_update; [|reflexivity|exact U]. auto.
  - intros ph s1 H. exact H.
  - intros fs s1 H. exact H.
  - intros s1 pid (T & _) Hc. apply lookup_In. now apply T.
  - intros pid p1 i h s1 _ _ (T & U). unfold played. split.
    + intros x.
      cbn [currentTurn players set_players set_discardPile set_topCard].
      rewrite keys_update. apply T.
    + eapply hasCalledUno_update; [|reflexivity|exact U]. auto.
  - intros rnd s1 _ H. unfold reshuffleDeck, pop. exact H.
  - intros pid s1 (T & U). split.
    + intros x. cbn [currentTurn players set_players].
      rewrite keys_update. apply T.
    + eapply hasCalledUno_update; [|reflexivity|exact U]. auto.
  - unfold handleCallUno.
    rewrite (@run_getPlayer _ q p _ s0 out E). run.
    unfold stateAfter, emit. cbn [fst snd]. split.
    + intros x. cbn [currentTurn players set_players].
      rewrite keys_update. apply T0.
    + exists (set_calledUno true p). split; [|reflexivity].
      cbn [players set_players]. now apply lookup_update_same.
Qed.

Lemma called_uno_sticks_witness :
  hasCalledUno "bob"
    (stateAfter
       (matchLoop 2000%Z noShuffle [mkMessage "alice" draw_card]
          (stateAfter
             (handleCallUno "bob" (table [Some blue7] [Some red5], [])),
           [])))
  /\ turnRegistered
       (stateAfter
          (matchLoop 2000%Z noShuffle [mkMessage "alice" draw_card]
             (stateAfter
                (handleCallUno "bob" (table [Some blue7] [Some red5], [])),
              []))).
Proof.
  exact (@called_uno_sticks "bob"
           (mkPlayer "bob" "Bob" [Some blue7; Some redSkip; Some wildCard]
              false false 0%Z)
           (table [Some blue7] [Some red5]) [] _
           ltac:(intros pid H; injection H as <-; simpl; auto)
           eq_refl
           (reach_tick 2000%Z noShuffle [mkMessage "alice" draw_card] []
              (reach_here _))).
Defined.

(* ------------------------------------------------------------------ *)
(** ** Further properties: from a new match to a game *)

(** X25: a new match accepts a first player, who waits: no game is
    started, also when the same user joins once more.  When a second user
    joins, the game starts: the phase is [Playing], the first who joined
    has the turn, the time of the turn runs from the join, and a further
    join attempt is refused. *)
Theorem second_join_starts_game now1 now2 rnd1 rnd2 a b :
  p_userId a <> p_userId b ->
  let s1 := stateAfter (matchJoin now1 rnd1 [a] (matchInit, [])) in
  let s2 := stateAfter (matchJoin now2 rnd2 [b] (s1, [])) in
  matchJoinAttempt matchInit = true
  /\ s1 = set_players [(p_userId a, joined a)] matchInit
  /\ matchJoinAttempt s1 = true
  /\ stateAfter (matchJoin now2 rnd2 [a] (s1, [])) = s1
  /\ keys (players s2) = [p_userId a; p_userId b]
  /\ gameStarted s2 = true
  /\ gamePhase s2 = Playing
  /\ currentTurn s2 = Some (p_userId a)
  /\ turnStartTime s2 = Some now2
  /\ matchJoinAttempt s2 = false.
Proof.
  intros Hab s1 s2.
  assert (E1 : s1 = set_players [(p_userId a, joined a)] matchInit)
    by reflexivity.
  split; [reflexivity|]. split; [exact E1|]. split; [reflexivity|].
  split.
  { unfold matchJoin.
    destruct (joinLoop_run [a] s1 []) as (sent & E & _ & _).
    rewrite (@bind_ok _ _ _ _ _ _ _ E). run. rewrite E1.
    unfold joinAll. cbn [fold_left players set_players assign].
    rewrite String.eqb_refl. reflexivity. }
  assert (Hs : stateAfter (joinLoop [b] (s1, []))
               = set_players
                   [(p_userId a, joined a); (p_userId b, joined b)] matchInit).
  { destruct (joinLoop_run [b] s1 []) as (sent & E & _ & _).
    rewrite E, E1. unfold stateAfter, joinAll.
    cbn [fst snd fold_left players set_players assign].
    apply String.eqb_neq in Hab. rewrite Hab. reflexivity. }
  assert (R : s2 = stateAfter
                     (startGame now2 rnd2
                        (stateAfter (joinLoop [b] (s1, [])),
                         outAfter (joinLoop [b] (s1, []))))).
  { subst s2. unfold matchJoin.
    destruct (joinLoop_run [b] s1 []) as (sent & E & _ & _).
    rewrite (@bind_ok _ _ _ _ _ _ _ E). rewrite E in Hs |- *.
    unfold stateAfter, outAfter in Hs |- *. cbn [fst snd] in Hs |- *.
    run. rewrite Hs. reflexivity. }
  rewrite Hs in R.
  destruct (@startGame_post now2 rnd2 (p_userId a) (p_userId b)
              (joined a) (joined b)
              (set_players
                 [(p_userId a, joined a); (p_userId b, joined b)] matchInit)
              Hab eq_refl (outAfter (joinLoop [b] (s1, []))))
    as (_ & Hinv & _ & _ & _ & _ & _ & _ & Hph & Hct & _ & Hst).
  rewrite <- R in Hinv, Hph, Hct, Hst.
  destruct Hinv as (Hk & _ & _ & Hg & _).
  repeat split; try assumption.
  unfold matchJoinAttempt. now rewrite Hk.
Qed.

Lemma second_join_starts_game_witness :
  matchJoinAttempt
    (stateAfter
       (matchJoin 2000%Z noShuffle [bob]
          (stateAfter (matchJoin 1000%Z noShuffle [alice] (matchInit, [])),
           [])))
  = false.
Proof.
  exact (proj2 (proj2 (proj2 (proj2 (proj2 (proj2 (proj2 (proj2 (proj2
           (@second_join_starts_game 1000%Z 2000%Z noShuffle noShuffle
              alice bob ltac:(discriminate))))))))))).
Defined.

(* ------------------------------------------------------------------ *)
(** ** Further properties: the end of a turn and of a game *)

(** X26: once the turn has lasted as long as the limit, the timer part
    broadcasts a [timer_update] that shows 0 for the player in turn and
    then makes the move for this player. *)
Theorem timer_expired_auto_plays now rnd cur start s out :
  gamePhase s = Playing ->
  currentTurn s = Some cur ->
  cur <> ""%string ->
  turnStartTime s = Some start ->
  start <> 0%Z ->
  (turnTimeLimit s * 1000 <= now - start)%Z ->
  timerCheck now rnd (s, out)
  = handleAutoPlay now rnd (s, out ++ [Broadcast (timer_update cur 0%Z)]).
Proof.
  intros Hph Hc Hid Hst Hs0 Hlim. unfold timerCheck. run.
  rewrite Hph, Hc, Hst. unfold truthyId, truthyNum.
  apply String.eqb_neq in Hid. rewrite Hid.
  apply Z.eqb_neq in Hs0. rewrite Hs0. cbn [negb andb]. run.
  assert (Hq : (turnTimeLimit s <= (now - start) / 1000)%Z)
    by (apply Z.div_le_lower_bound; lia).
  rewrite Z.max_l by lia.
  apply Z.leb_le in Hlim. now rewrite Hlim.
Qed.

Lemma timer_expired_auto_plays_witness :
  timerCheck 16000%Z noShuffle (table [Some blue7] [Some red5], [])
  = handleAutoPlay 16000%Z noShuffle
      (table [Some blue7] [Some red5],
       [] ++ [Broadcast (timer_update "alice" 0%Z)]).
Proof.
  exact (@timer_expired_auto_plays 16000%Z noShuffle "alice"%string 1000%Z
           (table [Some blue7] [Some red5]) []
           eq_refl eq_refl ltac:(discriminate) eq_refl ltac:(discriminate)
           ltac:(simpl; lia)).
Defined.

(** X27: a [pass_turn] from the player in turn moves no card and asks for
    no draw before: the state changes as by [advanceTurn] alone, and with
    no [undefined] entry in a hand the state is broadcast, to everybody and
    then hand by hand. *)
Theorem pass_turn_passes now pid s out :
  currentTurn s = Some pid ->
  let r := handlePassTurn now pid (s, out) in
  stateAfter r = advanceTurn now s
  /\ (NoDup (keys (players s)) ->
      allClean (players s) ->
      r = (Ok tt,
           (advanceTurn now s,
            out ++ Broadcast (game_state (snapshot (advanceTurn now s)))
                   :: map (handMessage (topCard s)) (players s)))).
Proof.
  intros Hc r. subst r. unfold handlePassTurn. run. unfold isTurn.
  rewrite Hc, String.eqb_refl. cbn [negb]. run. split.
  - apply broadcastGameState_run.
  - intros Hnd Hcl.
    exact (@broadcastGameState_clean_run (advanceTurn now s) out Hnd Hcl).
Qed.

Lemma pass_turn_passes_witness :
  stateAfter
    (handlePassTurn 2000%Z "alice" (table [Some blue7] [Some red5], []))
  = advanceTurn 2000%Z (table [Some blue7] [Some red5]).
Proof.
  exact (proj1
           (@pass_turn_passes 2000%Z "alice"%string
              (table [Some blue7] [Some red5]) [] eq_refl)).
Defined.

Lemma handValue_undefined cards : forall acc,
  In None cards -> handValue acc cards = Throw.
Proof.
  induction cards as [|[c|] cards IH]; intros acc H; cbn [handValue].
  - destruct H.
  - destruct H as [H|H]; [discriminate|].
    destruct (type c); now apply IH.
  - reflexivity.
Qed.

Lemma scoreLoop_undefined winnerId ps : forall scores total,
  Exists (fun kv => In None (hand (snd kv))) ps ->
  scoreLoop winnerId ps scores total = Throw.
Proof.
  induction ps as [|[k pl] ps IH]; intros scores total H;
    inversion H as [? ? Hh|? ? Ht]; subst; cbn [scoreLoop].
  - cbn [snd] in Hh. now rewrite (handValue_undefined _ 0%Z Hh).
  - destruct (handValue 0 (hand pl)); [|reflexivity].
    destruct (String.eqb k winnerId); now apply IH.
Qed.

(** X28: with an [undefined] entry in the hand of any player, [endGame]
    raises while it counts the cards: the phase is [ended] by then, and
    nothing else has happened: no score is stored, no leaderboard record
    is written and no [game_ended] is sent. *)
Theorem endGame_undefined_card winnerId s out :
  Exists (fun kv => In None (hand (snd kv))) (players s) ->
  endGame winnerId (s, out) = (Throw, (set_gamePhase Ended s, out)).
Proof.
  intros H. unfold endGame. run. cbn [players set_gamePhase].
  now rewrite (@scoreLoop_undefined winnerId (players s) [] 0%Z H).
Qed.

Lemma endGame_undefined_card_witness :
  endGame "bob" (table [None] [Some red5], [])
  = (Throw, (set_gamePhase Ended (table [None] [Some red5]), [])).
Proof.
  exact (@endGame_undefined_card "bob"%string (table [None] [Some red5]) []
           ltac:(apply Exists_cons_hd; simpl; auto)).
Defined.
